(** * YoloMode: a shallow embedding of the polling scheduler, the acceptance
    pass, the remote-debugging layer and the launch-configuration rewrite.

    The repository ships several generations of [extension.js].  The
    generation a definition is taken from is named in its comment:
    - v3.0.x : [src/extension.js], first document;
    - v3.1.0 : [src/unnamed/part_002], third document (target pool,
      port probing, in-place rewrite of the launch configuration). *)

From Stdlib Require Import ZArith Lia Bool.
From Stdlib Require DecimalN.
From stdpp Require Import gmap list strings.

Local Open Scope Z_scope.

(** ** The polling scheduler ([transitionTo] and the timers around it) *)

Module Scheduler.

(** [const State = { IDLE: 'IDLE', FAST: 'FAST', SLOW: 'SLOW' }] *)
Inductive State := IDLE | FAST | SLOW.

#[global] Instance State_eq_dec : EqDecision State.
Proof. solve_decision. Defined.

(** The closures handed to [setInterval] / [setTimeout] by the extension. *)
Inductive callback :=
| CbTryAcceptAll                 (* setInterval(tryAcceptAll, ...)            *)
| CbTransitionTo (st : State)    (* setTimeout(() => transitionTo(st, ...))   *)
| CbHeartbeat                    (* the closure of startHeartbeat             *)
| CbSleepCheck                   (* the closure of startSleepDetection        *)
| CbTextChange                   (* the debounce closure of onDidChangeTextDocument *)
| CbDelayedStart.                (* the 3 s closure of activate               *)

#[global] Instance callback_eq_dec : EqDecision callback.
Proof. solve_decision. Defined.

Inductive timer_kind := Interval | Timeout.

(** One live entry of the host's timer table. *)
Record timer := Timer { t_kind : timer_kind; t_cb : callback; t_delay : Z }.

(** The settings read through [cfg(key)]. *)
Record config := Config {
  cfg_enabled : bool;
  fastIntervalMs : Z;
  slowIntervalMs : Z;
  heartbeatIntervalMs : Z;
  fastDurationMs : Z;
  cooldownDurationMs : Z
}.

(** The module-level variables of [extension.js] that concern timers,
    together with the host's timer table.  A handle is live exactly when the
    table maps it to a timer; handles are never reused. *)
Record ctx := Ctx {
  timers : gmap nat timer;
  next_handle : nat;
  pollInterval : option nat;
  stateTimeout : option nat;
  heartbeatInterval : option nat;
  textChangeTimer : option nat;
  sleepCheckInterval : option nat;
  currentState : State;
  enabled : bool;
  windowFocused : bool;
  listening : bool;        (* the listeners of registerEventListeners are installed *)
  lastTickTime : Z;
  passes : nat;            (* calls of tryAcceptAll issued by timers *)
  cfg : config
}.

Definition with_host (tm : gmap nat timer) (n : nat) (s : ctx) : ctx :=
  Ctx tm n (pollInterval s) (stateTimeout s) (heartbeatInterval s)
      (textChangeTimer s) (sleepCheckInterval s) (currentState s) (enabled s)
      (windowFocused s) (listening s) (lastTickTime s) (passes s) (cfg s).

Definition set_pollInterval (v : option nat) (s : ctx) : ctx :=
  Ctx (timers s) (next_handle s) v (stateTimeout s) (heartbeatInterval s)
      (textChangeTimer s) (sleepCheckInterval s) (currentState s) (enabled s)
      (windowFocused s) (listening s) (lastTickTime s) (passes s) (cfg s).

Definition set_stateTimeout (v : option nat) (s : ctx) : ctx :=
  Ctx (timers s) (next_handle s) (pollInterval s) v (heartbeatInterval s)
      (textChangeTimer s) (sleepCheckInterval s) (currentState s) (enabled s)
      (windowFocused s) (listening s) (lastTickTime s) (passes s) (cfg s).

Definition set_heartbeatInterval (v : option nat) (s : ctx) : ctx :=
  Ctx (timers s) (next_handle s) (pollInterval s) (stateTimeout s) v
      (textChangeTimer s) (sleepCheckInterval s) (currentState s) (enabled s)
      (windowFocused s) (listening s) (lastTickTime s) (passes s) (cfg s).

Definition set_textChangeTimer (v : option nat) (s : ctx) : ctx :=
  Ctx (timers s) (next_handle s) (pollInterval s) (stateTimeout s)
      (heartbeatInterval s) v (sleepCheckInterval s) (currentState s)
      (enabled s) (windowFocused s) (listening s) (lastTickTime s) (passes s) (cfg s).

Definition set_sleepCheckInterval (v : option nat) (s : ctx) : ctx :=
  Ctx (timers s) (next_handle s) (pollInterval s) (stateTimeout s)
      (heartbeatInterval s) (textChangeTimer s) v (currentState s)
      (enabled s) (windowFocused s) (listening s) (lastTickTime s) (passes s) (cfg s).

Definition set_currentState (v : State) (s : ctx) : ctx :=
  Ctx (timers s) (next_handle s) (pollInterval s) (stateTimeout s)
      (heartbeatInterval s) (textChangeTimer s) (sleepCheckInterval s) v
      (enabled s) (windowFocused s) (listening s) (lastTickTime s) (passes s) (cfg s).

Definition set_enabled (v : bool) (s : ctx) : ctx :=
  Ctx (timers s) (next_handle s) (pollInterval s) (stateTimeout s)
      (heartbeatInterval s) (textChangeTimer s) (sleepCheckInterval s)
      (currentState s) v (windowFocused s) (listening s) (lastTickTime s) (passes s) (cfg s).

Definition set_windowFocused (v : bool) (s : ctx) : ctx :=
  Ctx (timers s) (next_handle s) (pollInterval s) (stateTimeout s)
      (heartbeatInterval s) (textChangeTimer s) (sleepCheckInterval s)
      (currentState s) (enabled s) v (listening s) (lastTickTime s) (passes s) (cfg s).

Definition set_listening (v : bool) (s : ctx) : ctx :=
  Ctx (timers s) (next_handle s) (pollInterval s) (stateTimeout s)
      (heartbeatInterval s) (textChangeTimer s) (sleepCheckInterval s)
      (currentState s) (enabled s) (windowFocused s) v (lastTickTime s)
      (passes s) (cfg s).

Definition set_lastTickTime (v : Z) (s : ctx) : ctx :=
  Ctx (timers s) (next_handle s) (pollInterval s) (stateTimeout s)
      (heartbeatInterval s) (textChangeTimer s) (sleepCheckInterval s)
      (currentState s) (enabled s) (windowFocused s) (listening s) v (passes s) (cfg s).

Definition set_passes (v : nat) (s : ctx) : ctx :=
  Ctx (timers s) (next_handle s) (pollInterval s) (stateTimeout s)
      (heartbeatInterval s) (textChangeTimer s) (sleepCheckInterval s)
      (currentState s) (enabled s) (windowFocused s) (listening s) (lastTickTime s) v (cfg s).

Definition set_cfg (v : config) (s : ctx) : ctx :=
  Ctx (timers s) (next_handle s) (pollInterval s) (stateTimeout s)
      (heartbeatInterval s) (textChangeTimer s) (sleepCheckInterval s)
      (currentState s) (enabled s) (windowFocused s) (listening s) (lastTickTime s)
      (passes s) v.

(** [setInterval] / [setTimeout]: a fresh handle enters the timer table. *)
Definition setTimer (k : timer_kind) (cb : callback) (d : Z) (s : ctx)
  : nat * ctx :=
  (next_handle s,
   with_host (<[next_handle s := Timer k cb d]> (timers s))
             (S (next_handle s)) s).

(** [clearInterval] / [clearTimeout]: the handle leaves the table; clearing a
    handle that already fired or was cleared does nothing. *)
Definition clearTimer (h : nat) (s : ctx) : ctx :=
  with_host (delete h (timers s)) (next_handle s) s.

(** [function clearStatefulTimers()] *)
Definition clearStatefulTimers (s : ctx) : ctx :=
  let s1 := match pollInterval s with
            | Some h => set_pollInterval None (clearTimer h s)
            | None => s
            end in
  match stateTimeout s1 with
  | Some h => set_stateTimeout None (clearTimer h s1)
  | None => s1
  end.

(** [function stopHeartbeat()] *)
Definition stopHeartbeat (s : ctx) : ctx :=
  match heartbeatInterval s with
  | Some h => set_heartbeatInterval None (clearTimer h s)
  | None => s
  end.

(** [function clearAllTimers()] *)
Definition clearAllTimers (s : ctx) : ctx :=
  let s1 := stopHeartbeat (clearStatefulTimers s) in
  let s2 := match textChangeTimer s1 with
            | Some h => set_textChangeTimer None (clearTimer h s1)
            | None => s1
            end in
  match sleepCheckInterval s2 with
  | Some h => set_sleepCheckInterval None (clearTimer h s2)
  | None => s2
  end.

(** [function transitionTo(newState, trigger)]; the log line and the status
    bar are display only and are left out. *)
Definition transitionTo (newState : State) (s : ctx) : ctx :=
  let s1 := set_currentState newState (clearStatefulTimers s) in
  match newState with
  | FAST =>
      let '(h1, s2) := setTimer Interval CbTryAcceptAll (fastIntervalMs (cfg s1)) s1 in
      let s3 := set_pollInterval (Some h1) s2 in
      let '(h2, s4) := setTimer Timeout (CbTransitionTo SLOW) (fastDurationMs (cfg s3)) s3 in
      set_stateTimeout (Some h2) s4
  | SLOW =>
      let '(h1, s2) := setTimer Interval CbTryAcceptAll (slowIntervalMs (cfg s1)) s1 in
      let s3 := set_pollInterval (Some h1) s2 in
      let '(h2, s4) := setTimer Timeout (CbTransitionTo IDLE) (cooldownDurationMs (cfg s3)) s3 in
      set_stateTimeout (Some h2) s4
  | IDLE => s1
  end.

(** [function startHeartbeat()] *)
Definition startHeartbeat (s : ctx) : ctx :=
  let s1 := stopHeartbeat s in
  let baseInterval := heartbeatIntervalMs (cfg s1) in
  if 0 <? baseInterval then
    let '(h, s2) := setTimer Interval CbHeartbeat baseInterval s1 in
    set_heartbeatInterval (Some h) s2
  else s1.

(** [function startSleepDetection()]; [now] is the value of [Date.now()]. *)
Definition startSleepDetection (now : Z) (s : ctx) : ctx :=
  let s1 := match sleepCheckInterval s with
            | Some h => clearTimer h s
            | None => s
            end in
  let s2 := set_lastTickTime now s1 in
  let '(h, s3) := setTimer Interval CbSleepCheck 5000 s2 in
  set_sleepCheckInterval (Some h) s3.

(** A timer asking for an acceptance pass; what the pass does is the subject
    of the module [Accept]. *)
Definition tryAcceptAll (s : ctx) : ctx := set_passes (S (passes s)) s.

(** The closure run every 5 s by [startSleepDetection]. *)
Definition sleepCheck (now : Z) (s : ctx) : ctx :=
  let drift := now - lastTickTime s in
  let s1 := if 10000 <? drift
            then (if enabled s then transitionTo FAST s else s)
            else s in
  set_lastTickTime now s1.

(** The closure run by the heartbeat timer. *)
Definition heartbeat (s : ctx) : ctx :=
  if negb (enabled s) then s
  else if decide (currentState s = IDLE) then tryAcceptAll s else s.

(** The body of a callback; [now] is the clock value at the time it runs. *)
Definition run_callback (cb : callback) (now : Z) (s : ctx) : ctx :=
  match cb with
  | CbTryAcceptAll => tryAcceptAll s
  | CbTransitionTo st => transitionTo st s
  | CbHeartbeat => heartbeat s
  | CbSleepCheck => sleepCheck now s
  | CbTextChange =>
      if enabled s && bool_decide (currentState s = IDLE)
      then transitionTo FAST s else s
  | CbDelayedStart => transitionTo FAST s
  end.

(** The host fires the timer with handle [h]: nothing happens when the handle
    is not live; a one-shot timer leaves the table before its closure runs. *)
Definition fire (h : nat) (now : Z) (s : ctx) : ctx :=
  match timers s !! h with
  | None => s
  | Some t =>
      let s1 := match t_kind t with
                | Timeout => clearTimer h s
                | Interval => s
                end in
      run_callback (t_cb t) now s1
  end.

(** The handler of the [ag-auto-accept.toggle] command;
    [registerEventListeners] and [disposeEventListeners] install and remove
    the listeners. *)
Definition toggle (s : ctx) : ctx :=
  let s1 := set_enabled (negb (enabled s)) s in
  if enabled s1 then
    transitionTo FAST (startHeartbeat (set_listening true s1))
  else
    set_currentState IDLE (set_listening false (clearAllTimers s1)).

(** [function activate(context)], timer part. *)
Definition activate (now : Z) (s : ctx) : ctx :=
  let s1 := set_enabled (cfg_enabled (cfg s)) s in
  if enabled s1 then
    let s2 := startSleepDetection now (startHeartbeat (set_listening true s1)) in
    snd (setTimer Timeout CbDelayedStart 3000 s2)
  else s1.

(** [function deactivate()] *)
Definition deactivate (s : ctx) : ctx :=
  set_listening false (clearAllTimers s).

(** What the host can do to the extension.  The listener events reach the
    extension only while the listeners are installed. *)
Inductive event :=
| EvActivate (now : Z)
| EvDeactivate
| EvTrigger                       (* any listener built by [trigger(name)] *)
| EvWindowState (focused : bool)
| EvTextDocumentChanged
| EvConfigChanged (c : config) (affectsHeartbeat : bool)
| EvToggle
| EvFire (h : nat) (now : Z).

Definition listener (e : event) (s : ctx) : ctx :=
  match e with
  | EvTrigger => if enabled s then transitionTo FAST s else s
  | EvWindowState focused =>
      if bool_decide (focused = windowFocused s) then s
      else
        let s1 := set_windowFocused focused s in
        if focused then (if enabled s1 then transitionTo FAST s1 else s1)
        else s1
  | EvTextDocumentChanged =>
      if negb (enabled s) then s
      else
        let s1 := match textChangeTimer s with
                  | Some h => clearTimer h s
                  | None => s
                  end in
        let '(h, s2) := setTimer Timeout CbTextChange 2000 s1 in
        set_textChangeTimer (Some h) s2
  | EvConfigChanged c affectsHeartbeat =>
      (* the settings now read as [c]; the toggle command runs when the
         [enabled] setting differs from the variable *)
      let s1 := set_cfg c s in
      let s2 := if bool_decide (cfg_enabled c = enabled s1) then s1
                else toggle s1 in
      if affectsHeartbeat then startHeartbeat s2 else s2
  | _ => s
  end.

Definition step (e : event) (s : ctx) : ctx :=
  match e with
  | EvActivate now => activate now s
  | EvDeactivate => deactivate s
  | EvToggle => toggle s
  | EvFire h now => fire h now s
  | EvConfigChanged c _ =>
      let s1 := set_cfg c s in
      if listening s1 then listener e s1 else s1
  | _ => if listening s then listener e s else s
  end.

(** The events are applied left to right. *)
Definition run (evs : list event) (s : ctx) : ctx :=
  foldl (fun acc e => step e acc) s evs.

(** The variables as the module initialises them, for the settings [c] and
    the load-time clock [now]. *)
Definition init (c : config) (now : Z) : ctx :=
  Ctx ∅ 0 None None None None None IDLE true true false now 0 c.

(** The live handles whose closure satisfies [p]. *)
Definition live_with (p : callback -> bool) (s : ctx) : list nat :=
  (map_to_list (filter (fun kv => p (t_cb (snd kv)) = true) (timers s))).*1.

Definition is_poll (cb : callback) : bool :=
  match cb with CbTryAcceptAll => true | _ => false end.

Definition is_expiry (cb : callback) : bool :=
  match cb with CbTransitionTo _ => true | _ => false end.

Definition is_heartbeat_or_liveness (cb : callback) : bool :=
  match cb with CbHeartbeat | CbSleepCheck => true | _ => false end.

Definition live_poll_timers : ctx -> list nat := live_with is_poll.
Definition live_expiry_timers : ctx -> list nat := live_with is_expiry.

(** Defaults of the settings, as the README lists them. *)
Definition default_config : config := Config true 200 2000 3000 10000 30000.

(** The bookkeeping that every reachable context satisfies: handles are
    fresh, every live poll timer is the one recorded in [pollInterval], every
    live expiry timer is the one recorded in [stateTimeout], and the two
    variables never name a timer of another kind. *)
Record Inv (s : ctx) : Prop := {
  inv_fresh : forall h t, timers s !! h = Some t -> (h < next_handle s)%nat;
  inv_poll_lt : forall h, pollInterval s = Some h -> (h < next_handle s)%nat;
  inv_expiry_lt : forall h, stateTimeout s = Some h -> (h < next_handle s)%nat;
  inv_poll : forall h t, timers s !! h = Some t -> is_poll (t_cb t) = true ->
                         pollInterval s = Some h;
  inv_expiry : forall h t, timers s !! h = Some t -> is_expiry (t_cb t) = true ->
                           stateTimeout s = Some h;
  inv_poll_cb : forall h t, pollInterval s = Some h -> timers s !! h = Some t ->
                            is_poll (t_cb t) = true;
  inv_expiry_cb : forall h t, stateTimeout s = Some h -> timers s !! h = Some t ->
                              is_expiry (t_cb t) = true
}.

(** Changes that leave the timer table and the two scheduler variables
    alone keep the bookkeeping. *)
Definition same_sched (s s' : ctx) : Prop :=
  timers s' = timers s /\ next_handle s' = next_handle s /\
  pollInterval s' = pollInterval s /\ stateTimeout s' = stateTimeout s.

Local Ltac map_cases :=
  repeat match goal with
  | H : context [ <[ ?i := _ ]> _ !! ?j ] |- _ =>
      destruct (decide (i = j));
      [ subst; rewrite lookup_insert_eq in H
      | rewrite lookup_insert_ne in H by done ]
  | H : context [ delete ?i _ !! ?j ] |- _ =>
      destruct (decide (i = j));
      [ subst; rewrite lookup_delete_eq in H
      | rewrite lookup_delete_ne in H by done ]
  end.


Local Ltac inv_solve :=
  split; simpl in *; intros; map_cases; simplify_eq; simpl in *;
  try done; try lia; try congruence; eauto.

(* closes the side goals of [inv_solve] from the destructed bookkeeping *)
Local Ltac inv_fin Hf Hpl Hel Hp He :=
  try (exfalso; match goal with
       | H : _ = Some (next_handle _) |- _ =>
           first [ apply Hpl in H | apply Hel in H ]; lia
       end);
  try (match goal with
       | H : timers _ !! _ = Some _ |- _ => apply Hf in H; lia end);
  try (match goal with
       | H : _ = Some ?h |- (?h < _)%nat =>
           first [ apply Hpl in H | apply Hel in H ]; lia
       end);
  try (exfalso; match goal with
       | H : timers _ !! _ = Some ?t, H' : _ (t_cb ?t) = true |- _ =>
           first [ pose proof (Hp _ _ H H') | pose proof (He _ _ H H') ];
           congruence
       end).

Lemma Inv_same_sched s s' : Inv s -> same_sched s s' -> Inv s'.
Proof.
  intros [] (Ht & Hn & Hp & He).
  split; rewrite ?Ht, ?Hn, ?Hp, ?He; eauto.
Qed.

Lemma Inv_clearTimer h s : Inv s -> Inv (clearTimer h s).
Proof. intros []. inv_solve. Qed.

Lemma Inv_clear_poll h s :
  Inv s -> pollInterval s = Some h -> Inv (set_pollInterval None (clearTimer h s)).
Proof.
  intros [Hf Hpl Hel Hp He Hpc Hec] Hh. inv_solve.
  inv_fin Hf Hpl Hel Hp He.
Qed.

Lemma Inv_clear_expiry h s :
  Inv s -> stateTimeout s = Some h -> Inv (set_stateTimeout None (clearTimer h s)).
Proof.
  intros [Hf Hpl Hel Hp He Hpc Hec] Hh. inv_solve.
  inv_fin Hf Hpl Hel Hp He.
Qed.

Lemma Inv_clearStatefulTimers s :
  Inv s ->
  Inv (clearStatefulTimers s) /\
  pollInterval (clearStatefulTimers s) = None /\
  stateTimeout (clearStatefulTimers s) = None.
Proof.
  intros HI. unfold clearStatefulTimers.
  destruct (pollInterval s) as [h|] eqn:Hp.
  - pose proof (Inv_clear_poll h s HI Hp) as HI1.
    simpl. destruct (stateTimeout s) as [h'|] eqn:He.
    + split; [|done]. apply (Inv_clear_expiry h' _ HI1). done.
    + simpl. rewrite He. done.
  - destruct (stateTimeout s) as [h'|] eqn:He.
    + split; [|done]. by apply Inv_clear_expiry.
    + done.
Qed.

Lemma Inv_setTimer_other k cb d s :
  Inv s -> is_poll cb = false -> is_expiry cb = false ->
  Inv (snd (setTimer k cb d s)).
Proof.
  intros [Hf Hpl Hel Hp He Hpc Hec] Hcp Hce. inv_solve;
  inv_fin Hf Hpl Hel Hp He.
Qed.

Lemma Inv_install_poll k d s :
  Inv s -> pollInterval s = None ->
  Inv (set_pollInterval (Some (next_handle s))
         (snd (setTimer k CbTryAcceptAll d s))).
Proof.
  intros [Hf Hpl Hel Hp He Hpc Hec] Hnone. inv_solve;
  inv_fin Hf Hpl Hel Hp He.
Qed.

Lemma Inv_install_expiry k st d s :
  Inv s -> stateTimeout s = None ->
  Inv (set_stateTimeout (Some (next_handle s))
         (snd (setTimer k (CbTransitionTo st) d s))).
Proof.
  intros [Hf Hpl Hel Hp He Hpc Hec] Hnone. inv_solve;
  inv_fin Hf Hpl Hel Hp He.
Qed.

Lemma Inv_transitionTo st s : Inv s -> Inv (transitionTo st s).
Proof.
  intros HI. destruct (Inv_clearStatefulTimers s HI) as (HI1 & Hp1 & He1).
  unfold transitionTo.
  set (s1 := set_currentState st (clearStatefulTimers s)).
  assert (Inv s1) as HIs1 by (eapply Inv_same_sched; [exact HI1|done]).
  assert (pollInterval s1 = None) as Hps1 by done.
  assert (stateTimeout s1 = None) as Hes1 by done.
  destruct st; [done| |].
  - apply (Inv_install_expiry Timeout SLOW _
             (set_pollInterval (Some (next_handle s1))
                (snd (setTimer Interval CbTryAcceptAll _ s1)))); [|done].
    by apply Inv_install_poll.
  - apply (Inv_install_expiry Timeout IDLE _
             (set_pollInterval (Some (next_handle s1))
                (snd (setTimer Interval CbTryAcceptAll _ s1)))); [|done].
    by apply Inv_install_poll.
Qed.


#[local] Arguments transitionTo : simpl never.
#[local] Arguments toggle : simpl never.
#[local] Arguments startHeartbeat : simpl never.
#[local] Arguments clearAllTimers : simpl never.
#[local] Arguments activate : simpl never.
#[local] Arguments fire : simpl never.
#[local] Arguments heartbeat : simpl never.
#[local] Arguments sleepCheck : simpl never.

Local Tactic Notation "same_by" tactic3(t) :=
  eapply Inv_same_sched; [ t | done ].

Lemma Inv_stopHeartbeat s : Inv s -> Inv (stopHeartbeat s).
Proof.
  intros HI. unfold stopHeartbeat. destruct (heartbeatInterval s); [|done].
  same_by (by apply Inv_clearTimer).
Qed.

Lemma Inv_startHeartbeat s : Inv s -> Inv (startHeartbeat s).
Proof.
  intros HI. unfold startHeartbeat.
  pose proof (Inv_stopHeartbeat s HI) as H1.
  destruct (0 <? _); [|done].
  same_by (by apply (Inv_setTimer_other Interval CbHeartbeat)).
Qed.

Lemma Inv_startSleepDetection now s : Inv s -> Inv (startSleepDetection now s).
Proof.
  intros HI. unfold startSleepDetection.
  set (s1 := match sleepCheckInterval s with Some h => clearTimer h s | None => s end).
  assert (Inv s1) as H1.
  { subst s1. destruct (sleepCheckInterval s); [by apply Inv_clearTimer|done]. }
  same_by (apply (Inv_setTimer_other Interval CbSleepCheck 5000 (set_lastTickTime now s1)); [|done..]).
  same_by eassumption.
Qed.

Lemma Inv_clearAllTimers s : Inv s -> Inv (clearAllTimers s).
Proof.
  intros HI. unfold clearAllTimers.
  pose proof (Inv_stopHeartbeat _ (proj1 (Inv_clearStatefulTimers s HI))) as H1.
  set (s1 := stopHeartbeat (clearStatefulTimers s)) in *.
  set (s2 := match textChangeTimer s1 with
             | Some h => set_textChangeTimer None (clearTimer h s1)
             | None => s1 end).
  assert (Inv s2) as H2.
  { subst s2. destruct (textChangeTimer s1); [|done]. same_by (by apply Inv_clearTimer). }
  destruct (sleepCheckInterval s2); [|done]. same_by (by apply Inv_clearTimer).
Qed.

Lemma Inv_run_callback cb now s : Inv s -> Inv (run_callback cb now s).
Proof.
  intros HI. destruct cb; simpl.
  - same_by eassumption.
  - by apply Inv_transitionTo.
  - unfold heartbeat. destruct (negb _); [done|]. case_decide; [same_by eassumption|done].
  - unfold sleepCheck.
    apply (Inv_same_sched
             (if 10000 <? now - lastTickTime s
              then (if enabled s then transitionTo FAST s else s) else s));
      [|done].
    destruct (10000 <? _); [|done]. destruct (enabled s); [|done].
    by apply Inv_transitionTo.
  - destruct (_ && _); [by apply Inv_transitionTo|done].
  - by apply Inv_transitionTo.
Qed.

Lemma Inv_fire h now s : Inv s -> Inv (fire h now s).
Proof.
  intros HI. unfold fire. destruct (timers s !! h) as [t|]; [|done].
  apply Inv_run_callback. destruct (t_kind t); [done|by apply Inv_clearTimer].
Qed.

Lemma Inv_toggle s : Inv s -> Inv (toggle s).
Proof.
  intros HI. unfold toggle.
  destruct (enabled (set_enabled _ s)).
  - apply Inv_transitionTo, Inv_startHeartbeat. same_by eassumption.
  - same_by (apply Inv_clearAllTimers). same_by eassumption.
Qed.

Lemma Inv_activate now s : Inv s -> Inv (activate now s).
Proof.
  intros HI. unfold activate.
  destruct (enabled (set_enabled _ s)); [|same_by eassumption].
  apply Inv_setTimer_other; [|done..].
  apply Inv_startSleepDetection, Inv_startHeartbeat. same_by eassumption.
Qed.

Lemma Inv_listener e s : Inv s -> Inv (listener e s).
Proof.
  intros HI. destruct e; simpl; try done.
  - destruct (enabled s); [by apply Inv_transitionTo|done].
  - case_bool_decide; [done|].
    assert (Inv (set_windowFocused focused s)) by (same_by eassumption).
    destruct focused; [|done].
    destruct (enabled _); [by apply Inv_transitionTo|done].
  - destruct (negb _); [done|].
    set (s1 := match textChangeTimer s with Some h => clearTimer h s | None => s end).
    assert (Inv s1) as H1.
    { subst s1. destruct (textChangeTimer s); [by apply Inv_clearTimer|done]. }
    same_by (by apply (Inv_setTimer_other Timeout CbTextChange 2000 s1)).
  - assert (Inv (set_cfg c s)) as H1 by (same_by eassumption).
    set (s2 := if bool_decide _ then _ else _).
    assert (Inv s2) as H2.
    { subst s2. case_bool_decide; [done|by apply Inv_toggle]. }
    destruct affectsHeartbeat; [by apply Inv_startHeartbeat|done].
Qed.

Lemma Inv_step e s : Inv s -> Inv (step e s).
Proof.
  intros HI. destruct e as [now| | |f| |c a| |h now]; simpl.
  - by apply Inv_activate.
  - unfold deactivate. same_by (by apply Inv_clearAllTimers).
  - destruct (listening s); [|done]. by apply (Inv_listener EvTrigger).
  - destruct (listening s); [|done]. by apply (Inv_listener (EvWindowState f)).
  - destruct (listening s); [|done]. by apply (Inv_listener EvTextDocumentChanged).
  - assert (Inv (set_cfg c s)) as H1 by (same_by eassumption).
    destruct (listening s); [|done].
    exact (Inv_listener (EvConfigChanged c a) (set_cfg c s) H1).
  - by apply Inv_toggle.
  - by apply Inv_fire.
Qed.

Lemma Inv_init c now : Inv (init c now).
Proof. split; simpl; intros; simplify_map_eq. Qed.

Lemma Inv_run evs s : Inv s -> Inv (run evs s).
Proof.
  revert s. induction evs as [|e evs IH]; intros s HI; [done|].
  simpl. apply IH. by apply Inv_step.
Qed.

Lemma elem_of_live_with p s h :
  h ∈ live_with p s <-> exists t, timers s !! h = Some t /\ p (t_cb t) = true.
Proof.
  unfold live_with. rewrite list_elem_of_fmap. split.
  - intros ([h' t] & -> & Hin). apply elem_of_map_to_list in Hin.
    apply map_lookup_filter_Some in Hin as [Hl Hp]. eauto.
  - intros (t & Hl & Hp). exists (h, t). split; [done|].
    apply elem_of_map_to_list, map_lookup_filter_Some. done.
Qed.

Lemma NoDup_live_with p s : NoDup (live_with p s).
Proof. apply NoDup_fst_map_to_list. Qed.

Lemma length_le_1_of_const (l : list nat) (v : option nat) :
  NoDup l -> (forall h, h ∈ l -> v = Some h) -> (length l <= 1)%nat.
Proof.
  intros Hnd Hall. destruct l as [|a [|b l]]; simpl; [lia..|].
  exfalso. apply NoDup_cons in Hnd as [Hna _].
  assert (v = Some a) as Ha by (apply Hall; set_solver).
  assert (v = Some b) as Hb by (apply Hall; set_solver).
  apply Hna. assert (a = b) by congruence. set_solver.
Qed.

Lemma Inv_poll_le_1 s : Inv s -> (length (live_poll_timers s) <= 1)%nat.
Proof.
  intros HI. apply (length_le_1_of_const _ (pollInterval s)).
  - apply NoDup_live_with.
  - intros h (t & Hl & Hp)%elem_of_live_with. by eapply inv_poll.
Qed.

Lemma Inv_expiry_le_1 s : Inv s -> (length (live_expiry_timers s) <= 1)%nat.
Proof.
  intros HI. apply (length_le_1_of_const _ (stateTimeout s)).
  - apply NoDup_live_with.
  - intros h (t & Hl & Hp)%elem_of_live_with. by eapply inv_expiry.
Qed.

Lemma live_nil p s :
  (forall h t, timers s !! h = Some t -> p (t_cb t) = false) ->
  live_with p s = [].
Proof.
  intros Hno. destruct (live_with p s) as [|h l] eqn:E; [done|].
  assert (h ∈ live_with p s) as (t & Hl & Hp)%elem_of_live_with
    by (rewrite E; set_solver).
  rewrite (Hno _ _ Hl) in Hp. done.
Qed.

Lemma cleared_no_poll s :
  Inv s -> live_poll_timers (clearStatefulTimers s) = [].
Proof.
  intros HI. destruct (Inv_clearStatefulTimers s HI) as (HI1 & Hp & _).
  apply live_nil. intros h t Hl. destruct (is_poll (t_cb t)) eqn:E; [|done].
  pose proof (inv_poll _ HI1 _ _ Hl E). congruence.
Qed.

Lemma cleared_no_expiry s :
  Inv s -> live_expiry_timers (clearStatefulTimers s) = [].
Proof.
  intros HI. destruct (Inv_clearStatefulTimers s HI) as (HI1 & _ & He).
  apply live_nil. intros h t Hl. destruct (is_expiry (t_cb t)) eqn:E; [|done].
  pose proof (inv_expiry _ HI1 _ _ Hl E). congruence.
Qed.

Lemma clearStatefulTimers_frame s :
  next_handle (clearStatefulTimers s) = next_handle s /\
  heartbeatInterval (clearStatefulTimers s) = heartbeatInterval s /\
  sleepCheckInterval (clearStatefulTimers s) = sleepCheckInterval s /\
  currentState (clearStatefulTimers s) = currentState s /\
  enabled (clearStatefulTimers s) = enabled s.
Proof.
  unfold clearStatefulTimers.
  destruct (pollInterval s); simpl; destruct (stateTimeout s); done.
Qed.

Lemma clearStatefulTimers_lookup s h :
  pollInterval s <> Some h -> stateTimeout s <> Some h ->
  timers (clearStatefulTimers s) !! h = timers s !! h.
Proof.
  intros Hp He. unfold clearStatefulTimers.
  destruct (pollInterval s) as [a|]; simpl;
    destruct (stateTimeout s) as [b|]; simpl;
    rewrite ?lookup_delete_ne by congruence; done.
Qed.

Lemma transitionTo_frame st s :
  currentState (transitionTo st s) = st /\
  heartbeatInterval (transitionTo st s) = heartbeatInterval s /\
  sleepCheckInterval (transitionTo st s) = sleepCheckInterval s /\
  enabled (transitionTo st s) = enabled s.
Proof.
  destruct (clearStatefulTimers_frame s) as (_ & Hh & Hs & _ & He).
  unfold transitionTo. destruct st; simpl; rewrite ?Hh, ?Hs, ?He; done.
Qed.

Lemma transitionTo_old st s h :
  (h < next_handle s)%nat ->
  timers (transitionTo st s) !! h = timers (clearStatefulTimers s) !! h.
Proof.
  intros Hlt. destruct (clearStatefulTimers_frame s) as (Hn & _).
  unfold transitionTo. destruct st; simpl; [done| |];
    rewrite !lookup_insert_ne by lia; done.
Qed.

Lemma transitionTo_installs st s :
  Inv s ->
  (forall h, h ∈ live_poll_timers (transitionTo st s) ->
             (next_handle s <= h)%nat) /\
  (forall h, h ∈ live_expiry_timers (transitionTo st s) ->
             (next_handle s <= h)%nat).
Proof.
  intros HI. destruct (Inv_clearStatefulTimers s HI) as (HI1 & Hp & He).
  split; intros h (t & Hl & Hc)%elem_of_live_with;
    destruct (decide (h < next_handle s)%nat) as [Hlt|]; try lia;
    rewrite transitionTo_old in Hl by done; exfalso.
  - pose proof (inv_poll _ HI1 _ _ Hl Hc). congruence.
  - pose proof (inv_expiry _ HI1 _ _ Hl Hc). congruence.
Qed.

Lemma transitionTo_keeps_others st s h t :
  Inv s -> timers s !! h = Some t ->
  is_heartbeat_or_liveness (t_cb t) = true ->
  timers (transitionTo st s) !! h = Some t.
Proof.
  intros HI Hl Hc.
  rewrite transitionTo_old by (by eapply inv_fresh).
  rewrite clearStatefulTimers_lookup; [done|..]; intros Heq.
  - pose proof (inv_poll_cb _ HI _ _ Heq Hl). by destruct (t_cb t).
  - pose proof (inv_expiry_cb _ HI _ _ Heq Hl). by destruct (t_cb t).
Qed.

Lemma transitionTo_count st s :
  Inv s ->
  length (live_poll_timers (transitionTo st s)) =
    (if decide (st = IDLE) then 0 else 1)%nat /\
  length (live_expiry_timers (transitionTo st s)) =
    (if decide (st = IDLE) then 0 else 1)%nat.
Proof.
  intros HI. pose proof (Inv_transitionTo st s HI) as HI'.
  pose proof (Inv_poll_le_1 _ HI') as Hp.
  pose proof (Inv_expiry_le_1 _ HI') as He.
  destruct st; simpl.
  - unfold transitionTo.
    split.
    + change (live_poll_timers (set_currentState IDLE (clearStatefulTimers s)))
        with (live_poll_timers (clearStatefulTimers s)).
      by rewrite cleared_no_poll.
    + change (live_expiry_timers (set_currentState IDLE (clearStatefulTimers s)))
        with (live_expiry_timers (clearStatefulTimers s)).
      by rewrite cleared_no_expiry.
  - assert (next_handle (clearStatefulTimers s) ∈ live_poll_timers (transitionTo FAST s)).
    { apply elem_of_live_with. eexists. split; [|shelve].
      unfold transitionTo; simpl. rewrite lookup_insert_ne by lia.
      by rewrite lookup_insert_eq. Unshelve. done. }
    assert (S (next_handle (clearStatefulTimers s)) ∈ live_expiry_timers (transitionTo FAST s)).
    { apply elem_of_live_with. eexists. split; [|shelve].
      unfold transitionTo; simpl. by rewrite lookup_insert_eq.
      Unshelve. done. }
    destruct (live_poll_timers (transitionTo FAST s)) as [|? [|]];
      destruct (live_expiry_timers (transitionTo FAST s)) as [|? [|]];
      simpl in *; try lia; set_solver.
  - assert (next_handle (clearStatefulTimers s) ∈ live_poll_timers (transitionTo SLOW s)).
    { apply elem_of_live_with. eexists. split; [|shelve].
      unfold transitionTo; simpl. rewrite lookup_insert_ne by lia.
      by rewrite lookup_insert_eq. Unshelve. done. }
    assert (S (next_handle (clearStatefulTimers s)) ∈ live_expiry_timers (transitionTo SLOW s)).
    { apply elem_of_live_with. eexists. split; [|shelve].
      unfold transitionTo; simpl. by rewrite lookup_insert_eq.
      Unshelve. done. }
    destruct (live_poll_timers (transitionTo SLOW s)) as [|? [|]];
      destruct (live_expiry_timers (transitionTo SLOW s)) as [|? [|]];
      simpl in *; try lia; set_solver.
Qed.

(** A session: activation at clock 0 (heartbeat 0, sampler 1, delayed start
    2), the delayed start fires (poll 3, expiry 4), two triggers re-enter
    FAST, then the FAST expiry fires. *)
Example session_fast :
  let s := run [EvActivate 0; EvFire 2 3000; EvTrigger; EvTrigger] (init default_config 0) in
  currentState s = FAST /\ live_poll_timers s = [7%nat] /\
  live_expiry_timers s = [8%nat] /\ pollInterval s = Some 7%nat /\
  live_with is_heartbeat_or_liveness s = [1%nat; 0%nat].
Proof. vm_compute. done. Qed.

Example session_slow_idle :
  let s := run [EvActivate 0; EvFire 2 3000; EvFire 4 13000] (init default_config 0) in
  currentState s = SLOW /\ live_poll_timers s = [5%nat] /\
  live_expiry_timers s = [6%nat] /\
  currentState (step (EvFire 6 43000) s) = IDLE /\
  live_poll_timers (step (EvFire 6 43000) s) = [] /\
  live_expiry_timers (step (EvFire 6 43000) s) = [].
Proof. vm_compute. done. Qed.

(** C1. For every sequence of host events (activation, triggers, timer
    expiries, liveness recoveries, toggles, configuration changes) the
    context reached from the initial one has at most one live poll timer and
    at most one live expiry timer.  In every such context [transitionTo]
    first leaves no poll and no expiry timer alive, the poll and expiry
    timers alive after it are the ones it has just created (none for IDLE,
    one of each for FAST and SLOW), and it leaves the heartbeat and the
    liveness sampler, handle and timer, as they were. *)
Theorem scheduler_timers_unique (c : config) (now : Z) (evs : list event) :
  let s := run evs (init c now) in
  (length (live_poll_timers s) <= 1)%nat /\
  (length (live_expiry_timers s) <= 1)%nat /\
  forall st,
    live_poll_timers (clearStatefulTimers s) = [] /\
    live_expiry_timers (clearStatefulTimers s) = [] /\
    (forall h, h ∈ live_poll_timers (transitionTo st s) ++
                   live_expiry_timers (transitionTo st s) ->
               (next_handle s <= h)%nat) /\
    length (live_poll_timers (transitionTo st s)) =
      (if decide (st = IDLE) then 0 else 1)%nat /\
    length (live_expiry_timers (transitionTo st s)) =
      (if decide (st = IDLE) then 0 else 1)%nat /\
    heartbeatInterval (transitionTo st s) = heartbeatInterval s /\
    sleepCheckInterval (transitionTo st s) = sleepCheckInterval s /\
    forall h t, timers s !! h = Some t ->
                is_heartbeat_or_liveness (t_cb t) = true ->
                timers (transitionTo st s) !! h = Some t.
Proof.
  intros s. assert (Inv s) as HI by apply Inv_run, Inv_init.
  split; [by apply Inv_poll_le_1|]. split; [by apply Inv_expiry_le_1|].
  intros st.
  destruct (transitionTo_installs st s HI) as [Hip Hie].
  destruct (transitionTo_count st s HI) as [Hcp Hce].
  destruct (transitionTo_frame st s) as (_ & Hh & Hs & _).
  repeat split; auto using cleared_no_poll, cleared_no_expiry.
  - intros h [?|?]%elem_of_app; auto.
  - intros h t. by apply transitionTo_keeps_others.
Qed.

(** What [transitionTo(State.FAST, ...)] leaves behind in a context that
    keeps the bookkeeping: the state, one poll timer at the fast interval
    and one expiry timer towards SLOW, both new and both recorded. *)
Lemma transitionTo_FAST s :
  Inv s ->
  let s' := transitionTo FAST s in
  currentState s' = FAST /\
  pollInterval s' = Some (next_handle s) /\
  timers s' !! next_handle s =
    Some (Timer Interval CbTryAcceptAll (fastIntervalMs (cfg s))) /\
  live_poll_timers s' = [next_handle s] /\
  stateTimeout s' = Some (S (next_handle s)) /\
  timers s' !! S (next_handle s) =
    Some (Timer Timeout (CbTransitionTo SLOW) (fastDurationMs (cfg s))) /\
  live_expiry_timers s' = [S (next_handle s)].
Proof.
  intros HI s'. pose proof (Inv_transitionTo FAST s HI) as HI'.
  destruct (clearStatefulTimers_frame s) as (Hn & _).
  assert (cfg (clearStatefulTimers s) = cfg s) as Hcfg.
  { unfold clearStatefulTimers.
    destruct (pollInterval s); simpl; by destruct (stateTimeout s). }
  assert (timers s' !! next_handle s =
          Some (Timer Interval CbTryAcceptAll (fastIntervalMs (cfg s)))) as Hp.
  { subst s'. unfold transitionTo. simpl. rewrite Hn, Hcfg.
    rewrite lookup_insert_ne by lia. by rewrite lookup_insert_eq. }
  assert (timers s' !! S (next_handle s) =
          Some (Timer Timeout (CbTransitionTo SLOW) (fastDurationMs (cfg s))))
    as He.
  { subst s'. unfold transitionTo. simpl. rewrite Hn, Hcfg.
    by rewrite lookup_insert_eq. }
  assert (pollInterval s' = Some (next_handle s)) as Hpv
    by (eapply inv_poll; [exact HI'|exact Hp|done]).
  assert (stateTimeout s' = Some (S (next_handle s))) as Hev
    by (eapply inv_expiry; [exact HI'|exact He|done]).
  destruct (transitionTo_count FAST s HI) as [Hcp Hce].
  assert (next_handle s ∈ live_poll_timers s') as Hinp
    by (apply elem_of_live_with; eexists; split; [exact Hp|done]).
  assert (S (next_handle s) ∈ live_expiry_timers s') as Hine
    by (apply elem_of_live_with; eexists; split; [exact He|done]).
  split; [apply transitionTo_frame|]. split; [done|]. split; [done|].
  split; [|split; [done|split; [done|]]].
  - fold s' in Hcp. destruct (live_poll_timers s') as [|a [|]]; try done.
    by apply list_elem_of_singleton in Hinp as ->.
  - fold s' in Hce. destruct (live_expiry_timers s') as [|a [|]]; try done.
    by apply list_elem_of_singleton in Hine as ->.
Qed.

(** C6.  In every context reached from load, when the liveness sampler
    runs at clock [now] the sample becomes the new reference.  When the
    feature is enabled and [now] is more than twice the 5000 ms cadence
    past the previous sample, the sampler has called transitionTo(FAST),
    whatever the state was before: the state is FAST, the poll and expiry
    timers that were live are cancelled, and the only poll and expiry
    timers live are the new ones of FAST, a poll interval at
    fastIntervalMs and an expiry towards SLOW at fastDurationMs, both
    recorded in their variables.  When the feature is disabled or the gap
    is at most 10000 ms the sampler changes neither the state nor the two
    variables nor any other timer. *)
Theorem liveness_recovery (c : config) (now0 : Z) (evs : list event)
    (h : nat) (t : timer) (now : Z) :
  let s := run evs (init c now0) in
  timers s !! h = Some t -> t_cb t = CbSleepCheck ->
  let s' := step (EvFire h now) s in
  lastTickTime s' = now /\
  (enabled s = true -> 2 * 5000 < now - lastTickTime s ->
   currentState s' = FAST /\
   pollInterval s' = Some (next_handle s) /\
   timers s' !! next_handle s =
     Some (Timer Interval CbTryAcceptAll (fastIntervalMs (cfg s))) /\
   live_poll_timers s' = [next_handle s] /\
   stateTimeout s' = Some (S (next_handle s)) /\
   timers s' !! S (next_handle s) =
     Some (Timer Timeout (CbTransitionTo SLOW) (fastDurationMs (cfg s))) /\
   live_expiry_timers s' = [S (next_handle s)] /\
   forall h0 t0, timers s !! h0 = Some t0 ->
                 is_poll (t_cb t0) || is_expiry (t_cb t0) = true ->
                 timers s' !! h0 = None) /\
  (enabled s = false \/ now - lastTickTime s <= 2 * 5000 ->
   currentState s' = currentState s /\
   pollInterval s' = pollInterval s /\ stateTimeout s' = stateTimeout s /\
   next_handle s' = next_handle s /\
   forall h0, h0 <> h -> timers s' !! h0 = timers s !! h0).
Proof.
  intros s Hl Hcb s'. assert (Inv s) as HI by apply Inv_run, Inv_init.
  set (s1 := match t_kind t with Timeout => clearTimer h s | Interval => s end).
  assert (s' = sleepCheck now s1) as Es.
  { subst s' s1. simpl. unfold fire. by rewrite Hl, Hcb. }
  assert (Inv s1) as HI1 by (subst s1; destruct (t_kind t); [done|by apply Inv_clearTimer]).
  assert (next_handle s1 = next_handle s /\ cfg s1 = cfg s /\
          enabled s1 = enabled s /\ lastTickTime s1 = lastTickTime s /\
          currentState s1 = currentState s /\
          pollInterval s1 = pollInterval s /\ stateTimeout s1 = stateTimeout s)
    as (Hn1 & Hc1 & He1 & Hk1 & Hs1 & Hp1 & Ht1)
    by (subst s1; by destruct (t_kind t)).
  assert (forall h0, h0 <> h -> timers s1 !! h0 = timers s !! h0) as Hother.
  { intros h0 Hne. subst s1. destruct (t_kind t); [done|].
    simpl. by rewrite lookup_delete_ne. }
  split; [|split].
  - rewrite Es. unfold sleepCheck. done.
  - intros Hen Hgap.
    assert (s' = set_lastTickTime now (transitionTo FAST s1)) as Es'.
    { rewrite Es. unfold sleepCheck. rewrite Hk1, He1, Hen.
      destruct (10000 <? now - lastTickTime s) eqn:E; [done|lia]. }
    destruct (transitionTo_FAST s1 HI1)
      as (H1 & H2 & H3 & H4 & H5 & H6 & H7).
    rewrite Hn1, ?Hc1 in *.
    assert (live_poll_timers s' = live_poll_timers (transitionTo FAST s1)) as Elp
      by (by rewrite Es').
    assert (live_expiry_timers s' = live_expiry_timers (transitionTo FAST s1))
      as Ele by (by rewrite Es').
    assert (timers s' = timers (transitionTo FAST s1)) as Et by (by rewrite Es').
    rewrite Elp, Ele, Et.
    assert (currentState s' = FAST /\ pollInterval s' = Some (next_handle s) /\
            stateTimeout s' = Some (S (next_handle s))) as (-> & -> & ->)
      by (rewrite Es'; done).
    repeat (split; [done|]).
    intros h0 t0 Hl0 Hk0.
    pose proof (inv_fresh _ HI _ _ Hl0) as Hlt.
    destruct (timers (transitionTo FAST s1) !! h0) as [t1|] eqn:E1; [|done].
    exfalso.
    assert (timers s1 !! h0 = Some t1 -> t1 = t0) as Hsame.
    { subst s1. destruct (t_kind t); simpl; [congruence|].
      intros Hd. destruct (decide (h = h0)) as [->|Hne].
      - by rewrite lookup_delete_eq in Hd.
      - rewrite lookup_delete_ne in Hd by done. congruence. }
    assert (timers s1 !! h0 = Some t1) as Hl1.
    { rewrite transitionTo_old in E1 by lia.
      destruct (timers s1 !! h0) as [t2|] eqn:E2.
      - destruct (decide (pollInterval s1 = Some h0)) as [Hp|Hp].
        + exfalso. revert E1. unfold clearStatefulTimers. rewrite Hp. simpl.
          destruct (stateTimeout s1) as [b|]; simpl; intros E1.
          * destruct (decide (b = h0)) as [->|Hne];
              [by rewrite lookup_delete_eq in E1|].
            rewrite lookup_delete_ne in E1 by done.
            by rewrite lookup_delete_eq in E1.
          * by rewrite lookup_delete_eq in E1.
        + destruct (decide (stateTimeout s1 = Some h0)) as [Hq|Hq].
          * exfalso. revert E1. unfold clearStatefulTimers.
            destruct (pollInterval s1) as [a|]; simpl; rewrite Hq; simpl;
              by rewrite lookup_delete_eq.
          * rewrite clearStatefulTimers_lookup in E1 by done. congruence.
      - exfalso. revert E1. unfold clearStatefulTimers.
        destruct (pollInterval s1) as [a|]; simpl;
          destruct (stateTimeout s1) as [b|]; simpl; intros E1;
          repeat match type of E1 with
          | delete ?i _ !! ?j = _ =>
              destruct (decide (i = j)) as [->|?];
              [by rewrite lookup_delete_eq in E1
              |rewrite lookup_delete_ne in E1 by done]
          end; congruence. }
    specialize (Hsame Hl1). subst t1.
    apply orb_true_iff in Hk0 as [Hk0|Hk0].
    + assert (h0 ∈ live_poll_timers (transitionTo FAST s1)) as Hin
        by (apply elem_of_live_with; eexists; split; [exact E1|done]).
      rewrite H4 in Hin. apply list_elem_of_singleton in Hin. lia.
    + assert (h0 ∈ live_expiry_timers (transitionTo FAST s1)) as Hin
        by (apply elem_of_live_with; eexists; split; [exact E1|done]).
      rewrite H7 in Hin. apply list_elem_of_singleton in Hin. lia.
  - intros Hno.
    assert (s' = set_lastTickTime now s1) as Es'.
    { rewrite Es. unfold sleepCheck. rewrite Hk1, He1.
      destruct Hno as [-> | Hle]; [by destruct (10000 <? _)|].
      destruct (10000 <? now - lastTickTime s) eqn:E; [lia|done]. }
    rewrite Es'. simpl. repeat (split; [done|]). exact Hother.
Qed.

(** The session of [session_slow_idle], in SLOW with the poll timer 5 and
    the expiry timer 6 live; the sampler (timer 1) runs 10001 ms after the
    last sample. *)
Lemma liveness_recovery_witness :
  let s := run [EvActivate 0; EvFire 2 3000; EvFire 4 13000] (init default_config 0) in
  let s' := step (EvFire 1 10001) s in
  currentState s = SLOW /\ live_poll_timers s = [5%nat] /\
  currentState s' = FAST /\ live_poll_timers s' = [7%nat] /\
  timers s' !! 5%nat = None.
Proof.
  intros s s'.
  destruct (liveness_recovery default_config 0
              [EvActivate 0; EvFire 2 3000; EvFire 4 13000]
              1%nat (Timer Interval CbSleepCheck 5000) 10001)
    as (_ & Hgap & _); [by vm_compute|reflexivity|].
  destruct Hgap as (H1 & _ & _ & H4 & _ & _ & _ & H8);
    [by vm_compute|by vm_compute|].
  split; [by vm_compute|]. split; [by vm_compute|].
  split; [exact H1|]. split; [exact H4|].
  apply (H8 5%nat (Timer Interval CbTryAcceptAll 2000)); by vm_compute.
Defined.

End Scheduler.

(** ** The acceptance pass ([tryAcceptAll]) and its re-entrancy guard *)

Module Accept.

(** [ACCEPT_COMMANDS], identical in v3.0.x and v3.1.0. *)
Definition ACCEPT_COMMANDS : list string :=
  [ "antigravity.agent.acceptAgentStep";
    "antigravity.terminalCommand.accept";
    "antigravity.command.accept";
    "antigravity.prioritized.agentAcceptAllInFile";
    "antigravity.prioritized.agentAcceptFocusedHunk" ]%string.

(** The two generations of [tryAcceptAll]. *)
Inductive generation :=
| V30     (* src/extension.js: the command loop, then tryAcceptViaCDP *)
| V31.    (* src/unnamed/part_002, v3.1.0: tryAcceptViaCDP only       *)

(** What a pass does to the outside world. *)
Inductive action :=
| Execute (cmdId : string)      (* vscode.commands.executeCommand(cmdId)       *)
| Evaluate (target : string)    (* a Runtime.evaluate request sent to a target *)
| LogError.                     (* the log line of the outer catch             *)

#[global] Instance action_eq_dec : EqDecision action.
Proof. solve_decision. Defined.

(** How an awaited promise settles. *)
Inductive outcome := Fulfilled | Rejected.

(** Where a suspended invocation of [tryAcceptAll] waits. *)
Inductive frame :=
| AwaitCommand (rest : list string)
    (* at [await executeCommand(cmdId)]; [rest] are the commands not yet tried *)
| AwaitEvaluate (rest : list (string * bool))
    (* v3.1.0, inside tryAcceptViaCDP: at [await cdpSendTo(entry, ...)];
       [rest] are the pool entries not yet visited *)
| AwaitCDP.
    (* at [await tryAcceptViaCDP()], the helper being about to settle *)

(** The variables the pass reads and writes.  [main_target] names the single
    connection of v3.0.x; [pool] lists the entries of [cdpTargetPool] with
    the flag [ws.readyState === OPEN]. *)
Record world := World {
  enabled : bool;
  isAccepting : bool;
  enableCDP : bool;
  cdpReady : bool;
  pool : list (string * bool);
  inflight : list frame;
  trace : list action
}.

Definition main_target : string := "main"%string.

Definition set_enabled (b : bool) (w : world) : world :=
  World b (isAccepting w) (enableCDP w) (cdpReady w) (pool w) (inflight w) (trace w).
Definition set_isAccepting (b : bool) (w : world) : world :=
  World (enabled w) b (enableCDP w) (cdpReady w) (pool w) (inflight w) (trace w).
Definition set_enableCDP (b : bool) (w : world) : world :=
  World (enabled w) (isAccepting w) b (cdpReady w) (pool w) (inflight w) (trace w).
Definition set_cdpReady (b : bool) (w : world) : world :=
  World (enabled w) (isAccepting w) (enableCDP w) b (pool w) (inflight w) (trace w).
Definition set_pool (p : list (string * bool)) (w : world) : world :=
  World (enabled w) (isAccepting w) (enableCDP w) (cdpReady w) p (inflight w) (trace w).
Definition set_inflight (fs : list frame) (w : world) : world :=
  World (enabled w) (isAccepting w) (enableCDP w) (cdpReady w) (pool w) fs (trace w).
Definition emit (a : action) (w : world) : world :=
  World (enabled w) (isAccepting w) (enableCDP w) (cdpReady w) (pool w)
        (inflight w) (trace w ++ [a]).

(** The invocation suspends: its frame joins the suspended ones. *)
Definition suspend (f : frame) (w : world) : world :=
  set_inflight (inflight w ++ [f]) w.

(** The [finally] block. *)
Definition finish (w : world) : world := set_isAccepting false w.

(** v3.0.x [tryAcceptViaCDP], up to its first suspension: the request leaves
    only when the connection is ready and the path is enabled.  Its own
    try/catch swallows what the request does afterwards. *)
Definition tryAcceptViaCDP_v30 (w : world) : world :=
  if negb (cdpReady w) || negb (enableCDP w) then w
  else emit (Evaluate main_target) w.

(** v3.1.0 [tryAcceptViaCDP]: the loop over the pool, from the entries
    [entries] on, up to the next suspension.  Entries that are not open are
    skipped. *)
Fixpoint evaluate_from (entries : list (string * bool)) (w : world) : world :=
  match entries with
  | [] => suspend AwaitCDP w
  | (id, open) :: rest =>
      if open then suspend (AwaitEvaluate rest) (emit (Evaluate id) w)
      else evaluate_from rest w
  end.

Definition tryAcceptViaCDP_v31 (w : world) : world :=
  if (length (pool w) =? 0)%nat || negb (enableCDP w) then suspend AwaitCDP w
  else evaluate_from (pool w) w.

(** v3.0.x: the [for (const cmdId of ACCEPT_COMMANDS)] loop from the commands
    [cmds] on, up to the next suspension. *)
Definition command_loop (cmds : list string) (w : world) : world :=
  match cmds with
  | cmdId :: rest => suspend (AwaitCommand rest) (emit (Execute cmdId) w)
  | [] => suspend AwaitCDP (tryAcceptViaCDP_v30 w)
  end.

(** [async function tryAcceptAll()], from the call to the first suspension. *)
Definition tryAcceptAll (g : generation) (w : world) : world :=
  if negb (enabled w) || isAccepting w then w
  else
    let w1 := set_isAccepting true w in
    match g with
    | V30 => command_loop ACCEPT_COMMANDS w1
    | V31 => tryAcceptViaCDP_v31 w1
    end.

(** The suspended invocation [f] goes on after its awaited promise settled
    with [o].  A rejected command or request is swallowed by the inner
    try/catch; a rejected helper reaches the outer catch; both ways end in
    the [finally] block. *)
Definition resume (f : frame) (o : outcome) (w : world) : world :=
  match f with
  | AwaitCommand rest => command_loop rest w
  | AwaitEvaluate rest => evaluate_from rest w
  | AwaitCDP =>
      match o with
      | Fulfilled => finish w
      | Rejected => finish (emit LogError w)
      end
  end.

Inductive event :=
| Invoke                            (* a timer or the force-accept command calls tryAcceptAll *)
| Settle (i : nat) (o : outcome)    (* the promise awaited by the i-th suspended invocation settles *)
| SetEnabled (b : bool)
| SetEnableCDP (b : bool)
| SetCdpReady (b : bool)
| SetPool (p : list (string * bool)).

Definition step (g : generation) (e : event) (w : world) : world :=
  match e with
  | Invoke => tryAcceptAll g w
  | Settle i o =>
      match inflight w !! i with
      | Some f => resume f o (set_inflight (delete i (inflight w)) w)
      | None => w
      end
  | SetEnabled b => set_enabled b w
  | SetEnableCDP b => set_enableCDP b w
  | SetCdpReady b => set_cdpReady b w
  | SetPool p => set_pool p w
  end.

Definition run (g : generation) (evs : list event) (w : world) : world :=
  foldl (fun acc e => step g e acc) w evs.

(** The variables at module load, with no pass under way. *)
Definition init : world := World true false true false [] [] [].

(** The accept commands a trace contains, in order. *)
Definition commands (tr : list action) : list string :=
  omap (fun a => match a with Execute c => Some c | _ => None end) tr.

(** The requests for remote evaluation a trace contains, in order. *)
Definition evaluations (tr : list action) : list string :=
  omap (fun a => match a with Evaluate t => Some t | _ => None end) tr.

(** No pass is under way. *)
Definition quiescent (w : world) : Prop :=
  isAccepting w = false /\ inflight w = [].

(** The guard tells whether an invocation is suspended. *)
Definition guarded (w : world) : Prop :=
  (isAccepting w = false /\ inflight w = []) \/
  (isAccepting w = true /\ exists f, inflight w = [f]).

(** The number of [Settle 0 _] events of a list: the settlements that reach
    the suspended invocation when there is exactly one. *)
Fixpoint settles (evs : list event) : nat :=
  match evs with
  | [] => 0
  | Settle 0 _ :: evs' => S (settles evs')
  | _ :: evs' => settles evs'
  end.

(** No invocation waits inside the command loop: the case under v3.1.0. *)
Definition no_command_frame (w : world) : Prop :=
  forall rest, AwaitCommand rest ∉ inflight w.


Lemma evaluate_from_frames entries w :
  exists f, inflight (evaluate_from entries w) = inflight w ++ [f] /\
            isAccepting (evaluate_from entries w) = isAccepting w /\
            commands (trace (evaluate_from entries w)) = commands (trace w).
Proof.
  revert w. induction entries as [|[id open] rest IH]; intros w; simpl.
  - by eexists.
  - destruct open; [|apply IH]. eexists. repeat split; [done..|].
    simpl. unfold commands. rewrite omap_app. simpl. by rewrite app_nil_r.
Qed.

Lemma command_loop_frames cmds w :
  exists f, inflight (command_loop cmds w) = inflight w ++ [f] /\
            isAccepting (command_loop cmds w) = isAccepting w.
Proof.
  destruct cmds as [|c rest]; simpl; [|by eexists].
  unfold tryAcceptViaCDP_v30. destruct (_ || _); by eexists.
Qed.

#[local] Arguments command_loop : simpl never.
#[local] Arguments evaluate_from : simpl never.
#[local] Arguments ACCEPT_COMMANDS : simpl never.

Lemma guarded_step g e w : guarded w -> guarded (step g e w).
Proof.
  intros Hg. destruct e as [|i o|b|b|b|p]; simpl; try exact Hg.
  - unfold tryAcceptAll. destruct Hg as [[Ha Hf]|[Ha Hf]]; rewrite Ha.
    + destruct (negb (enabled w)); simpl; [by left|]. right.
      destruct g.
      * destruct (command_loop_frames ACCEPT_COMMANDS (set_isAccepting true w))
          as (f & Hfr & Hacc).
        rewrite Hacc, Hfr. simpl. rewrite Hf. eauto.
      * unfold tryAcceptViaCDP_v31. destruct (_ || _).
        { simpl. rewrite Hf. eauto. }
        destruct (evaluate_from_frames (pool (set_isAccepting true w))
                    (set_isAccepting true w)) as (f & Hfr & Hacc & _).
        rewrite Hacc, Hfr. simpl. rewrite Hf. eauto.
    + rewrite orb_true_r. by right.
  - destruct Hg as [[Ha Hf]|[Ha [f Hf]]]; rewrite Hf.
    + by left.
    + destruct i as [|i]; simpl; [|right; eauto].
      set (w0 := set_inflight [] w).
      destruct f as [rest|rest|]; simpl.
      * destruct (command_loop_frames rest w0) as (f & Hfr & Hacc).
        right. rewrite Hacc, Hfr. eauto.
      * destruct (evaluate_from_frames rest w0) as (f & Hfr & Hacc & _).
        right. rewrite Hacc, Hfr. eauto.
      * destruct o; by left.
Qed.

Lemma guarded_run g evs w : guarded w -> guarded (run g evs w).
Proof.
  revert w. induction evs as [|e evs IH]; intros w Hg; [done|].
  simpl. by apply IH, guarded_step.
Qed.

Lemma guarded_init : guarded init.
Proof. by left. Qed.

(** C2. In every state reached from the initial one, under either
    generation: the guard is set exactly when one invocation is suspended
    and never more than one is; while it is set, a further call of
    tryAcceptAll changes nothing (no action, no new invocation); and a
    settlement that ends the suspended invocation, fulfilled or rejected,
    leaves the guard cleared and nothing suspended. *)
Theorem reentrancy_guard (g : generation) (evs : list event) :
  let w := run g evs init in
  (length (inflight w) <= 1)%nat /\
  (isAccepting w = true <-> inflight w <> []) /\
  (isAccepting w = true -> step g Invoke w = w) /\
  (forall i o,
     (length (inflight (step g (Settle i o) w)) < length (inflight w))%nat ->
     isAccepting (step g (Settle i o) w) = false /\
     inflight (step g (Settle i o) w) = []).
Proof.
  intros w. assert (guarded w) as Hg by apply guarded_run, guarded_init.
  split; [|split; [|split]].
  - destruct Hg as [[_ ->]|[_ [f ->]]]; simpl; lia.
  - destruct Hg as [[Ha ->]|[Ha [f ->]]]; rewrite Ha; split; done.
  - intros Ha. simpl. unfold tryAcceptAll. rewrite Ha. by rewrite orb_true_r.
  - intros i o Hlt.
    pose proof (guarded_step g (Settle i o) w Hg) as [[Ha Hf]|[Ha [f Hf]]];
      [done|].
    exfalso. rewrite Hf in Hlt. simpl in Hlt.
    destruct Hg as [[_ Hw]|[_ [f' Hw]]]; rewrite Hw in Hlt; simpl in Hlt; lia.
Qed.


Lemma commands_emit a w :
  commands (trace (emit a w)) =
  commands (trace w) ++ match a with Execute c => [c] | _ => [] end.
Proof.
  simpl. unfold commands. rewrite omap_app. by destruct a.
Qed.

(** Events other than [Settle 0 _] leave a lone suspended invocation, the
    guard around it and the commands run so far as they are. *)
Lemma step_other g e w f :
  isAccepting w = true -> inflight w = [f] ->
  (forall o, e <> Settle 0 o) ->
  isAccepting (step g e w) = true /\ inflight (step g e w) = [f] /\
  commands (trace (step g e w)) = commands (trace w).
Proof.
  intros Ha Hf Hne. destruct e as [|i o|b|b|b|p]; simpl; try done.
  - unfold tryAcceptAll. rewrite Ha, orb_true_r. done.
  - rewrite Hf. destruct i as [|i]; [by destruct (Hne o)|done].
Qed.

Lemma settles_cons_other e evs :
  (forall o, e <> Settle 0 o) -> settles (e :: evs) = settles evs.
Proof.
  intros Hne. destruct e as [|[|i] o| | | |]; try done. by destruct (Hne o).
Qed.

Lemma event_settle0_dec e : {o | e = Settle 0 o} + {forall o, e <> Settle 0 o}.
Proof.
  destruct e as [|[|i] o| | | |]; try (right; congruence). left. by exists o.
Qed.

Lemma await_cdp_stays g evs w :
  isAccepting w = true -> inflight w = [AwaitCDP] -> settles evs = 0%nat ->
  isAccepting (run g evs w) = true /\ inflight (run g evs w) = [AwaitCDP] /\
  commands (trace (run g evs w)) = commands (trace w).
Proof.
  revert w. induction evs as [|e evs IH]; intros w Ha Hf Hs; [done|].
  destruct (event_settle0_dec e) as [[o ->]|Hne]; [done|].
  rewrite settles_cons_other in Hs by done.
  destruct (step_other g e w _ Ha Hf Hne) as (Ha' & Hf' & Hc').
  simpl. rewrite <- Hc'. by apply IH.
Qed.

Lemma command_loop_runs evs w rest :
  isAccepting w = true -> inflight w = [AwaitCommand rest] ->
  settles evs = S (length rest) ->
  isAccepting (run V30 evs w) = true /\
  inflight (run V30 evs w) = [AwaitCDP] /\
  commands (trace (run V30 evs w)) = commands (trace w) ++ rest.
Proof.
  revert w rest. induction evs as [|e evs IH]; intros w rest Ha Hf Hs; [done|].
  destruct (event_settle0_dec e) as [[o ->]|Hne].
  - simpl in Hs. injection Hs as Hs.
    change (run V30 (Settle 0 o :: evs) w)
      with (run V30 evs (step V30 (Settle 0 o) w)).
    simpl step. rewrite Hf. simpl.
    set (w0 := set_inflight [] w).
    destruct rest as [|c rest'].
    + unfold command_loop.
      destruct (await_cdp_stays V30 evs (suspend AwaitCDP (tryAcceptViaCDP_v30 w0)))
        as (Ha' & Hf' & Hc'); [| |done|].
      * unfold tryAcceptViaCDP_v30. by destruct (_ || _).
      * unfold tryAcceptViaCDP_v30. by destruct (_ || _).
      * rewrite Ha', Hf', Hc', app_nil_r. split; [done|]. split; [done|].
        unfold tryAcceptViaCDP_v30. destruct (_ || _); [done|].
        simpl. unfold commands. rewrite omap_app. simpl. by rewrite app_nil_r.
    + unfold command_loop.
      destruct (IH (suspend (AwaitCommand rest') (emit (Execute c) w0)) rest')
        as (Ha' & Hf' & Hc'); [done..|].
      rewrite Ha', Hf', Hc'. split; [done|]. split; [done|].
      simpl. unfold commands. rewrite omap_app. simpl.
      by rewrite <- app_assoc.
  - rewrite settles_cons_other in Hs by done.
    destruct (step_other V30 e w _ Ha Hf Hne) as (Ha' & Hf' & Hc').
    simpl. rewrite <- Hc'. by apply IH.
Qed.

(** The v3.0.x pass: started in a quiescent, enabled state and carried
    through its six settlements, whatever their outcomes and whatever other
    events come in between, it has run the five commands once each, in the
    order of ACCEPT_COMMANDS, and has ended with the guard cleared. *)
Lemma pass_v30 w evs o :
  quiescent w -> enabled w = true -> settles evs = 5%nat ->
  let w' := run V30 (Invoke :: evs ++ [Settle 0 o]) w in
  commands (trace w') = commands (trace w) ++ ACCEPT_COMMANDS /\
  quiescent w'.
Proof.
  intros [Ha Hf] He Hs w'. subst w'.
  change (run V30 (Invoke :: evs ++ [Settle 0 o]) w)
    with (run V30 (evs ++ [Settle 0 o]) (tryAcceptAll V30 w)).
  unfold run. rewrite foldl_app. fold (run V30 evs (tryAcceptAll V30 w)).
  unfold tryAcceptAll. rewrite Ha, He. simpl negb. simpl orb. cbv iota.
  unfold ACCEPT_COMMANDS at 1. unfold command_loop.
  match goal with |- context [run V30 evs ?w1] =>
    destruct (command_loop_runs evs w1
      ["antigravity.terminalCommand.accept";
       "antigravity.command.accept";
       "antigravity.prioritized.agentAcceptAllInFile";
       "antigravity.prioritized.agentAcceptFocusedHunk"]%string)
      as (Ha' & Hf' & Hc')
  end; [done|by simpl; rewrite Hf|done|].
  simpl foldl. rewrite Hf'. simpl.
  assert (forall w1, commands (trace (finish w1)) = commands (trace w1)) as Hfin by done.
  split.
  - destruct o; rewrite Hfin, ?commands_emit, ?app_nil_r; simpl;
      rewrite Hc'; simpl; unfold commands; rewrite omap_app; simpl;
      by rewrite <- app_assoc.
  - by destruct o.
Qed.

Lemma no_command_suspend f w :
  no_command_frame w -> (forall rest, f <> AwaitCommand rest) ->
  no_command_frame (suspend f w).
Proof.
  intros Hn Hf r [Hin|Hin%list_elem_of_singleton]%elem_of_app.
  - by apply (Hn r).
  - by apply (Hf r).
Qed.

Lemma evaluate_from_no_command entries w :
  no_command_frame w -> no_command_frame (evaluate_from entries w).
Proof.
  revert w. induction entries as [|[id open] rest IH]; intros w Hn.
  - by apply no_command_suspend.
  - unfold evaluate_from; fold evaluate_from. destruct open; [|by apply IH].
    by apply (no_command_suspend _ (emit (Evaluate id) w)).
Qed.

Lemma step_v31 e w :
  no_command_frame w ->
  no_command_frame (step V31 e w) /\
  commands (trace (step V31 e w)) = commands (trace w).
Proof.
  intros Hn. destruct e as [|i o|b|b|b|p]; simpl; try done.
  - unfold tryAcceptAll. destruct (_ || _); [done|].
    unfold tryAcceptViaCDP_v31. destruct (_ || _).
    + split; [|done]. by apply (no_command_suspend _ (set_isAccepting true w)).
    + split.
      * by apply evaluate_from_no_command.
      * by destruct (evaluate_from_frames (pool (set_isAccepting true w))
                       (set_isAccepting true w)) as (f & _ & _ & ->).
  - destruct (inflight w !! i) as [f|] eqn:Hi; [|done].
    assert (no_command_frame (set_inflight (delete i (inflight w)) w)) as Hn'.
    { intros r Hin. apply (Hn r). simpl in Hin.
      by apply list_elem_of_delete_inv in Hin. }
    destruct f as [rest|rest|]; simpl.
    + exfalso. apply (Hn rest). by eapply list_elem_of_lookup_2.
    + split; [by apply evaluate_from_no_command|].
      by destruct (evaluate_from_frames rest
                     (set_inflight (delete i (inflight w)) w)) as (f & _ & _ & ->).
    + destruct o; split; try done. simpl. unfold commands.
      rewrite omap_app. simpl. by rewrite app_nil_r.
Qed.

(** The v3.1.0 pass never runs an accept command. *)
Lemma pass_v31_no_command evs w :
  no_command_frame w ->
  commands (trace (run V31 evs w)) = commands (trace w).
Proof.
  revert w. induction evs as [|e evs IH]; intros w Hn; [done|].
  destruct (step_v31 e w Hn) as [Hn' Hc]. simpl. rewrite <- Hc. by apply IH.
Qed.

(** A v3.1.0 pass over a pool with one open target: it is not skipped, it
    completes, it sends one evaluation request and runs none of the five
    accept commands. *)
Lemma pass_v31_skips_commands :
  let evs := [SetPool [("page-1"%string, true)]; Invoke] in
  let w := run V31 (evs ++ [Settle 0 Fulfilled; Settle 0 Fulfilled]) init in
  isAccepting (run V31 evs init) = true /\
  quiescent w /\
  trace w = [Evaluate "page-1"] /\
  commands (trace w) <> commands (trace init) ++ ACCEPT_COMMANDS.
Proof. vm_compute. repeat split; discriminate. Qed.

(** C3, amended.  Under v3.0.x (src/extension.js) a pass that starts in a
    quiescent, enabled state and is carried through its six settlements runs
    each of the five accept commands exactly once, in the order of
    ACCEPT_COMMANDS, whatever the outcome of each command and of the remote
    evaluation and whatever other events come in between, and ends with the
    guard cleared.  Under v3.1.0 (part_002) a pass runs no accept command:
    no trace reachable from the initial state contains one. *)
Theorem accept_pass_commands :
  (forall w evs o,
     quiescent w -> enabled w = true -> settles evs = 5%nat ->
     let w' := run V30 (Invoke :: evs ++ [Settle 0 o]) w in
     commands (trace w') = commands (trace w) ++ ACCEPT_COMMANDS /\
     quiescent w') /\
  (forall evs, commands (trace (run V31 evs init)) = []).
Proof.
  split.
  - intros w evs o. apply pass_v30.
  - intros evs. apply (pass_v31_no_command evs init). intros r Hin.
    by apply elem_of_nil in Hin.
Qed.

(** A v3.0.x pass in which every command is rejected, the remote evaluation
    is rejected, the feature is switched off half way and two timers call
    tryAcceptAll in between. *)
Lemma accept_pass_commands_witness :
  let evs := [Settle 0 Rejected; Invoke; SetEnabled false; Settle 0 Rejected;
              Settle 0 Rejected; Invoke; Settle 0 Rejected; Settle 0 Rejected] in
  let w' := run V30 (Invoke :: evs ++ [Settle 0 Rejected]) init in
  commands (trace w') = commands (trace init) ++ ACCEPT_COMMANDS /\
  quiescent w'.
Proof.
  apply (proj1 accept_pass_commands init); [by vm_compute|reflexivity..].
Defined.

End Accept.

(** ** The request layer of a remote-debugging connection ([cdpSend]) *)

Module Cdp.

(** The two generations of the request layer.  v3.0.x keeps one connection
    in the module variables [cdpWs], [cdpMessageId], [cdpPendingCallbacks]
    ([cdpSend]), and [cdpConnect] puts a new socket into [cdpWs] when the
    old one is gone.  v3.1.0 keeps the same three per pool entry
    ([cdpSendTo] with [entry.ws], [entry.msgId], [entry.callbacks]); an
    entry has one socket for life, and a target that is connected again
    gets another entry, with [msgId] 1 and no callbacks, so under v3.1.0 a
    state of this module is one entry from [cdpConnectTarget] on.  The
    generations differ in the close handler as well. *)
Inductive generation := V30 | V31.

(** The state of the promise returned by one call of [cdpSend]. *)
Inductive settlement :=
| Pending
| Resolved (result : Z)
| RejectedRemote           (* reject(new Error(msg.error.message))      *)
| RejectedTimeout.         (* reject(new Error(`CDP call ... timed out`)) *)

#[global] Instance settlement_eq_dec : EqDecision settlement.
Proof. solve_decision. Defined.

(** Requests are named by their message id.  [callbacks] is the table
    [cdpPendingCallbacks]: it holds the resolve/reject pair of the promise of
    request [id] under the key [id].  [timeouts] holds the ids whose 5000 ms
    timer has not fired yet.  [promises] records every promise handed out for
    a request that was sent. *)
Record conn := Conn {
  ws_open : bool;                 (* cdpWs && cdpWs.readyState === OPEN *)
  ws_closed : bool;               (* v3.1.0: entry.ws was closed, or is closing *)
  cdpReady : bool;
  cdpMessageId : N;
  callbacks : gset N;
  timeouts : gset N;
  promises : gmap N settlement
}.

Definition init : conn := Conn false false false 1 ∅ ∅ ∅.

(** [resolve] / [reject] of the promise of request [id]: a promise settles
    once; later calls do nothing. *)
Definition settle (id : N) (v : settlement) (c : conn) : conn :=
  match promises c !! id with
  | Some Pending =>
      Conn (ws_open c) (ws_closed c) (cdpReady c) (cdpMessageId c) (callbacks c)
           (timeouts c) (<[id := v]> (promises c))
  | _ => c
  end.

Definition set_callbacks (cb : gset N) (c : conn) : conn :=
  Conn (ws_open c) (ws_closed c) (cdpReady c) (cdpMessageId c) cb (timeouts c)
       (promises c).

(** [function cdpSend(method, params)].  When the socket is not open the
    promise is rejected at once and no request exists; otherwise the request
    takes the next id, its callbacks are filed, the message is sent and the
    5000 ms timer is armed. *)
Definition cdpSend (c : conn) : option N * conn :=
  if negb (ws_open c) then (None, c)
  else
    let id := cdpMessageId c in
    (Some id,
     Conn (ws_open c) (ws_closed c) (cdpReady c) (id + 1) ({[id]} ∪ callbacks c)
          ({[id]} ∪ timeouts c) (<[id := Pending]> (promises c))).

(** The ['message'] handler for [{id, result}] or [{id, error}]; a message
    whose id is 0 or absent is falsy and ignored. *)
Definition onMessage (id : N) (reply : option Z) (c : conn) : conn :=
  if negb (id =? 0)%N && bool_decide (id ∈ callbacks c) then
    let c1 := set_callbacks (callbacks c ∖ {[id]}) c in
    match reply with
    | None => settle id RejectedRemote c1
    | Some r => settle id (Resolved r) c1
    end
  else c.

(** The closure armed by [setTimeout(..., 5000)] for request [id]. *)
Definition onTimeout (id : N) (c : conn) : conn :=
  if bool_decide (id ∈ timeouts c) then
    let c1 := Conn (ws_open c) (ws_closed c) (cdpReady c) (cdpMessageId c) (callbacks c)
                   (timeouts c ∖ {[id]}) (promises c) in
    if bool_decide (id ∈ callbacks c1) then
      settle id RejectedTimeout (set_callbacks (callbacks c1 ∖ {[id]}) c1)
    else c1
  else c.

(** The ['close'] handler.  v3.0.x: [cdpReady = false; cdpWs = null;
    cdpPendingCallbacks = {}; scheduleCdpReconnect(port)].  v3.1.0: the entry
    leaves the pool and its [callbacks] are left as they are. *)
Definition onClose (g : generation) (c : conn) : conn :=
  match g with
  | V30 => Conn false (ws_closed c) false (cdpMessageId c) ∅ (timeouts c)
                (promises c)
  | V31 => Conn false true (cdpReady c) (cdpMessageId c) (callbacks c)
                (timeouts c) (promises c)
  end.

(** [function cdpDisconnect()].  v3.0.x: [cdpReady = false; cdpWs.close();
    cdpWs = null; cdpPendingCallbacks = {}].  v3.1.0: the sockets are closed
    and the pool is cleared; the [callbacks] of an entry are left alone. *)
Definition cdpDisconnect (g : generation) (c : conn) : conn :=
  match g with
  | V30 => Conn false (ws_closed c) (if ws_open c then false else cdpReady c)
                (cdpMessageId c) ∅ (timeouts c) (promises c)
  | V31 => Conn false true (cdpReady c) (cdpMessageId c) (callbacks c)
                (timeouts c) (promises c)
  end.

(** The ['open'] event.  v3.0.x: the socket that [cdpConnect] has put
    into [cdpWs] opens, [cdpReady = true].  v3.1.0: the socket of the entry
    opens, which it does once at most and never after it was closed. *)
Definition onOpen (g : generation) (c : conn) : conn :=
  match g with
  | V30 => Conn true (ws_closed c) true (cdpMessageId c) (callbacks c)
                (timeouts c) (promises c)
  | V31 => if ws_closed c then c
           else Conn true false true (cdpMessageId c) (callbacks c)
                     (timeouts c) (promises c)
  end.

Inductive event :=
| EvOpen
| EvSend
| EvMessage (id : N) (reply : option Z)
| EvTimeout (id : N)
| EvClose
| EvDisconnect.

Definition step (g : generation) (e : event) (c : conn) : conn :=
  match e with
  | EvOpen => onOpen g c
  | EvSend => snd (cdpSend c)
  | EvMessage id reply => onMessage id reply c
  | EvTimeout id => onTimeout id c
  | EvClose => onClose g c
  | EvDisconnect => cdpDisconnect g c
  end.

Definition run (g : generation) (evs : list event) (c : conn) : conn :=
  foldl (fun acc e => step g e acc) c evs.

(** Request [id] can no longer be settled: its promise is pending, its
    callbacks are gone from the table, its timer has fired, and no later
    request will reuse its id. *)
Definition leaked (id : N) (c : conn) : Prop :=
  promises c !! id = Some Pending /\ (id ∉ callbacks c) /\
  (id ∉ timeouts c) /\ (id < cdpMessageId c)%N.

(** The bookkeeping of v3.1.0: a pending promise still has its callbacks
    filed and its timer armed. *)
Definition tracked (c : conn) : Prop :=
  forall id, promises c !! id = Some Pending ->
             (id ∈ callbacks c) /\ (id ∈ timeouts c).


#[local] Set Warnings "-clear-no-such-hyp".

Lemma settle_other id id' v c :
  id <> id' -> promises (settle id' v c) !! id = promises c !! id.
Proof.
  intros Hne. unfold settle. destruct (promises c !! id') as [[]|]; simpl;
    rewrite ?lookup_insert_ne by done; done.
Qed.

Lemma settle_frame id v c :
  callbacks (settle id v c) = callbacks c /\
  timeouts (settle id v c) = timeouts c /\
  cdpMessageId (settle id v c) = cdpMessageId c /\
  ws_open (settle id v c) = ws_open c.
Proof. unfold settle. by destruct (promises c !! id) as [[]|]. Qed.

Lemma leaked_step g e c id : leaked id c -> leaked id (step g e c).
Proof.
  intros (Hp & Hc & Ht & Hlt). destruct e as [| |id' reply|id'| |]; simpl.
  - destruct g; simpl; [done|]. by destruct (ws_closed c).
  - unfold cdpSend. destruct (negb (ws_open c)); simpl; [done|].
    assert (cdpMessageId c <> id) as Hne by lia.
    unfold leaked; simpl. rewrite lookup_insert_ne by done.
    repeat split; [done|set_solver|set_solver|lia].
  - unfold onMessage. destruct (_ && _) eqn:E; [|done].
    apply andb_true_iff in E as [_ Hin%bool_decide_eq_true].
    assert (id <> id') as Hne by (intros ->; done).
    destruct reply; unfold leaked;
      match goal with |- context [settle ?i ?v ?c0] =>
        destruct (settle_frame i v c0) as (-> & -> & -> & _);
        rewrite (settle_other id i v c0) by done
      end; simpl; repeat split; try done; set_solver.
  - unfold onTimeout. case_bool_decide as Hin; [|done].
    assert (id <> id') as Hne by (intros ->; done).
    simpl. case_bool_decide as Hcb; unfold leaked.
    + match goal with |- context [settle ?i ?v ?c0] =>
        destruct (settle_frame i v c0) as (-> & -> & -> & _);
        rewrite (settle_other id i v c0) by done
      end; simpl; repeat split; try done; set_solver.
    + simpl; repeat split; try done; set_solver.
  - destruct g; unfold leaked; simpl; repeat split; try done; set_solver.
  - destruct g; unfold leaked; simpl; repeat split; try done; set_solver.
Qed.

Lemma leaked_run g evs c id : leaked id c -> leaked id (run g evs c).
Proof.
  revert c. induction evs as [|e evs IH]; intros c Hl; [done|].
  simpl. by apply IH, leaked_step.
Qed.

Lemma settle_pending id id' v c :
  v <> Pending -> promises (settle id' v c) !! id = Some Pending ->
  id <> id' /\ promises c !! id = Some Pending.
Proof.
  intros Hv. unfold settle.
  destruct (promises c !! id') as [st|] eqn:Hp'.
  - destruct (decide (st = Pending)) as [->|Hst].
    + simpl. destruct (decide (id = id')) as [->|Hne].
      * rewrite lookup_insert_eq. congruence.
      * by rewrite lookup_insert_ne.
    + assert (promises (match st with Pending => Conn (ws_open c) (ws_closed c) (cdpReady c)
                (cdpMessageId c) (callbacks c) (timeouts c)
                (<[id':=v]> (promises c)) | _ => c end) = promises c) as ->
        by (by destruct st).
      intros Hp. split; [|done]. intros ->. congruence.
  - intros Hp. split; [|done]. intros ->. congruence.
Qed.

Lemma tracked_step e c : tracked c -> tracked (step V31 e c).
Proof.
  intros Htr. destruct e as [| |id' reply|id'| |]; simpl; try done.
  - by destruct (ws_closed c).
  - unfold cdpSend. destruct (negb (ws_open c)); simpl; [done|].
    intros id. simpl. destruct (decide (cdpMessageId c = id)) as [->|Hne].
    + intros _. split; set_solver.
    + rewrite lookup_insert_ne by done. intros Hp.
      destruct (Htr id Hp). split; set_solver.
  - unfold onMessage. destruct (_ && _) eqn:E; [|done].
    intros id Hp.
    assert (id <> id' /\ promises c !! id = Some Pending) as [Hne Hp0].
    { destruct reply; eapply settle_pending in Hp; done. }
    destruct (Htr id Hp0) as [Hc Ht].
    destruct reply;
      match goal with |- context [settle ?i ?v ?c0] =>
        destruct (settle_frame i v c0) as (-> & -> & _) end;
      simpl; split; set_solver.
  - unfold onTimeout. case_bool_decide as Hin; [|done]. simpl.
    case_bool_decide as Hcb; intros id Hp.
    + apply settle_pending in Hp as [Hne Hp0]; [|done]. simpl in Hp0.
      destruct (Htr id Hp0) as [Hc Ht].
      match goal with |- context [settle ?i ?v ?c0] =>
        destruct (settle_frame i v c0) as (-> & -> & _) end.
      simpl; split; set_solver.
    + simpl in *. destruct (Htr id Hp) as [Hc Ht].
      split; [done|]. assert (id <> id') as Hne by (intros ->; done).
      set_solver.
Qed.

Lemma tracked_run evs c : tracked c -> tracked (run V31 evs c).
Proof.
  revert c. induction evs as [|e evs IH]; intros c Hl; [done|].
  simpl. by apply IH, tracked_step.
Qed.

(** v3.1.0 keeps the promise: a request that is still pending has its timer
    armed, and the timer rejects it. *)
Lemma v31_requests_settle evs id :
  let c := run V31 evs init in
  promises c !! id = Some Pending ->
  (id ∈ timeouts c) /\
  promises (step V31 (EvTimeout id) c) !! id = Some RejectedTimeout.
Proof.
  intros c Hp.
  assert (tracked c) as Htr by (apply tracked_run; intros i Hi; done).
  destruct (Htr id Hp) as [Hc Ht]. split; [done|].
  simpl. unfold onTimeout. rewrite bool_decide_eq_true_2 by done. simpl.
  rewrite bool_decide_eq_true_2 by done. unfold settle. simpl. rewrite Hp.
  simpl. by rewrite lookup_insert_eq.
Qed.

(** C5, the failing run under v3.0.x.  A request is sent on an open
    connection and takes id 1; the connection closes before any reply; the
    5000 ms timer of the request fires.  The promise of the request is then
    still pending, its callbacks are gone from [cdpPendingCallbacks] and its
    timer is spent, and whatever happens afterwards (replies, timers, further
    requests, reconnections, disconnections) the promise stays pending. *)
Theorem request_leaks_on_close :
  let c := run V30 [EvOpen; EvSend; EvClose; EvTimeout 1] init in
  fst (cdpSend (run V30 [EvOpen] init)) = Some 1%N /\
  leaked 1 c /\
  forall evs, promises (run V30 evs c) !! 1%N = Some Pending.
Proof.
  intros c.
  assert (leaked 1 c) as Hl.
  { subst c. unfold leaked. vm_compute. repeat split; try done.
    all: intros Hin; by apply elem_of_empty in Hin. }
  split; [done|]. split; [done|].
  intros evs. by apply (leaked_run V30 evs c 1%N).
Qed.

End Cdp.

(** ** Target discovery and the connection pool (v3.1.0, part_002) *)

Module Pool.

(** A target descriptor of the [/json] endpoint.  A field that is absent or
    empty is falsy in the source; [webSocketDebuggerUrl] keeps the two cases
    apart, [t_title] and [t_url] hold the empty string for both. *)
Record target := Target {
  t_id : string;
  t_type : string;
  t_title : string;
  t_url : string;
  webSocketDebuggerUrl : option string
}.

(** An entry of [cdpTargetPool]; [ws] is the handle of its socket. *)
Record entry := Entry {
  ws : nat;
  title : string;
  type : string;
  msgId : N
}.

(** A socket of the host: the URL it was opened on and whether [close()] has
    been called on it. *)
Record socket := Socket { s_url : string; s_closed : bool }.

(** [cdpTargetPool] is a JS [Map]: its entries in insertion order. *)
Record state := State {
  cdpTargetPool : list (string * entry);
  sockets : gmap nat socket;
  next_socket : nat;
  enabled : bool;
  enableCDP : bool
}.

Definition init : state := State [] ∅ 0 true true.

Definition keys (s : state) : list string := (cdpTargetPool s).*1.

(** [Map.prototype.has], [set] and [delete]. *)
Definition has (k : string) (m : list (string * entry)) : bool :=
  bool_decide (k ∈ m.*1).

Definition set (k : string) (v : entry) (m : list (string * entry))
  : list (string * entry) :=
  if has k m
  then (fun kv => if decide (kv.1 = k) then (k, v) else kv) <$> m
  else m ++ [(k, v)].

Definition delete (k : string) (m : list (string * entry))
  : list (string * entry) :=
  filter (fun kv => kv.1 <> k) m.

Definition truthy (s : string) : bool :=
  match s with EmptyString => false | _ => true end.

Definition truthy_opt (o : option string) : bool :=
  match o with Some s => truthy s | None => false end.

(** The targets the connect loop does not skip. *)
Definition eligible (t : target) : bool :=
  truthy_opt (webSocketDebuggerUrl t) &&
  negb (String.eqb (t_type t) "worker" || String.eqb (t_type t) "service_worker").

Definition liveIds (targets : list target) : list string := t_id <$> targets.

Definition eligible_ids (targets : list target) : list string :=
  t_id <$> filter (fun t => eligible t = true) targets.

Section Host.

(** Whether [new WebSocket(url)] throws on [url]. *)
Variable ws_rejects : string -> bool.

(** [entry.ws.close()] *)
Definition close_socket (h : nat) (s : state) : state :=
  State (cdpTargetPool s)
        (alter (fun k => Socket (s_url k) true) h (sockets s))
        (next_socket s) (enabled s) (enableCDP s).

Definition with_pool (m : list (string * entry)) (s : state) : state :=
  State m (sockets s) (next_socket s) (enabled s) (enableCDP s).

(** [function cdpConnectTarget(target)] *)
Definition cdpConnectTarget (t : target) (s : state) : state :=
  let targetId := t_id t in
  if has targetId (cdpTargetPool s) then s
  else
    let title := if truthy (t_title t) then t_title t
                 else if truthy (t_url t) then t_url t else targetId in
    let url := default EmptyString (webSocketDebuggerUrl t) in
    if ws_rejects url then s
    else
      let h := next_socket s in
      State (set targetId (Entry h title (t_type t) 1) (cdpTargetPool s))
            (<[h := Socket url false]> (sockets s))
            (S h) (enabled s) (enableCDP s).

(** The first loop of [cdpDiscoverAndConnect], for one entry of the pool. *)
Definition cleanup_entry (live : list string) (s : state) (kv : string * entry)
  : state :=
  if bool_decide (kv.1 ∈ live) then s
  else
    let s1 := close_socket (ws kv.2) s in
    with_pool (delete kv.1 (cdpTargetPool s1)) s1.

(** The second loop, for one reported target. *)
Definition connect_target (s : state) (t : target) : state :=
  if negb (truthy_opt (webSocketDebuggerUrl t)) then s
  else if String.eqb (t_type t) "worker" || String.eqb (t_type t) "service_worker"
  then s
  else if has (t_id t) (cdpTargetPool s) then s
  else cdpConnectTarget t s.

(** The body of [cdpDiscoverAndConnect] once the target list has arrived. *)
Definition discover (targets : list target) (s : state) : state :=
  let live := liveIds targets in
  let s1 := foldl (cleanup_entry live) s (cdpTargetPool s) in
  foldl connect_target s1 targets.

(** [async function cdpDiscoverAndConnect(port)]; [reply] is what
    [cdpGetTargets] settles with: the list, or nothing when it fails. *)
Definition cdpDiscoverAndConnect (reply : option (list target)) (s : state)
  : state :=
  if negb (enabled s) || negb (enableCDP s) then s
  else match reply with
       | Some targets => discover targets s
       | None => s
       end.

(** The targets for which the connect loop opens a socket when their id is
    not pooled yet. *)
Definition connectable (t : target) : bool :=
  eligible t && negb (ws_rejects (default EmptyString (webSocketDebuggerUrl t))).

End Host.

(** The socket behind handle [h] has been closed. *)
Definition closed (s : state) (h : nat) : Prop :=
  exists k, sockets s !! h = Some k /\ s_closed k = true.

(** What a [Map] and the socket table guarantee: one entry per key, every
    pooled socket known to the host, handles fresh. *)
Record wf (s : state) : Prop := {
  wf_nodup : NoDup (keys s);
  wf_sockets : forall id e, (id, e) ∈ cdpTargetPool s -> is_Some (sockets s !! ws e);
  wf_fresh : forall h k, sockets s !! h = Some k -> (h < next_socket s)%nat
}.

Lemma has_true k m : has k m = true <-> k ∈ m.*1.
Proof. unfold has. apply bool_decide_eq_true. Qed.

Lemma has_false k m : has k m = false <-> k ∉ m.*1.
Proof. unfold has. apply bool_decide_eq_false. Qed.

Lemma keys_delete k m x : x ∈ (delete k m).*1 <-> x ∈ m.*1 /\ x <> k.
Proof.
  unfold delete. rewrite !list_elem_of_fmap. split.
  - intros ([k' e] & -> & Hin). apply list_elem_of_filter in Hin as [Hne Hin].
    split; [|done]. by exists (k', e).
  - intros [([k' e] & -> & Hin) Hne]. exists (k', e). split; [done|].
    by apply list_elem_of_filter.
Qed.

Lemma NoDup_keys_delete k m : NoDup m.*1 -> NoDup (delete k m).*1.
Proof.
  unfold delete. induction m as [|[k' e] m IH]; simpl; [done|].
  intros [Hn Hnd]%NoDup_cons. rewrite filter_cons. simpl.
  destruct (decide (k' <> k)); [|by apply IH].
  simpl. apply NoDup_cons. split; [|by apply IH].
  intros Hin. apply Hn. by apply (keys_delete k m k') in Hin as [? _].
Qed.

Lemma elem_of_delete k m kv : kv ∈ delete k m <-> kv ∈ m /\ kv.1 <> k.
Proof. unfold delete. rewrite list_elem_of_filter. tauto. Qed.

Lemma closed_close_socket h s : is_Some (sockets s !! h) -> closed (close_socket h s) h.
Proof.
  intros [k Hk]. exists (Socket (s_url k) true). split; [|done].
  simpl. by rewrite lookup_alter_eq, Hk.
Qed.

Lemma closed_mono_close h h' s : closed s h -> closed (close_socket h' s) h.
Proof.
  intros (k & Hk & Hc). destruct (decide (h' = h)) as [->|Hne].
  - apply closed_close_socket. by exists k.
  - exists k. split; [|done]. simpl. by rewrite lookup_alter_ne.
Qed.

Lemma is_Some_close_socket h h' s :
  is_Some (sockets (close_socket h' s) !! h) <-> is_Some (sockets s !! h).
Proof. simpl. by rewrite lookup_alter_is_Some. Qed.

(** The first loop over the entries [l], started in [s]. *)
Lemma cleanup_fold live l s :
  let s' := foldl (cleanup_entry live) s l in
  (forall kv, kv ∈ cdpTargetPool s' <->
              kv ∈ cdpTargetPool s /\ (kv.1 ∈ live \/ kv.1 ∉ l.*1)) /\
  (NoDup (keys s) -> NoDup (keys s')) /\
  next_socket s' = next_socket s /\
  (forall h, is_Some (sockets s' !! h) <-> is_Some (sockets s !! h)) /\
  (forall h, closed s h -> closed s' h) /\
  (forall id e, (id, e) ∈ l -> id ∉ live -> is_Some (sockets s !! ws e) ->
                closed s' (ws e)).
Proof.
  revert s. induction l as [|[k e] l IH]; intros s; simpl.
  - split_and!; try done.
    + intros kv. split; [|tauto]. intros Hin. split; [done|]. right.
      apply not_elem_of_nil.
    + intros id e' Hin. by apply elem_of_nil in Hin.
  - set (s1 := cleanup_entry live s (k, e)).
    destruct (IH s1) as (Hm & Hnd & Hn & Hs & Hc & Hcl). clear IH.
    unfold cleanup_entry in s1. simpl in s1.
    destruct (decide (k ∈ live)) as [Hlive|Hdead].
    + assert (s1 = s) as Hs1 by (subst s1; by rewrite bool_decide_eq_true_2).
      rewrite Hs1 in *. split_and!; try done.
      * intros kv. split.
        -- intros Hin. apply Hm in Hin as [Hin Hor]. split; [done|].
           destruct Hor as [?|Hnl]; [by left|].
           destruct (decide (kv.1 = k)) as [->|Hne]; [by left|].
           right. intros [?|?]%elem_of_cons; done.
        -- intros [Hin Hor]. apply Hm. split; [done|].
           destruct Hor as [?|Hnl]; [by left|]. right.
           intros Hin'. apply Hnl. by right.
      * intros id e' [Heq|Hin]%elem_of_cons Hnl Hsome.
        -- injection Heq as -> ->. done.
        -- by apply (Hcl id).
    + assert (s1 = with_pool (delete k (cdpTargetPool s)) (close_socket (ws e) s))
        as Hs1 by (subst s1; by rewrite bool_decide_eq_false_2).
      rewrite Hs1 in *. clear Hs1 s1. simpl in *.
      split_and!.
      * intros kv. split.
        -- intros Hin. apply Hm in Hin as [[Hin Hne]%elem_of_delete Hor].
           split; [done|]. destruct Hor as [?|Hnl]; [by left|]. right.
           intros [?|?]%elem_of_cons; done.
        -- intros [Hin Hor]. apply Hm.
           assert (kv.1 <> k) as Hne.
           { intros Heq. destruct Hor as [Hl|Hnl]; [by rewrite Heq in Hl|].
             apply Hnl. rewrite Heq. by left. }
           split; [by apply elem_of_delete|].
           destruct Hor as [?|Hnl]; [by left|]. right.
           intros Hin'. apply Hnl. by right.
      * intros Hnd0. apply Hnd. unfold keys. simpl. by apply NoDup_keys_delete.
      * done.
      * intros h. rewrite Hs. apply (is_Some_close_socket h (ws e) s).
      * intros h Hh. apply Hc. by apply (closed_mono_close h (ws e) s).
      * intros id e' [Heq|Hin]%elem_of_cons Hnl Hsome.
        -- injection Heq as -> ->. apply Hc.
           by apply (closed_close_socket (ws e) s).
        -- apply (Hcl id); [done..|].
           by apply (is_Some_close_socket (ws e') (ws e) s).
Qed.

Lemma wf_cleanup live s :
  wf s -> wf (foldl (cleanup_entry live) s (cdpTargetPool s)).
Proof.
  intros [Hnd Hso Hfr].
  destruct (cleanup_fold live (cdpTargetPool s) s) as (Hm & Hnd' & Hn & Hs & _).
  split.
  - by apply Hnd'.
  - intros id e [Hin _]%Hm. apply Hs. by apply (Hso id).
  - intros h k Hk. rewrite Hn.
    assert (is_Some (sockets s !! h)) as [k' Hk'] by (apply Hs; by exists k).
    by apply (Hfr h k').
Qed.

Lemma eligible_ids_spec targets id :
  id ∈ eligible_ids targets <->
  exists t, t ∈ targets /\ t_id t = id /\ eligible t = true.
Proof.
  unfold eligible_ids. rewrite list_elem_of_fmap. split.
  - intros (t & -> & [He Hin]%list_elem_of_filter). by exists t.
  - intros (t & Hin & <- & He). exists t. split; [done|].
    by apply list_elem_of_filter.
Qed.

Section HostFacts.

Variable ws_rejects : string -> bool.

(** One round of the second loop either leaves the pool alone or appends
    one entry, for a connectable target whose id was not pooled. *)
Lemma connect_step t s :
  let s' := connect_target ws_rejects s t in
  (s' = s /\ (connectable ws_rejects t = true -> t_id t ∈ keys s)) \/
  (connectable ws_rejects t = true /\ (t_id t ∉ keys s) /\
   exists e, cdpTargetPool s' = cdpTargetPool s ++ [(t_id t, e)] /\
             ws e = next_socket s /\
             sockets s' = <[next_socket s := Socket (default EmptyString (webSocketDebuggerUrl t)) false]> (sockets s) /\
             next_socket s' = S (next_socket s)).
Proof.
  unfold connect_target, connectable, eligible, cdpConnectTarget.
  destruct (truthy_opt (webSocketDebuggerUrl t)); simpl; [|by left].
  destruct (_ || _); simpl; [by left|].
  destruct (has (t_id t) (cdpTargetPool s)) eqn:Hhas.
  { left. split; [done|]. intros _. by apply has_true. }
  destruct (ws_rejects _); simpl; [by left|].
  right. split; [done|]. split; [by apply has_false|].
  eexists. unfold set. rewrite Hhas. simpl. done.
Qed.

Lemma connect_step_wf t s : wf s -> wf (connect_target ws_rejects s t).
Proof.
  intros [Hnd Hso Hfr].
  destruct (connect_step t s) as [[-> _]|(Hc & Hnot & e & Hp & Hw & Hs & Hn)];
    [done|].
  split.
  - unfold keys. rewrite Hp, fmap_app. simpl. apply NoDup_app.
    split; [done|]. split; [|apply NoDup_singleton].
    intros x Hx ->%list_elem_of_singleton. done.
  - intros id e' Hin. rewrite Hp in Hin. rewrite Hs.
    apply elem_of_app in Hin as [Hin|Hin%list_elem_of_singleton].
    + destruct (Hso _ _ Hin) as [k Hk]. pose proof (Hfr _ _ Hk).
      rewrite lookup_insert_ne by lia. by exists k.
    + injection Hin as -> ->. rewrite Hw, lookup_insert_eq. by eexists.
  - intros h k. rewrite Hs, Hn. intros Hl.
    destruct (decide (next_socket s = h)) as [<-|Hne]; [lia|].
    rewrite lookup_insert_ne in Hl by done. pose proof (Hfr _ _ Hl). lia.
Qed.

Lemma connect_step_closed t s h :
  wf s -> closed s h -> closed (connect_target ws_rejects s t) h.
Proof.
  intros [_ _ Hfr] (k & Hk & Hc).
  destruct (connect_step t s) as [[-> _]|(_ & _ & e & _ & _ & Hs & _)];
    [by exists k|].
  exists k. split; [|done]. rewrite Hs. pose proof (Hfr _ _ Hk).
  rewrite lookup_insert_ne by lia. done.
Qed.

(** The second loop over [targets], started in [s]. *)
Lemma connect_fold targets s :
  wf s ->
  let s' := foldl (connect_target ws_rejects) s targets in
  wf s' /\
  (forall id, id ∈ keys s' <->
     id ∈ keys s \/
     exists t, t ∈ targets /\ t_id t = id /\ connectable ws_rejects t = true) /\
  (forall h, closed s h -> closed s' h).
Proof.
  revert s. induction targets as [|t targets IH]; intros s Hwf; simpl.
  - split; [done|]. split; [|done]. intros id. split; [by left|].
    intros [?|(t & Hin & _)]; [done|]. by apply elem_of_nil in Hin.
  - pose proof (connect_step_wf t s Hwf) as Hwf1.
    destruct (IH _ Hwf1) as (Hwf' & Hk & Hc). clear IH.
    split; [done|]. split.
    + intros id. rewrite Hk. clear Hk.
      destruct (connect_step t s) as [[-> Hin]|(Hct & Hnot & e & Hp & _)].
      * split.
        -- intros [?|(t' & Hin' & ? & ?)]; [by left|]. right. exists t'.
           split; [by right|done].
        -- intros [?|(t' & [->|Hin']%elem_of_cons & Hid & Hct)]; [by left| |].
           ++ left. rewrite <- Hid. by apply Hin.
           ++ right. by exists t'.
      * unfold keys at 1. rewrite Hp, fmap_app. simpl.
        rewrite elem_of_app, list_elem_of_singleton. split.
        -- intros [[?| ->]|(t' & Hin' & ? & ?)]; [by left| |].
           ++ right. exists t. split; [by left|done].
           ++ right. exists t'. split; [by right|done].
        -- intros [?|(t' & [->|Hin']%elem_of_cons & Hid & Hct')].
           ++ by left; left.
           ++ by left; right.
           ++ right. by exists t'.
    + intros h Hh. apply Hc. by apply connect_step_closed.
Qed.

End HostFacts.

Lemma wf_init : wf init.
Proof.
  split; simpl.
  - apply NoDup_nil_2.
  - intros id e Hin. by apply elem_of_nil in Hin.
  - intros h k Hk. by rewrite lookup_empty in Hk.
Qed.

(** A page that is reported with its debugger URL in one cycle and without
    it in the next stays pooled, although the second report lists no
    eligible target. *)
Lemma stale_entry_stays_pooled :
  let never := fun _ : string => false in
  let page := Target "A" "page" "Editor" "vscode://a" (Some "ws://127.0.0.1:9222/A"%string) in
  let attached := Target "A" "page" "Editor" "vscode://a" None in
  let s := cdpDiscoverAndConnect never (Some [attached])
             (cdpDiscoverAndConnect never (Some [page]) init) in
  keys s = ["A"%string] /\ liveIds [attached] = ["A"%string] /\
  eligible_ids [attached] = [] /\
  ~ (forall id, id ∈ keys s <-> id ∈ eligible_ids [attached]).
Proof.
  vm_compute. split_and!; try done.
  intros H. destruct (H "A"%string) as [H1 _].
  assert ("A"%string ∈ @nil string) as Hin by (apply H1; by left).
  by apply elem_of_nil in Hin.
Qed.

(** C4, amended.  After a completed discovery cycle over the reported list
    [targets]: the pool has one entry per id; an id is pooled exactly when
    it was pooled before and is still reported, or some reported target with
    that id has a debugger URL, is not of type worker or service_worker, and
    its socket could be constructed; every entry whose id is no longer
    reported has had its socket closed and is gone.  When moreover every id
    that was pooled and is still reported belongs to an eligible reported
    target, and no socket construction throws, the pooled ids are exactly
    the ids of the eligible reported targets. *)
Theorem discovery_cycle (ws_rejects : string -> bool) (targets : list target)
    (s : state) :
  wf s -> enabled s = true -> enableCDP s = true ->
  let s' := cdpDiscoverAndConnect ws_rejects (Some targets) s in
  wf s' /\
  (forall id, id ∈ keys s' <->
     (id ∈ keys s /\ id ∈ liveIds targets) \/
     exists t, t ∈ targets /\ t_id t = id /\ connectable ws_rejects t = true) /\
  (forall id e, (id, e) ∈ cdpTargetPool s -> id ∉ liveIds targets ->
                (id ∉ keys s') /\ closed s' (ws e)) /\
  ((forall id, id ∈ keys s -> id ∈ liveIds targets -> id ∈ eligible_ids targets) ->
   (forall t, t ∈ targets -> eligible t = true ->
              ws_rejects (default EmptyString (webSocketDebuggerUrl t)) = false) ->
   forall id, id ∈ keys s' <-> id ∈ eligible_ids targets).
Proof.
  intros Hwf Hen Hcdp. unfold cdpDiscoverAndConnect. rewrite Hen, Hcdp. simpl.
  unfold discover.
  set (live := liveIds targets).
  set (s1 := foldl (cleanup_entry live) s (cdpTargetPool s)).
  pose proof (wf_cleanup live s Hwf) as Hwf1. fold s1 in Hwf1.
  destruct (cleanup_fold live (cdpTargetPool s) s) as (Hm & _ & _ & Hs & _ & Hcl).
  fold s1 in Hm, Hs, Hcl.
  destruct (connect_fold ws_rejects targets s1 Hwf1) as (Hwf' & Hk & Hc).
  assert (forall id, id ∈ keys s1 <-> id ∈ keys s /\ id ∈ live) as Hk1.
  { intros id. unfold keys. rewrite !list_elem_of_fmap. split.
    - intros ([k e] & -> & [Hin Hor]%Hm). simpl in *.
      assert (k ∈ (cdpTargetPool s).*1) as Hin'
        by (apply list_elem_of_fmap; by exists (k, e)).
      split; [by exists (k, e)|]. by destruct Hor.
    - intros [([k e] & -> & Hin) Hl]. exists (k, e). split; [done|].
      apply Hm. split; [done|]. by left. }
  assert (forall id, id ∈ keys (foldl (connect_target ws_rejects) s1 targets) <->
     (id ∈ keys s /\ id ∈ live) \/
     exists t, t ∈ targets /\ t_id t = id /\ connectable ws_rejects t = true)
    as Hkeys.
  { intros id. by rewrite Hk, Hk1. }
  split; [done|]. split; [done|]. split.
  - intros id e Hin Hdead. split.
    + rewrite Hkeys. intros [[_ ?]|(t & Hin' & <- & _)]; [done|].
      apply Hdead. unfold live, liveIds. apply list_elem_of_fmap. by exists t.
    + apply Hc. apply (Hcl id); [done..|]. by apply (wf_sockets s Hwf id).
  - intros Hold Hok id. rewrite Hkeys, eligible_ids_spec. split.
    + intros [[Hin Hl]|(t & Hin & Hid & Hct)].
      * by apply eligible_ids_spec, Hold.
      * exists t. split; [done|]. split; [done|].
        unfold connectable in Hct. by apply andb_true_iff in Hct as [? _].
    + intros (t & Hin & Hid & He). right. exists t. split; [done|].
      split; [done|]. unfold connectable. rewrite He. simpl.
      by rewrite (Hok t Hin He).
Qed.

(** A pool holding one page that has vanished; the report lists a page, a
    worker, a page without debugger URL, and the first page a second time. *)
Lemma discovery_cycle_witness :
  let never := fun _ : string => false in
  let s := State [("old"%string, Entry 0 "Old" "page" 1)]
                 {[0%nat := Socket "ws://127.0.0.1:9222/old" false]} 1 true true in
  let p1 := Target "P1" "page" "Agent" "" (Some "ws://127.0.0.1:9222/P1"%string) in
  let w := Target "W" "worker" "" "" (Some "ws://127.0.0.1:9222/W"%string) in
  let p2 := Target "P2" "page" "Panel" "" None in
  let s' := cdpDiscoverAndConnect never (Some [p1; w; p2; p1]) s in
  keys s' = ["P1"%string] /\ closed s' 0 /\
  (forall id, id ∈ keys s' <-> id ∈ eligible_ids [p1; w; p2; p1]).
Proof.
  intros never s p1 w p2 s'.
  assert (wf s) as Hwf.
  { split; simpl.
    - apply NoDup_singleton.
    - intros id e [= -> ->]%list_elem_of_singleton. simpl.
      rewrite lookup_singleton_eq. by eexists.
    - intros h k [<- _]%lookup_singleton_Some. lia. }
  destruct (discovery_cycle never [p1; w; p2; p1] s Hwf eq_refl eq_refl)
    as (_ & _ & Hgone & Hexact).
  split; [by vm_compute|]. split.
  - apply (Hgone "old"%string (Entry 0 "Old" "page" 1)).
    + by apply list_elem_of_singleton.
    + vm_compute. intros Hin. repeat (apply elem_of_cons in Hin as [Hin|Hin]; [done|]).
      by apply elem_of_nil in Hin.
  - apply Hexact.
    + intros id ->%list_elem_of_singleton Hl. exfalso. vm_compute in Hl.
      repeat (apply elem_of_cons in Hl as [Hl|Hl]; [done|]).
      by apply elem_of_nil in Hl.
    + done.
Defined.

End Pool.

(** ** The acceptance script evaluated in a target's document *)

Module Script.

Import Stdlib.Strings.Ascii.

(** A JS string is a sequence of UTF-16 code units; [units] gives those
    of a text written in ASCII. *)
Definition units (s : string) : list N :=
  N_of_ascii <$> String.list_ascii_of_string s.

(** What the script reads and writes of a [button] element.
    [yoloClicked] is [dataset.yoloClicked]: absent, or the decimal string
    the script wrote there, held as the number [parseInt] reads back from
    it. *)
Record button := Button {
  textContent : list N;
  rendered : bool;             (* offsetParent !== null *)
  disabled : bool;
  yoloClicked : option Z;
  clicks : nat                 (* calls of click() so far *)
}.

(** The code units [trim] removes: the white space and the line
    terminators of ECMAScript (tab to carriage return, the space, the
    no-break space, the space separators of Unicode, the line and paragraph
    separators and the byte order mark). *)
Definition is_space (c : N) : bool :=
  ((9 <=? c) && (c <=? 13) || (c =? 32) || (c =? 160) || (c =? 5760) ||
   (8192 <=? c) && (c <=? 8202) || (c =? 8232) || (c =? 8233) ||
   (c =? 8239) || (c =? 8287) || (c =? 12288) || (c =? 65279))%N.

Fixpoint trimStart (s : list N) : list N :=
  match s with
  | c :: s' => if is_space c then trimStart s' else s
  | [] => []
  end.

(** [String.prototype.trim] *)
Definition trim (s : list N) : list N :=
  reverse (trimStart (reverse (trimStart s))).

(** The letters A to Z become a to z.  The other code units
    [toLowerCase] changes, and the ones the [i] flag of a regular
    expression folds, lie outside ASCII before and after (the Kelvin sign
    apart, which [toLowerCase] turns into k, a letter that no label below
    holds), so the comparisons with the ASCII labels and prefixes below
    come out as in the source. *)
Definition lower (c : N) : N :=
  if ((65 <=? c) && (c <=? 90))%N then (c + 32)%N else c.

(** [String.prototype.toLowerCase] *)
Definition toLowerCase (s : list N) : list N := lower <$> s.

(** [t] starts with [p]. *)
Fixpoint starts_with (p t : list N) : bool :=
  match p, t with
  | [], _ => true
  | a :: p', c :: t' => (a =? c)%N && starts_with p' t'
  | _ :: _, [] => false
  end.

(** v3.1.0: [/^(Run|Accept|Accept All|Allow|Allow Once|Allow This
    Conversation|Yes)/i.test(text)] *)
Definition ACCEPT_PREFIXES : list string :=
  ["Run"; "Accept"; "Accept All"; "Allow"; "Allow Once";
   "Allow This Conversation"; "Yes"]%string.

Definition matches_v31 (text : list N) : bool :=
  existsb (fun p => starts_with (toLowerCase (units p)) (toLowerCase text))
          ACCEPT_PREFIXES.

(** v3.0.x: the strict list of lower-cased labels. *)
Definition ACCEPT_LABELS : list string :=
  ["run"; "accept"; "approve"; "continue"; "run command"; "accept all";
   "yes"; "allow"]%string.

Definition matches_v30 (text : list N) : bool :=
  existsb (fun l => bool_decide (text = units l)) ACCEPT_LABELS.

Definition stamp_and_click (now : Z) (b : button) : button :=
  Button (textContent b) (rendered b) (disabled b) (Some now) (S (clicks b)).

(** [btn.click()] *)
Definition click (b : button) : button :=
  Button (textContent b) (rendered b) (disabled b) (yoloClicked b) (S (clicks b)).

(** [btn.dataset.yoloClicked && Date.now() - parseInt(...) < 5000] *)
Definition cooling (now : Z) (b : button) : bool :=
  match yoloClicked b with
  | Some t => now - t <? 5000
  | None => false
  end.

(** One round of the loop of CDP_ACCEPT_SCRIPT (v3.1.0): whether the button
    was activated, and the button afterwards.  [now] is [Date.now()]. *)
Definition visit_v31 (now : Z) (b : button) : bool * button :=
  if negb (matches_v31 (trim (textContent b))) then (false, b)
  else if negb (rendered b) then (false, b)
  else if disabled b then (false, b)
  else if cooling now b then (false, b)
  else (true, stamp_and_click now b).

(** One round of the loop of the inline script of v3.0.x
    ([tryAcceptViaCDP] in src/extension.js). *)
Definition visit_v30 (b : button) : bool * button :=
  if negb (matches_v30 (toLowerCase (trim (textContent b)))) then (false, b)
  else if negb (rendered b) then (false, b)
  else (true, click b).

(** A script run over the buttons of the document: the count it returns and
    the buttons afterwards. *)
Fixpoint run_script (visit : button -> bool * button) (dom : list button)
  : nat * list button :=
  match dom with
  | [] => (0%nat, [])
  | b :: dom' =>
      let '(hit, b') := visit b in
      let '(n, dom'') := run_script visit dom' in
      ((if hit then S n else n), b' :: dom'')
  end.

Definition CDP_ACCEPT_SCRIPT (now : Z) : list button -> nat * list button :=
  run_script (visit_v31 now).

Definition inline_script_v30 : list button -> nat * list button :=
  run_script visit_v30.

(** The button is one the v3.1.0 script activates when it is not cooling. *)
Definition actionable (b : button) : bool :=
  matches_v31 (trim (textContent b)) && rendered b && negb (disabled b).

(** The label of the README note: Run, then Alt+ and the glyphs of the
    option and the return key, between no-break spaces. *)
Example label_with_shortcut :
  matches_v31 (trim ([160] ++ units "RunAlt+" ++ [8997; 8629; 160; 10])%N)
  = true.
Proof. reflexivity. Qed.

Example label_other : matches_v31 (trim (units "Cancel")) = false.
Proof. reflexivity. Qed.

Example label_strict :
  matches_v30 (toLowerCase (trim (units " Accept All "))) = true /\
  matches_v30 (toLowerCase (trim (units "Accept Alt+Enter"))) = false.
Proof. done. Qed.

Lemma run_script_lookup visit dom i b :
  dom !! i = Some b -> (run_script visit dom).2 !! i = Some (visit b).2.
Proof.
  revert i. induction dom as [|b0 dom IH]; intros i Hl; [done|].
  simpl. destruct (visit b0) as [hit b0'] eqn:Hv.
  destruct (run_script visit dom) as [n dom''] eqn:Hr. simpl.
  destruct i as [|i]; simpl in *.
  - injection Hl as <-. by rewrite Hv.
  - by apply IH.
Qed.




End Script.

(** ** The launch-configuration file: comment stripping *)

Module Strip.

Import Stdlib.Strings.Ascii.

Local Open Scope N_scope.

(** A JS string is a sequence of UTF-16 code units. *)
Abbreviation char := N (only parsing).
Abbreviation text := (list N) (only parsing).

Definition QUOTE : char := 34.
Definition BACKSLASH : char := 92.
Definition SLASH : char := 47.
Definition LF : char := 10.
Definition COMMA : char := 44.
Definition RBRACE : char := 125.
Definition RBRACKET : char := 93.

(** Test inputs are written as Rocq strings in which an apostrophe stands
    for the double quote and a vertical bar for the line feed. *)
Definition txt (s : string) : text :=
  (fun a => let n := N_of_ascii a in
            if (n =? 39)%N then QUOTE else if (n =? 124)%N then LF else n)
    <$> String.list_ascii_of_string s.

(** The [while (i < text.length && text[i] !== '\n') i++] of the comment
    branch followed by the [i++] of the [for]: the rest of the line and its
    line feed are passed over. *)
Fixpoint skip_line (t : text) : text :=
  match t with
  | [] => []
  | c :: t' => if (c =? LF)%N then t' else skip_line t'
  end.

(** The loop of [stripJsonComments], from index [i] on: [t] is
    [text.slice(i)], [inString] and [escape] are the two flags, and the
    value is what the loop still appends to [result].  The inner [fix] is
    [skip_line] followed by the rest of the loop. *)
Fixpoint scan (inString escape : bool) (t : text) {struct t} : text :=
  match t with
  | [] => []
  | ch :: rest =>
      if escape then ch :: scan inString false rest
      else if (ch =? BACKSLASH)%N && inString then ch :: scan inString true rest
      else if (ch =? QUOTE)%N then ch :: scan (negb inString) false rest
      else if negb inString && (ch =? SLASH)%N &&
              match rest with c :: _ => (c =? SLASH)%N | [] => false end
      then LF :: (fix skip (l : text) : text :=
                    match l with
                    | [] => []
                    | c :: l' => if (c =? LF)%N then scan false false l'
                                 else skip l'
                    end) rest
      else ch :: scan inString false rest
  end.

(** [function stripJsonComments(text)] of v3.0.x (src/extension.js). *)
Definition stripJsonComments_v30 (t : text) : text := scan false false t.

(** The characters [\s] matches. *)
Definition is_space (c : char) : bool :=
  ((9 <=? c) && (c <=? 13) || (c =? 32) || (c =? 160) || (c =? 5760) ||
   (8192 <=? c) && (c <=? 8202) || (c =? 8232) || (c =? 8233) ||
   (c =? 8239) || (c =? 8287) || (c =? 12288) || (c =? 65279))%N.

Definition is_closer (c : char) : bool := ((c =? RBRACE) || (c =? RBRACKET))%N.

(** Whether [\s*[}\]]] matches at the start of [t]. *)
Fixpoint closes (t : text) : bool :=
  match t with
  | [] => false
  | c :: t' => if is_space c then closes t' else is_closer c
  end.

(** [result.replace(/,(\s*[}\]])/g, '$1')]: every comma at which the
    pattern matches is dropped; the matched white space and bracket, which
    hold no comma, are copied. *)
Fixpoint stripTrailingCommas (t : text) : text :=
  match t with
  | [] => []
  | c :: t' =>
      if (c =? COMMA)%N && closes t' then stripTrailingCommas t'
      else c :: stripTrailingCommas t'
  end.

(** [function stripJsonComments(text)] of v3.1.0 (part_002). *)
Definition stripJsonComments_v31 (t : text) : text :=
  stripTrailingCommas (scan false false t).

(** *** The reading of a text the claim speaks of

    Outside string literals and comments a character stands for itself; a
    string literal runs from a double quote to the next double quote that no
    backslash escapes, or to the end of the text; a comment runs from two
    slashes to the next line feed, or to the end of the text. *)
Inductive segment :=
| SChar (c : char)
| SString (body : text) (closed : bool)
| SComment (body : text) (terminated : bool).

(** The body of a string literal: characters other than the quote and the
    backslash, and backslash pairs.  [escaped] tells that the previous
    character was an unpaired backslash.  Only a body that is cut off by the
    end of the text may end in a lone backslash. *)
Fixpoint body_from (escaped closed : bool) (b : text) : Prop :=
  match b with
  | [] => escaped = true -> closed = false
  | c :: b' =>
      if escaped then body_from false closed b'
      else if (c =? BACKSLASH)%N then body_from true closed b'
      else c <> QUOTE /\ body_from false closed b'
  end.

Definition string_body : bool -> text -> Prop := body_from false.

Definition render (s : segment) : text :=
  match s with
  | SChar c => [c]
  | SString body closed => QUOTE :: body ++ (if closed then [QUOTE] else [])
  | SComment body terminated =>
      SLASH :: SLASH :: body ++ (if terminated then [LF] else [])
  end.

(** What the claim says is left of a segment. *)
Definition stripped (s : segment) : text :=
  match s with
  | SChar c => [c]
  | SString body closed => QUOTE :: body ++ (if closed then [QUOTE] else [])
  | SComment _ _ => [LF]
  end.

Definition starts_with_slash (segs : list segment) : bool :=
  match segs with
  | SChar c :: _ => (c =? SLASH)%N
  | SComment _ _ :: _ => true
  | _ => false
  end.

(** The segments read a text the way the claim does: a plain character is
    no quote and no slash that opens a comment; a string body is one; a
    comment body holds no line feed; only the last segment may be cut off by
    the end of the text. *)
Fixpoint reading (segs : list segment) : Prop :=
  match segs with
  | [] => True
  | s :: segs' =>
      match s with
      | SChar c =>
          c <> QUOTE /\ ((c =? SLASH)%N && starts_with_slash segs' = false)
      | SString body closed =>
          string_body closed body /\ (closed = false -> segs' = [])
      | SComment body terminated =>
          (LF ∉ body) /\ (terminated = false -> segs' = [])
      end /\ reading segs'
  end.

Fixpoint render_all (segs : list segment) : text :=
  match segs with
  | [] => []
  | s :: segs' => render s ++ render_all segs'
  end.

Fixpoint stripped_all (segs : list segment) : text :=
  match segs with
  | [] => []
  | s :: segs' => stripped s ++ stripped_all segs'
  end.

(** No comma of the string body is followed, inside the body, by white
    space and a closing brace or bracket. *)
Definition clean_body (body : text) : Prop :=
  forall pre post, body = pre ++ COMMA :: post -> closes post = false.

(** The same, as a test. *)
Fixpoint clean_bodyb (body : text) : bool :=
  match body with
  | [] => true
  | c :: body' => negb ((c =? COMMA)%N && closes body') && clean_bodyb body'
  end.

Definition clean_strings (segs : list segment) : Prop :=
  Forall (fun s => match s with
                   | SString body _ => clean_body body
                   | _ => True
                   end) segs.

(** Whether only white space and comments stand between here and a
    closing brace or bracket. *)
Fixpoint closes_segs (segs : list segment) : bool :=
  match segs with
  | [] => false
  | SChar c :: segs' => if is_space c then closes_segs segs' else is_closer c
  | SString _ _ :: _ => false
  | SComment _ _ :: segs' => closes_segs segs'
  end.

(** What v3.1.0 is to leave of the segments: what v3.0.x leaves, without
    the commas that only white space and comments separate from a closing
    brace or bracket. *)
Fixpoint stripped31_all (segs : list segment) : text :=
  match segs with
  | [] => []
  | s :: segs' =>
      match s with
      | SChar c => if (c =? COMMA)%N && closes_segs segs' then [] else [c]
      | _ => stripped s
      end ++ stripped31_all segs'
  end.


Example strip_v30_sample :
  stripJsonComments_v30 (txt "{ // port|  'url': 'http://x', // y|  'p': '\\\'//' }")
  = txt "{ |  'url': 'http://x', |  'p': '\\\'//' }".
Proof. reflexivity. Qed.

Example strip_v30_eof : stripJsonComments_v30 (txt "{} // done") = txt "{} |".
Proof. reflexivity. Qed.

Example strip_v31_sample :
  stripJsonComments_v31 (txt "{ 'a': [1, 2, ], // c|  'b': 2, |}")
  = txt "{ 'a': [1, 2 ], |  'b': 2 |}".
Proof. reflexivity. Qed.


(** The comment branch of [scan], named. *)
Lemma scan_comment (l : text) :
  (fix skip (l : text) : text :=
     match l with
     | [] => []
     | c :: l' => if (c =? LF)%N then scan false false l' else skip l'
     end) l = scan false false (skip_line l).
Proof. induction l as [|c l IH]; [done|]. simpl. by destruct (c =? LF). Qed.

Lemma scan_plain c rest :
  c <> QUOTE ->
  ((c =? SLASH) && match rest with c' :: _ => (c' =? SLASH) | [] => false end
   = false) ->
  scan false false (c :: rest) = c :: scan false false rest.
Proof.
  intros Hq Hs. cbn [scan]. rewrite andb_false_r.
  destruct (c =? QUOTE) eqn:E; [by apply N.eqb_eq in E|].
  cbn [negb andb].
  destruct (c =? SLASH); [|done].
  destruct rest as [|c' r]; [done|]. cbn [andb] in *. by rewrite Hs.
Qed.

Lemma scan_open_comment rest :
  scan false false (SLASH :: SLASH :: rest) =
  LF :: scan false false (skip_line (SLASH :: rest)).
Proof. cbn [scan]. rewrite scan_comment. done. Qed.

Lemma skip_line_body body rest :
  LF ∉ body -> skip_line (body ++ LF :: rest) = rest.
Proof.
  induction body as [|c body IH]; intros Hn; simpl.
  - done.
  - destruct (c =? LF) eqn:E.
    + apply N.eqb_eq in E. subst. exfalso. apply Hn. by left.
    + apply IH. intros Hin. apply Hn. by right.
Qed.

Lemma skip_line_cut body : LF ∉ body -> skip_line body = [].
Proof.
  induction body as [|c body IH]; intros Hn; simpl; [done|].
  destruct (c =? LF) eqn:E.
  - apply N.eqb_eq in E. subst. exfalso. apply Hn. by left.
  - apply IH. intros Hin. apply Hn. by right.
Qed.

(** Inside a string literal the scanner copies the body and, when the
    literal is closed, the closing quote, and goes on outside. *)
Lemma scan_body escaped closed body rest :
  body_from escaped closed body ->
  scan true escaped (body ++ (if closed then QUOTE :: rest else [])) =
  body ++ (if closed then QUOTE :: scan false false rest else []).
Proof.
  revert escaped. induction body as [|c body IH]; intros escaped Hb.
  - simpl in Hb. destruct closed; [|done].
    destruct escaped; [by specialize (Hb eq_refl)|]. done.
  - simpl in Hb. cbn [app scan]. destruct escaped.
    + f_equal. by apply IH.
    + rewrite andb_true_r. destruct (c =? BACKSLASH) eqn:E.
      * f_equal. by apply IH.
      * destruct Hb as [Hq Hb].
        destruct (c =? QUOTE) eqn:E'; [by apply N.eqb_eq in E'|].
        cbn [negb andb]. f_equal. by apply IH.
Qed.

Lemma head_not_slash segs :
  reading segs -> starts_with_slash segs = false ->
  match render_all segs with c' :: _ => (c' =? SLASH) | [] => false end = false.
Proof.
  destruct segs as [|[c|body closed|body term] segs]; simpl; try done.
Qed.

(** The scanner against the reading. *)
Lemma scan_reading segs :
  reading segs -> scan false false (render_all segs) = stripped_all segs.
Proof.
  induction segs as [|s segs IH]; intros Hr; [done|].
  destruct Hr as [Hs Hr]. specialize (IH Hr).
  destruct s as [c|body closed|body term]; cbn [render_all stripped_all render stripped].
  - destruct Hs as [Hq Hsl]. cbn [app]. rewrite scan_plain; [by rewrite IH|done|].
    destruct (c =? SLASH); [|done]. simpl in Hsl. simpl.
    by apply head_not_slash.
  - destruct Hs as [Hb Hlast]. cbn [app scan].
    assert ((QUOTE =? BACKSLASH) && false = false) as -> by done.
    assert ((QUOTE =? QUOTE) = true) as -> by done. cbn [negb].
    rewrite <- !app_assoc. f_equal.
    destruct closed.
    + cbn [app]. rewrite (scan_body false true body (render_all segs) Hb).
      by rewrite IH.
    + rewrite (Hlast eq_refl). cbn [app render_all stripped_all].
      rewrite !app_nil_r.
      pose proof (scan_body false false body [] Hb) as H. cbn in H.
      by rewrite !app_nil_r in H.
  - destruct Hs as [Hn Hlast]. cbn [app]. rewrite scan_open_comment.
    f_equal. cbn [skip_line]. assert ((SLASH =? LF) = false) as -> by done.
    destruct term.
    + rewrite <- app_assoc. cbn [app]. rewrite skip_line_body by done. done.
    + rewrite (Hlast eq_refl). cbn [render_all stripped_all].
      rewrite !app_nil_r. by rewrite skip_line_cut.
Qed.


Lemma split_string (t : text) escaped :
  exists (body : text) (closed : bool) (rest : text),
    body_from escaped closed body /\
    t = body ++ (if closed then QUOTE :: rest else []) /\
    (closed = false -> rest = []) /\ (length rest <= length t)%nat.
Proof.
  revert escaped. induction t as [|c t IH]; intros escaped.
  - exists [], false, []. by repeat split.
  - destruct escaped.
    + destruct (IH false) as (body & closed & rest & Hb & -> & Hc & Hl).
      exists (c :: body), closed, rest. repeat split; try done. simpl. lia.
    + destruct (c =? BACKSLASH) eqn:E.
      * destruct (IH true) as (body & closed & rest & Hb & -> & Hc & Hl).
        exists (c :: body), closed, rest. repeat split; try done.
        -- simpl. by rewrite E.
        -- simpl. lia.
      * destruct (c =? QUOTE) eqn:E'.
        -- apply N.eqb_eq in E'. subst c. exists [], true, t.
           repeat split; try done. simpl. lia.
        -- destruct (IH false) as (body & closed & rest & Hb & -> & Hc & Hl).
           exists (c :: body), closed, rest. repeat split; try done.
           ++ simpl. rewrite E. split; [|done]. intros ->. done.
           ++ simpl. lia.
Qed.

Lemma split_comment (t : text) :
  exists (body : text) (term : bool) (rest : text),
    (LF ∉ body) /\ t = body ++ (if term then LF :: rest else []) /\
    (term = false -> rest = []) /\ (length rest <= length t)%nat.
Proof.
  induction t as [|c t IH].
  - exists [], false, []. repeat split; try done. apply not_elem_of_nil.
  - destruct (c =? LF) eqn:E.
    + apply N.eqb_eq in E. subst c. exists [], true, t.
      repeat split; try done; [apply not_elem_of_nil|simpl; lia].
    + destruct IH as (body & term & rest & Hb & -> & Hc & Hl).
      exists (c :: body), term, rest. repeat split; try done.
      * intros [Heq|Hin]%elem_of_cons; [|by apply Hb].
        subst c. done.
      * simpl. lia.
Qed.

Lemma starts_with_slash_render segs :
  starts_with_slash segs = true -> exists r, render_all segs = SLASH :: r.
Proof.
  destruct segs as [|[c|body closed|body term] segs]; simpl; try done.
  - intros ->%N.eqb_eq. by eexists.
  - intros _. by eexists.
Qed.

(** Every text has a reading. *)
Lemma reading_exists t : exists segs, reading segs /\ render_all segs = t.
Proof.
  remember (length t) as n eqn:Hn. revert t Hn.
  induction n as [n IH] using lt_wf_ind. intros t Hn.
  destruct t as [|c t]; [by exists []|]. simpl in Hn.
  destruct (c =? QUOTE) eqn:Eq.
  { apply N.eqb_eq in Eq. subst c.
    destruct (split_string t false) as (body & closed & rest & Hb & -> & Hc & Hl).
    destruct (IH (length rest) ltac:(lia) rest eq_refl) as (segs & Hr & Hren).
    destruct closed.
    - exists (SString body true :: segs). split; [done|].
      simpl. rewrite Hren. by rewrite <- app_assoc.
    - exists [SString body false]. split; [done|]. simpl. by rewrite !app_nil_r. }
  destruct ((c =? SLASH) && match t with c' :: _ => (c' =? SLASH) | [] => false end)
    eqn:Es.
  { apply andb_true_iff in Es as [->%N.eqb_eq Es].
    destruct t as [|c' t]; [done|]. apply N.eqb_eq in Es. subst c'.
    destruct (split_comment t) as (body & term & rest & Hb & -> & Hc & Hl).
    destruct (IH (length rest) ltac:(simpl in *; lia) rest eq_refl)
      as (segs & Hr & Hren).
    destruct term.
    - exists (SComment body true :: segs). split; [done|].
      simpl. rewrite Hren. by rewrite <- app_assoc.
    - exists [SComment body false]. split; [done|]. simpl. by rewrite !app_nil_r. }
  destruct (IH (length t) ltac:(lia) t eq_refl) as (segs & Hr & Hren).
  exists (SChar c :: segs). split; [|by simpl; rewrite Hren].
  split; [|done]. split; [intros ->; done|].
  destruct (c =? SLASH) eqn:E; [|done]. simpl in *.
  destruct (starts_with_slash segs) eqn:Ess; [|done].
  destruct (starts_with_slash_render segs Ess) as [r Hr']. rewrite Hr' in Hren.
  subst t. done.
Qed.

(** The v3.1.0 replacement only ever drops commas. *)
Lemma stripTrailingCommas_sublist t : stripTrailingCommas t `sublist_of` t.
Proof.
  induction t as [|c t IH]; simpl; [done|].
  destruct (_ && _); [by apply sublist_cons|by apply sublist_skip].
Qed.

Lemma stripTrailingCommas_keeps t :
  filter (fun c => c <> COMMA) (stripTrailingCommas t) =
  filter (fun c => c <> COMMA) t.
Proof.
  induction t as [|c t IH]; [done|]. cbn [stripTrailingCommas].
  destruct (c =? COMMA) eqn:E; cbn [andb].
  - apply N.eqb_eq in E. subst c.
    destruct (closes t); rewrite !filter_cons;
      (destruct (decide (COMMA <> COMMA)); [done|]); done.
  - by rewrite !filter_cons, IH.
Qed.

Lemma stripTrailingCommas_id t :
  (forall pre post, t = pre ++ COMMA :: post -> closes post = false) ->
  stripTrailingCommas t = t.
Proof.
  induction t as [|c t IH]; intros Hno; simpl; [done|].
  assert (stripTrailingCommas t = t) as ->.
  { apply IH. intros pre post ->. by apply (Hno (c :: pre) post). }
  destruct (c =? COMMA) eqn:E; [|done].
  apply N.eqb_eq in E. subst c. by rewrite (Hno [] t eq_refl).
Qed.


(** A file without comment and with a trailing comma: v3.1.0 drops the
    comma, a character that lies outside every string literal and every
    comment. *)
Lemma v31_drops_trailing_comma :
  let t := txt "{'a': 1,}" in
  let segs := [SChar 123; SString (txt "a") true; SChar 58; SChar 32;
               SChar 49; SChar 44; SChar 125] in
  reading segs /\ render_all segs = t /\
  stripJsonComments_v31 t = txt "{'a': 1}" /\
  stripJsonComments_v31 t <> stripped_all segs.
Proof.
  cbv zeta. split; [|split; [reflexivity|split; [reflexivity|]]].
  - cbn. repeat split; try done; intros H; discriminate.
  - vm_compute. discriminate.
Qed.

(** The replacement of v3.1.0 does not tell string literals apart: a comma
    inside a literal goes too when white space and a closing bracket follow
    it there. *)
Example v31_alters_string :
  stripJsonComments_v31 (txt "{'a': 'x, }'}") = txt "{'a': 'x }'}".
Proof. reflexivity. Qed.

Lemma closes_stripped segs : closes (stripped_all segs) = closes_segs segs.
Proof.
  induction segs as [|[c|body closed|body term] segs IH]; [done|..].
  - cbn [stripped_all stripped app closes closes_segs]. by rewrite IH.
  - done.
  - cbn [stripped_all stripped app closes closes_segs]. by rewrite IH.
Qed.

Lemma closes_before_quote b tail :
  closes b = false -> match tail with [] => True | c :: _ => c = QUOTE end ->
  closes (b ++ tail) = false.
Proof.
  intros Hb Ht. induction b as [|c b IH].
  - destruct tail as [|c tail]; [done|]. by subst c.
  - cbn [app closes] in *. destruct (is_space c); [by apply IH|done].
Qed.

Lemma clean_bodyb_spec body : clean_bodyb body = true -> clean_body body.
Proof.
  induction body as [|c body IH]; intros Hb pre post E.
  - by destruct pre.
  - cbn [clean_bodyb] in Hb. apply andb_true_iff in Hb as [Hc Hb].
    destruct pre as [|c' pre]; injection E as -> E.
    + subst body. apply negb_true_iff in Hc. by rewrite N.eqb_refl in Hc.
    + by apply (IH Hb pre post).
Qed.

(** The replacement copies a string body that holds no comma of the
    kind it takes. *)
Lemma stripTrailingCommas_body body tail :
  clean_body body -> match tail with [] => True | c :: _ => c = QUOTE end ->
  stripTrailingCommas (body ++ tail) = body ++ stripTrailingCommas tail.
Proof.
  intros Hc Ht. induction body as [|c body IH]; [done|].
  cbn [app stripTrailingCommas].
  assert (clean_body body) as Hc'.
  { intros pre post ->. by apply (Hc (c :: pre) post). }
  rewrite (IH Hc'). destruct (c =? COMMA) eqn:E; [|done].
  apply N.eqb_eq in E. subst c.
  by rewrite (closes_before_quote body tail (Hc [] body eq_refl) Ht).
Qed.

(** The replacement of v3.1.0 against the reading. *)
Lemma stripTrailingCommas_reading segs :
  reading segs -> clean_strings segs ->
  stripTrailingCommas (stripped_all segs) = stripped31_all segs.
Proof.
  induction segs as [|s segs IH]; intros Hr Hc; [done|].
  destruct Hr as [Hs Hr]. apply Forall_cons in Hc as [Hb Hc].
  specialize (IH Hr Hc).
  destruct s as [c|body closed|body term];
    cbn [stripped_all stripped31_all stripped app].
  - cbn [stripTrailingCommas]. rewrite closes_stripped, IH.
    by destruct ((c =? COMMA) && closes_segs segs).
  - destruct Hs as [_ Hlast]. cbn [stripTrailingCommas].
    assert ((QUOTE =? COMMA) = false) as -> by done. cbn [andb]. f_equal.
    rewrite <- !app_assoc. destruct closed.
    + rewrite stripTrailingCommas_body by done. f_equal.
      cbn [app stripTrailingCommas].
      assert ((QUOTE =? COMMA) = false) as -> by done. cbn [andb].
      by rewrite IH.
    + rewrite (Hlast eq_refl). cbn [app stripped_all stripped31_all].
      by rewrite stripTrailingCommas_body.
  - cbn [stripTrailingCommas].
    assert ((LF =? COMMA) = false) as -> by done. cbn [andb]. by rewrite IH.
Qed.

(** C10, amended.  Every text has a reading into plain characters, string
    literals and line comments.  The scanner that both generations share,
    which is all of stripJsonComments in v3.0.x, returns the text with
    every string literal unchanged (a pair of slashes inside it stays, an
    escaped quote does not end it), every comment together with its line
    feed replaced by one line feed, and every other character unchanged.
    v3.1.0 returns the same text without the commas that only white space
    and comments separate from a closing brace or bracket, string literals
    unchanged as well, provided no comma inside a string literal is
    followed there by white space and a closing brace or bracket.  On
    every text v3.1.0 drops commas and nothing else, and drops none when
    no comma of the scanned text is followed by white space and a closing
    brace or bracket. *)
Theorem stripJsonComments_reading :
  (forall t : text, exists segs, reading segs /\ render_all segs = t) /\
  (forall segs, reading segs ->
     stripJsonComments_v30 (render_all segs) = stripped_all segs) /\
  (forall segs, reading segs -> clean_strings segs ->
     stripJsonComments_v31 (render_all segs) = stripped31_all segs) /\
  (forall t : text,
     stripJsonComments_v31 t `sublist_of` stripJsonComments_v30 t /\
     filter (fun c => c <> COMMA) (stripJsonComments_v31 t) =
     filter (fun c => c <> COMMA) (stripJsonComments_v30 t)) /\
  (forall t : text,
     (forall pre post, stripJsonComments_v30 t = pre ++ COMMA :: post ->
                       closes post = false) ->
     stripJsonComments_v31 t = stripJsonComments_v30 t).
Proof.
  split; [exact reading_exists|]. split; [exact scan_reading|]. split; [|split].
  - intros segs Hr Hc. unfold stripJsonComments_v31.
    rewrite (scan_reading segs Hr). by apply stripTrailingCommas_reading.
  - intros t. split; [apply stripTrailingCommas_sublist|].
    apply stripTrailingCommas_keeps.
  - intros t. apply stripTrailingCommas_id.
Qed.

(** A text with a comment, a slash pair, a comma and an escaped quote
    inside a literal, and a comma that a comment separates from the
    closing brace, read and stripped by both versions. *)
Lemma stripJsonComments_reading_witness :
  let segs := [SChar 123; SComment (txt " port") true;
               SString (txt "u://x, \'") true; SChar 44;
               SComment (txt " last") true; SChar 125;
               SComment (txt "end") false] in
  reading segs /\ clean_strings segs /\
  render_all segs = txt "{// port|'u://x, \'',// last|}//end" /\
  stripJsonComments_v30 (render_all segs) = txt "{|'u://x, \'',|}|" /\
  stripJsonComments_v31 (render_all segs) = txt "{|'u://x, \''|}|".
Proof.
  intros segs.
  assert (reading segs) as Hr.
  { cbn. repeat split; try done; try (intros H; discriminate).
    all: intros Hin; repeat (apply elem_of_cons in Hin as [Hin|Hin];
           [discriminate|]); by apply elem_of_nil in Hin. }
  assert (clean_strings segs) as Hc.
  { repeat (apply Forall_cons; split); try apply Forall_nil; try done.
    by apply clean_bodyb_spec. }
  split; [done|]. split; [done|]. split; [reflexivity|].
  destruct stripJsonComments_reading as (_ & H30 & H31 & _).
  rewrite (H30 segs Hr), (H31 segs Hr Hc). split; reflexivity.
Defined.

End Strip.

(** ** [JSON.parse] and [JSON.stringify]

    The two host functions the launch-configuration code relies on, modelled
    from the JSON grammar of ECMA-404 as [JSON.parse] implements it: a lexer
    from code units to tokens and a parser from tokens to values. *)

Module Json.

Import Strip.

Local Open Scope N_scope.

Inductive token :=
| TLBrace | TRBrace | TLBracket | TRBracket | TColon | TComma
| TString (body : text)      (* the characters between the quotes, escapes as written *)
| TNumber (lexeme : text)
| TTrue | TFalse | TNull.

#[global] Instance token_eq_dec : EqDecision token.
Proof. solve_decision. Defined.

#[local] Set Warnings "-register-all".

(** A JSON value; a number is [(-1)^neg * m * 10^e]; an object lists its
    properties in creation order, one per key. *)
Inductive value :=
| VNull
| VBool (b : bool)
| VNumber (neg : bool) (m : N) (e : Z)
| VString (s : text)
| VArray (items : list value)
| VObject (props : list (text * value)).

(** The white space of JSON: tab, line feed, carriage return, space. *)
Definition json_ws (c : char) : bool :=
  (c =? 9) || (c =? 10) || (c =? 13) || (c =? 32).

Definition is_digit (c : char) : bool := (48 <=? c) && (c <=? 57).

Definition is_hex (c : char) : bool :=
  is_digit c || (65 <=? c) && (c <=? 70) || (97 <=? c) && (c <=? 102).

(** The character after a backslash in a two-character escape:
    quote, backslash, slash, b, f, n, r, t. *)
Definition simple_escape (c : char) : bool :=
  (c =? 34) || (c =? 92) || (c =? 47) || (c =? 98) || (c =? 102) ||
  (c =? 110) || (c =? 114) || (c =? 116).

(** The body of a string literal up to its closing quote, and what follows
    the quote. *)
Fixpoint lex_string (t : text) : option (text * text) :=
  match t with
  | [] => None
  | c :: r =>
      if c =? QUOTE then Some ([], r)
      else if c =? BACKSLASH then
        match r with
        | e :: r1 =>
            if simple_escape e then
              match lex_string r1 with
              | Some (b, r') => Some (c :: e :: b, r')
              | None => None
              end
            else if e =? 117 then
              match r1 with
              | h1 :: h2 :: h3 :: h4 :: r2 =>
                  if is_hex h1 && is_hex h2 && is_hex h3 && is_hex h4 then
                    match lex_string r2 with
                    | Some (b, r') => Some (c :: e :: h1 :: h2 :: h3 :: h4 :: b, r')
                    | None => None
                    end
                  else None
              | _ => None
              end
            else None
        | [] => None
        end
      else if c <? 32 then None
      else match lex_string r with
           | Some (b, r') => Some (c :: b, r')
           | None => None
           end
  end.

(** The longest prefix of digits, and the rest. *)
Fixpoint digits (t : text) : text * text :=
  match t with
  | c :: r => if is_digit c then let '(ds, r') := digits r in (c :: ds, r')
              else ([], t)
  | [] => ([], [])
  end.

(** The parts of a number literal at the start of a text, each with what
    follows it: an optional minus, an integer part without leading zero, an
    optional fraction, an optional exponent. *)
Definition lex_sign (t : text) : text * text :=
  match t with
  | c :: r => if c =? 45 then ([c], r) else ([], t)
  | [] => ([], t)
  end.

Definition lex_int (t : text) : option (text * text) :=
  match t with
  | d :: r =>
      if negb (is_digit d) then None
      else if d =? 48 then Some ([d], r)
      else let '(ds, r') := digits r in Some (d :: ds, r')
  | [] => None
  end.

Definition lex_frac (t : text) : option (text * text) :=
  match t with
  | c :: r =>
      if c =? 46 then
        let '(fs, r') := digits r in
        match fs with [] => None | _ => Some (c :: fs, r') end
      else Some ([], t)
  | [] => Some ([], t)
  end.

Definition lex_exp (t : text) : option (text * text) :=
  match t with
  | e :: r =>
      if (e =? 101) || (e =? 69) then
        let '(sg, r1) := match r with
                         | s :: r' => if (s =? 43) || (s =? 45) then ([s], r')
                                      else ([], r)
                         | [] => ([], r)
                         end in
        let '(es, r') := digits r1 in
        match es with [] => None | _ => Some (e :: sg ++ es, r') end
      else Some ([], t)
  | [] => Some ([], t)
  end.

(** A number literal at the start of [t]. *)
Definition lex_number (t : text) : option (text * text) :=
  let '(sign, t1) := lex_sign t in
  match lex_int t1 with
  | None => None
  | Some (int, t2) =>
      match lex_frac t2 with
      | None => None
      | Some (fr, t3) =>
          match lex_exp t3 with
          | None => None
          | Some (ex, t4) => Some (sign ++ int ++ fr ++ ex, t4)
          end
      end
  end.

(** The lexer; every round consumes at least one code unit, so [length t]
    rounds of fuel are enough. *)
Fixpoint lex (fuel : nat) (t : text) : option (list token) :=
  match t with
  | [] => Some []
  | c :: r =>
      match fuel with
      | O => None
      | S f =>
          if json_ws c then lex f r
          else if c =? 123 then cons TLBrace <$> lex f r
          else if c =? 125 then cons TRBrace <$> lex f r
          else if c =? 91 then cons TLBracket <$> lex f r
          else if c =? 93 then cons TRBracket <$> lex f r
          else if c =? 58 then cons TColon <$> lex f r
          else if c =? 44 then cons TComma <$> lex f r
          else if c =? QUOTE then
            match lex_string r with
            | Some (b, r') => cons (TString b) <$> lex f r'
            | None => None
            end
          else if (c =? 45) || is_digit c then
            match lex_number t with
            | Some (l, r') => cons (TNumber l) <$> lex f r'
            | None => None
            end
          else
            match t with
            | 116 :: 114 :: 117 :: 101 :: r' => cons TTrue <$> lex f r'
            | 102 :: 97 :: 108 :: 115 :: 101 :: r' => cons TFalse <$> lex f r'
            | 110 :: 117 :: 108 :: 108 :: r' => cons TNull <$> lex f r'
            | _ => None
            end
      end
  end.

Definition hex_value (c : char) : N :=
  if is_digit c then c - 48
  else if (97 <=? c) then c - 87 else c - 55.

(** The code units a string body stands for. *)
Fixpoint decode (b : text) : text :=
  match b with
  | [] => []
  | c :: r =>
      if c =? BACKSLASH then
        match r with
        | 117 :: h1 :: h2 :: h3 :: h4 :: r' =>
            (4096 * hex_value h1 + 256 * hex_value h2 + 16 * hex_value h3 +
             hex_value h4) :: decode r'
        | e :: r' =>
            (if e =? 98 then 8 else if e =? 102 then 12 else if e =? 110 then 10
             else if e =? 114 then 13 else if e =? 116 then 9 else e)
            :: decode r'
        | [] => [c]
        end
      else c :: decode r
  end.

(** The number a run of digits denotes. *)
Definition digits_value (ds : text) : N :=
  foldl (fun acc d => 10 * acc + (d - 48)) 0 ds.

(** The value of a number literal. *)
Definition number_value (l : text) : value :=
  let '(neg, l1) := match l with 45 :: r => (true, r) | _ => (false, l) end in
  let '(int, l2) := digits l1 in
  let '(fr, l3) := match l2 with 46 :: r => digits r | _ => ([], l2) end in
  let ex : Z := match l3 with
                | _ :: 45 :: r => (- Z.of_N (digits_value (digits r).1))%Z
                | _ :: 43 :: r => Z.of_N (digits_value (digits r).1)
                | _ :: r => Z.of_N (digits_value (digits r).1)
                | [] => 0%Z
                end in
  VNumber neg (digits_value (int ++ fr)) (ex - Z.of_nat (length fr))%Z.

(** A property is created, or its value replaced where the key exists. *)
Fixpoint obj_set (k : text) (v : value) (props : list (text * value))
  : list (text * value) :=
  match props with
  | [] => [(k, v)]
  | (k', v') :: props' =>
      if decide (k' = k) then (k, v) :: props'
      else (k', v') :: obj_set k v props'
  end.

Fixpoint obj_get (k : text) (props : list (text * value)) : option value :=
  match props with
  | [] => None
  | (k', v') :: props' => if decide (k' = k) then Some v' else obj_get k props'
  end.

(** The parser: a value at the start of [ts], and the tokens after it. *)
Fixpoint parse_value (fuel : nat) (ts : list token)
  : option (value * list token) :=
  match fuel with
  | O => None
  | S f =>
      match ts with
      | TNull :: r => Some (VNull, r)
      | TTrue :: r => Some (VBool true, r)
      | TFalse :: r => Some (VBool false, r)
      | TNumber l :: r => Some (number_value l, r)
      | TString b :: r => Some (VString (decode b), r)
      | TLBracket :: TRBracket :: r => Some (VArray [], r)
      | TLBracket :: r => parse_elements f r []
      | TLBrace :: TRBrace :: r => Some (VObject [], r)
      | TLBrace :: r => parse_members f r []
      | _ => None
      end
  end
with parse_elements (fuel : nat) (ts : list token) (acc : list value)
  : option (value * list token) :=
  match fuel with
  | O => None
  | S f =>
      match parse_value f ts with
      | Some (v, TComma :: r) => parse_elements f r (acc ++ [v])
      | Some (v, TRBracket :: r) => Some (VArray (acc ++ [v]), r)
      | _ => None
      end
  end
with parse_members (fuel : nat) (ts : list token) (acc : list (text * value))
  : option (value * list token) :=
  match fuel with
  | O => None
  | S f =>
      match ts with
      | TString k :: TColon :: r =>
          match parse_value f r with
          | Some (v, TComma :: r') => parse_members f r' (obj_set (decode k) v acc)
          | Some (v, TRBrace :: r') => Some (VObject (obj_set (decode k) v acc), r')
          | _ => None
          end
      | _ => None
      end
  end.

(** [JSON.parse(text)]; [None] stands for the SyntaxError it throws. *)
Definition JSON_parse (t : text) : option value :=
  match lex (length t) t with
  | Some ts =>
      match parse_value (S (length ts)) ts with
      | Some (v, []) => Some v
      | _ => None
      end
  | None => None
  end.

(** The result of the property read [data[key]] for a string key that is
    neither an index nor a built-in property. *)
Inductive read := Throws | Undefined | Found (v : value).

Definition get (data : value) (k : text) : read :=
  match data with
  | VNull => Throws
  | VObject props => match obj_get k props with
                     | Some v => Found v
                     | None => Undefined
                     end
  | _ => Undefined
  end.

(** A number that is zero as a double: the mantissa is zero, or the value
    does not exceed 2^-1075 and rounds to zero. *)
Definition is_zero (m : N) (e : Z) : bool :=
  (m =? 0) || ((e <? 0)%Z && (m * 2 ^ 1075 <=? 10 ^ Z.to_N (- e))).

Definition truthy (r : read) : bool :=
  match r with
  | Throws | Undefined => false
  | Found VNull => false
  | Found (VBool b) => b
  | Found (VNumber _ m e) => negb (is_zero m e)
  | Found (VString s) => match s with [] => false | _ => true end
  | Found _ => true
  end.

(** [String(n)] for a natural number below 10^21. *)
Fixpoint uint_text (u : Decimal.uint) : text :=
  match u with
  | Decimal.Nil => []
  | Decimal.D0 u' => 48 :: uint_text u'
  | Decimal.D1 u' => 49 :: uint_text u'
  | Decimal.D2 u' => 50 :: uint_text u'
  | Decimal.D3 u' => 51 :: uint_text u'
  | Decimal.D4 u' => 52 :: uint_text u'
  | Decimal.D5 u' => 53 :: uint_text u'
  | Decimal.D6 u' => 54 :: uint_text u'
  | Decimal.D7 u' => 55 :: uint_text u'
  | Decimal.D8 u' => 56 :: uint_text u'
  | Decimal.D9 u' => 57 :: uint_text u'
  end.

Definition decimal (n : N) : text := uint_text (N.to_uint n).


Example parse_sample :
  JSON_parse (txt "{ 'a': [1, true, null], 'b\u0041': -2.50e1, 'a': {} }")
  = Some (VObject [(txt "a", VObject []);
                   (txt "bA", VNumber true 250 (-1)%Z)]).
Proof. vm_compute. reflexivity. Qed.

Example parse_rejects_trailing_comma : JSON_parse (txt "{'a': 1,}") = None.
Proof. vm_compute. reflexivity. Qed.

Example parse_rejects_comment : JSON_parse (txt "{} // c") = None.
Proof. vm_compute. reflexivity. Qed.

Example parse_rejects_adjacent : JSON_parse (txt "[1 2]") = None.
Proof. vm_compute. reflexivity. Qed.

Example parse_rejects_leading_zero : JSON_parse (txt "01") = None.
Proof. vm_compute. reflexivity. Qed.

Example parse_rejects_empty : JSON_parse [] = None.
Proof. vm_compute. reflexivity. Qed.

Example parse_numbers :
  JSON_parse (txt "[0, -0, 1.5, 10e+2, 2E-3, 0.0]") =
  Some (VArray [VNumber false 0 0; VNumber true 0 0; VNumber false 15 (-1)%Z;
                VNumber false 10 2%Z; VNumber false 2 (-3)%Z;
                VNumber false 0 (-1)%Z]).
Proof. vm_compute. reflexivity. Qed.

Example parse_rejects_numbers :
  JSON_parse (txt "1.") = None /\ JSON_parse (txt ".5") = None /\
  JSON_parse (txt "1e") = None /\ JSON_parse (txt "-") = None /\
  JSON_parse (txt "+1") = None /\ JSON_parse (txt "0x10") = None.
Proof. vm_compute. done. Qed.

End Json.

(** ** The bootstrap of the debug port ([ensureDebugPort]) *)

Module Argv.

Import Strip Json.

Local Open Scope N_scope.

(** The key ['remote-debugging-port']. *)
Definition PORT_KEY : text := txt "remote-debugging-port".

(** The template text: a line feed, four spaces, the quoted key, a colon, a
    space, the port in decimal, a line feed. *)
Definition key_line (port : N) : text :=
  txt "|    'remote-debugging-port': " ++ decimal port ++ [LF].

(** The file written when there is nothing to preserve: an opening brace,
    the template text, a closing brace, a line feed. *)
Definition fresh_argv (port : N) : text :=
  [123] ++ key_line port ++ [RBRACE; LF].

(** [rawContent.lastIndexOf('}')]: the text before the last closing brace
    and the text from that brace on; [None] stands for -1. *)
Fixpoint split_last_brace (t : text) : option (text * text) :=
  match t with
  | [] => None
  | c :: r =>
      match split_last_brace r with
      | Some (b, a) => Some (c :: b, a)
      | None => if c =? RBRACE then Some ([], t) else None
      end
  end.

(** [String.prototype.trimEnd] *)
Fixpoint trimEnd (t : text) : text :=
  match t with
  | [] => []
  | c :: r =>
      match trimEnd r with
      | [] => if is_space c then [] else [c]
      | r' => c :: r'
      end
  end.

(** The character class of the regular expression of [needsComma]: the
    double quote, [\d], [\w], the closing bracket, the closing brace and the
    minus sign. *)
Definition value_end (c : char) : bool :=
  (c =? 34) || (48 <=? c) && (c <=? 57) || (65 <=? c) && (c <=? 90) ||
  (97 <=? c) && (c <=? 122) || (c =? 95) || (c =? 93) || (c =? 125) ||
  (c =? 45).

(** The test of the class on [before[before.length - 1]]; on an empty
    [before] the subscript is [undefined], which [test] reads as the text
    undefined, and that matches. *)
Definition needsComma (before : text) : bool :=
  match last before with
  | Some c => value_end c
  | None => true
  end.

(** [function insertPortIntoArgv(rawContent, port)] (v3.1.0) *)
Definition insertPortIntoArgv (rawContent : text) (port : N) : text :=
  match split_last_brace rawContent with
  | None => fresh_argv port
  | Some (b, after) =>
      let before := trimEnd b in
      before ++ (if needsComma before then [COMMA] else []) ++
      key_line port ++ after
  end.

(** What the function meets outside: the setting [cdpPort], the file at the
    path of [getArgvJsonPath], whether writing it succeeds, and which ports
    are taken. *)
Record host := Host {
  cdpPort : N;
  argv : option text;
  writable : bool;
  inUse : N -> bool
}.

(** [function isPortInUse(port)] (v3.1.0): whether a server can listen
    on the port.  [server.listen] takes the ports 0 to 65535 and throws on
    any other (ERR_SOCKET_BAD_PORT), inside the executor of the promise,
    which is then rejected: [None]. *)
Definition isPortInUse (inUse : N -> bool) (port : N) : option bool :=
  if port <=? 65535 then Some (inUse port) else None.

(** How the loop of [findAvailablePort] ends: it returns a free port, it
    runs out of ports, or an [await isPortInUse(port)] throws. *)
Inductive probed := Available (port : N) | AllTaken | Rejected.

(** The loop of [findAvailablePort], [n] ports from [port] on. *)
Fixpoint probe (inUse : N -> bool) (n : nat) (port : N) : probed :=
  match n with
  | O => AllTaken
  | S n' =>
      match isPortInUse inUse port with
      | None => Rejected
      | Some false => Available port
      | Some true => probe inUse n' (port + 1)
      end
  end.

(** [async function findAvailablePort(startPort)] (v3.1.0): the ports
    [startPort] to [startPort + 6] in turn, [startPort] when all are taken;
    [None] when the call throws. *)
Definition findAvailablePort (inUse : N -> bool) (startPort : N) : option N :=
  match probe inUse 7 startPort with
  | Available port => Some port
  | AllTaken => Some startPort
  | Rejected => None
  end.

(** What a call leaves behind: the value it returns ([None] for [null]) and
    the file. *)
Record outcome := Outcome { returned : option value; file : option text }.

(** [fs.writeFileSync(argvPath, content)]; a failure throws into the
    [catch], which logs and returns [null]. *)
Definition write (h : host) (content : text) : outcome :=
  if writable h then Outcome None (Some content)
  else Outcome None (argv h).

(** [async function ensureDebugPort()] of v3.1.0 (part_002).  Whether the
    user picks Restart Now has no bearing on the file or on the value.  A
    throw of [findAvailablePort] lands in the [catch] like any other. *)
Definition ensureDebugPort_v31 (h : host) : outcome :=
  let failed := Outcome None (argv h) in
  let parsed := match argv h with
                | Some rawContent =>
                    match JSON_parse (stripJsonComments_v31 rawContent) with
                    | Some data => Some (rawContent, data)
                    | None => None
                    end
                | None => Some ([], VObject [])
                end in
  match parsed with
  | None => failed
  | Some (rawContent, data) =>
      match get data PORT_KEY with
      | Throws => failed
      | existing =>
          if truthy existing then
            Outcome (match existing with Found v => Some v | _ => None end)
                    (argv h)
          else
            match findAvailablePort (inUse h) (cdpPort h) with
            | None => failed
            | Some port =>
                match rawContent with
                | [] => write h (fresh_argv port)
                | _ => write h (insertPortIntoArgv rawContent port)
                end
            end
      end
  end.

(** [JSON.stringify(value, null, 2)], for the values it is modelled on:
    integers below 2^53, strings without surrogates, keys that are not
    made of digits (those would be listed first); [None] elsewhere. *)
Definition hex_digit (n : N) : char := if n <? 10 then 48 + n else 87 + n.

Definition quote_char (c : char) : option text :=
  if c =? 34 then Some [92; 34]
  else if c =? 92 then Some [92; 92]
  else if c =? 8 then Some [92; 98]
  else if c =? 12 then Some [92; 102]
  else if c =? 10 then Some [92; 110]
  else if c =? 13 then Some [92; 114]
  else if c =? 9 then Some [92; 116]
  else if c <? 32 then Some [92; 117; 48; 48; hex_digit (c / 16); hex_digit (c mod 16)]
  else if (55296 <=? c) && (c <=? 57343) then None
  else Some [c].

Fixpoint quote_body (s : text) : option text :=
  match s with
  | [] => Some []
  | c :: s' =>
      match quote_char c, quote_body s' with
      | Some q, Some r => Some (q ++ r)
      | _, _ => None
      end
  end.

Definition quote (s : text) : option text :=
  match quote_body s with
  | Some b => Some (QUOTE :: b ++ [QUOTE])
  | None => None
  end.

Definition spaces (n : nat) : text := replicate n 32.

Definition all_digits (k : text) : bool :=
  match k with [] => false | _ => forallb is_digit k end.

Fixpoint stringify (indent : nat) (v : value) : option text :=
  match v with
  | VNull => Some (txt "null")
  | VBool true => Some (txt "true")
  | VBool false => Some (txt "false")
  | VNumber neg m e =>
      if (0 <=? e)%Z && (m * 10 ^ Z.to_N e <? 2 ^ 53) then
        Some ((if neg && negb (m =? 0) then [45] else []) ++
              decimal (m * 10 ^ Z.to_N e))
      else None
  | VString s => quote s
  | VArray [] => Some [91; 93]
  | VArray items =>
      match (fix go (l : list value) : option text :=
               match l with
               | [] => Some []
               | x :: l' =>
                   match stringify (indent + 2) x, go l' with
                   | Some tx, Some tl =>
                       Some (spaces (indent + 2) ++ tx ++
                             match l' with [] => [LF] | _ => [COMMA; LF] end ++ tl)
                   | _, _ => None
                   end
               end) items with
      | Some body => Some ([91; LF] ++ body ++ spaces indent ++ [93])
      | None => None
      end
  | VObject [] => Some [123; 125]
  | VObject props =>
      match (fix go (l : list (text * value)) : option text :=
               match l with
               | [] => Some []
               | (k, x) :: l' =>
                   if all_digits k then None
                   else
                     match quote k, stringify (indent + 2) x, go l' with
                     | Some tk, Some tx, Some tl =>
                         Some (spaces (indent + 2) ++ tk ++ [58; 32] ++ tx ++
                               match l' with [] => [LF] | _ => [COMMA; LF] end ++ tl)
                     | _, _, _ => None
                     end
               end) props with
      | Some body => Some ([123; LF] ++ body ++ spaces indent ++ [125])
      | None => None
      end
  end.

(** [data['remote-debugging-port'] = port]: an object gets the property; on
    an array the property is one [JSON.stringify] does not list; on a number,
    a string or a boolean the assignment has no effect. *)
Definition assign_port (data : value) (port : N) : value :=
  match data with
  | VObject props => VObject (obj_set PORT_KEY (VNumber false port 0) props)
  | _ => data
  end.

(** [async function ensureDebugPort()] of v3.0.x (src/extension.js);
    the outer [None] marks a file outside what [stringify] is modelled on. *)
Definition ensureDebugPort_v30 (h : host) : option outcome :=
  let failed := Some (Outcome None (argv h)) in
  let parsed := match argv h with
                | Some content => JSON_parse (stripJsonComments_v30 content)
                | None => Some (VObject [])
                end in
  match parsed with
  | None => failed
  | Some data =>
      match get data PORT_KEY with
      | Throws => failed
      | existing =>
          if truthy existing then
            Some (Outcome (match existing with Found v => Some v | _ => None end)
                          (argv h))
          else
            match stringify 0 (assign_port data (cdpPort h)) with
            | Some content => Some (write h content)
            | None => None
            end
      end
  end.

(** The file of the README, with a comment and a trailing comma added. *)
Definition sample_argv : text :=
  txt "// launch flags|{|  'disable-renderer-backgrounding': true, // keep polling|  'crash-reporter-id': 'a//b',|}|".

(** The file gives no port: it is absent, or it parses, the property read
    does not throw, and the value read is falsy ([undefined] when the key is
    missing). *)
Definition lacks_port (h : host) : Prop :=
  match argv h with
  | None => True
  | Some rawContent =>
      exists data, JSON_parse (stripJsonComments_v31 rawContent) = Some data /\
                   get data PORT_KEY <> Throws /\
                   truthy (get data PORT_KEY) = false
  end.

(** [t] holds [s] as a run of consecutive characters. *)
Definition contains (t s : text) : Prop := exists a b, t = a ++ s ++ b.


Example v31_sample :
  ensureDebugPort_v31 (Host 9222 (Some sample_argv) true (fun p => p =? 9222)) =
  Outcome None (Some (txt
    "// launch flags|{|  'disable-renderer-backgrounding': true, // keep polling|  'crash-reporter-id': 'a//b',|    'remote-debugging-port': 9223|}|")).
Proof. vm_compute. reflexivity. Qed.

Example v31_configured :
  ensureDebugPort_v31
    (Host 9222 (Some (txt "{ 'remote-debugging-port': 9333, }")) true (fun _ => true))
  = Outcome (Some (VNumber false 9333 0)) (Some (txt "{ 'remote-debugging-port': 9333, }")).
Proof. vm_compute. reflexivity. Qed.

Example v31_all_taken :
  ensureDebugPort_v31 (Host 9222 None true (fun _ => true)) =
  Outcome None (Some (txt "{|    'remote-debugging-port': 9222|}|")).
Proof. vm_compute. reflexivity. Qed.

Example v30_sample :
  ensureDebugPort_v30
    (Host 9222 (Some (txt "{ // c|  'a': [1, 'x'], 'b': {} }")) true (fun _ => false))
  = Some (Outcome None (Some (txt
      "{|  'a': [|    1,|    'x'|  ],|  'b': {},|  'remote-debugging-port': 9222|}"))).
Proof. vm_compute. reflexivity. Qed.

(** The ports are probed but the valid ones are all taken, and the next
    one is past 65535: the probing throws, nothing is written. *)
Example v31_port_out_of_range :
  ensureDebugPort_v31 (Host 65530 None true (fun _ => true)) =
  Outcome None None /\
  ensureDebugPort_v31 (Host 65530 None true (fun p => p <? 65535)) =
  Outcome None (Some (txt "{|    'remote-debugging-port': 65535|}|")).
Proof. vm_compute. done. Qed.

(** How the probing of [n] ports from [start] on ends. *)
Lemma probe_spec inUse n start :
  match probe inUse n start with
  | Available p =>
      start <= p /\ p < start + N.of_nat n /\ p <= 65535 /\
      inUse p = false /\ forall q, start <= q -> q < p -> inUse q = true
  | AllTaken =>
      forall q, start <= q -> q < start + N.of_nat n ->
                q <= 65535 /\ inUse q = true
  | Rejected =>
      65535 < start + N.of_nat n - 1 /\
      forall q, start <= q -> q <= 65535 -> inUse q = true
  end.
Proof.
  revert start. induction n as [|n IH]; intros start; cbn [probe].
  - intros q; lia.
  - unfold isPortInUse. destruct (start <=? 65535) eqn:Er.
    + apply N.leb_le in Er. destruct (inUse start) eqn:E.
      * specialize (IH (start + 1)).
        destruct (probe inUse n (start + 1)) as [p| |].
        -- destruct IH as (H1 & H2 & H3 & H4 & H5).
           repeat split; [lia|lia|done|done|].
           intros q Hq1 Hq2.
           destruct (decide (q = start)) as [->|Hne]; [done|]. apply H5; lia.
        -- intros q Hq1 Hq2.
           destruct (decide (q = start)) as [->|Hne]; [done|]. apply IH; lia.
        -- destruct IH as [H1 H2]. split; [lia|]. intros q Hq1 Hq2.
           destruct (decide (q = start)) as [->|Hne]; [done|]. apply H2; lia.
      * repeat split; [lia|lia|done|done|]. intros q; lia.
    + apply N.leb_gt in Er. split; [lia|]. intros q; lia.
Qed.

Lemma probe_finds inUse n start k :
  (k < n)%nat -> inUse (start + N.of_nat k) = false ->
  start + N.of_nat k <= 65535 ->
  exists p, probe inUse n start = Available p.
Proof.
  intros Hk Hfree Hr. pose proof (probe_spec inUse n start) as Hs.
  destruct (probe inUse n start) as [p| |]; [by eexists| |].
  - destruct (Hs (start + N.of_nat k)) as [_ Hb]; [lia|lia|congruence].
  - destruct Hs as [_ Hb]. rewrite Hb in Hfree; [done|lia|done].
Qed.

Lemma contains_insert rawContent port :
  contains (insertPortIntoArgv rawContent port) (key_line port).
Proof.
  unfold insertPortIntoArgv, contains.
  destruct (split_last_brace rawContent) as [[b after]|].
  - exists (trimEnd b ++ (if needsComma (trimEnd b) then [COMMA] else [])), after.
    by rewrite <- !app_assoc.
  - by exists [123], [RBRACE; LF].
Qed.

Lemma contains_fresh port : contains (fresh_argv port) (key_line port).
Proof. by exists [123], [RBRACE; LF]. Qed.


(** What v3.1.0 writes when the file gives no port. *)
Lemma v31_writes h port :
  lacks_port h -> writable h = true ->
  findAvailablePort (inUse h) (cdpPort h) = Some port ->
  returned (ensureDebugPort_v31 h) = None /\
  exists content,
    file (ensureDebugPort_v31 h) = Some content /\
    contains content (key_line port) /\
    content = match argv h with
              | Some rawContent => insertPortIntoArgv rawContent port
              | None => fresh_argv port
              end.
Proof.
  intros Hl Hw Hport. unfold ensureDebugPort_v31, lacks_port in *.
  rewrite Hport. destruct (argv h) as [raw|] eqn:Ha.
  - destruct Hl as (data & Hp & Hnt & Hf). rewrite Hp.
    destruct raw as [|c raw]; [by vm_compute in Hp|].
    destruct (get data PORT_KEY) eqn:Hg; [done| |]; rewrite Hf;
      unfold write; rewrite Hw; simpl;
      (split; [done|]; eexists; split; [done|]; split; [|done];
       apply contains_insert).
  - simpl. unfold write. rewrite Hw. simpl. split; [done|].
    eexists. split; [done|]. split; [apply contains_fresh|done].
Qed.

(** v3.0.x writes the preferred port without probing any. *)
Lemma v30_writes_preferred :
  ensureDebugPort_v30 (Host 9222 None true (fun p => p =? 9222)) =
  Some (Outcome None (Some (txt "{|  'remote-debugging-port': 9222|}"))).
Proof. vm_compute. reflexivity. Qed.

(** C8, amended to v3.1.0.  When the launch-configuration file gives no
    debug port, the preferred port is taken and one of the six ports after
    it is free and no higher than 65535, ensureDebugPort writes a file
    that holds the line of the key with the first free port after the
    preferred one, and returns null. *)
Theorem port_fallback (h : host) (k : nat) :
  lacks_port h -> writable h = true ->
  inUse h (cdpPort h) = true ->
  (1 <= k <= 6)%nat -> inUse h (cdpPort h + N.of_nat k) = false ->
  cdpPort h + N.of_nat k <= 65535 ->
  returned (ensureDebugPort_v31 h) = None /\
  exists content p,
    file (ensureDebugPort_v31 h) = Some content /\
    contains content (key_line p) /\
    cdpPort h < p /\ p <= cdpPort h + 6 /\ inUse h p = false /\
    forall q, cdpPort h <= q -> q < p -> inUse h q = true.
Proof.
  intros Hl Hw Hbusy Hk Hfree Hrange.
  destruct (probe_finds (inUse h) 7 (cdpPort h) k ltac:(lia) Hfree Hrange)
    as [p Hp].
  assert (findAvailablePort (inUse h) (cdpPort h) = Some p) as Hport
    by (unfold findAvailablePort; by rewrite Hp).
  destruct (v31_writes h p Hl Hw Hport) as (Hret & content & Hfile & Hcont & _).
  split; [done|]. exists content, p.
  pose proof (probe_spec (inUse h) 7 (cdpPort h)) as Hs. rewrite Hp in Hs.
  destruct Hs as (H1 & H2 & _ & H3 & H4).
  repeat split; try done; [|lia].
  destruct (decide (p = cdpPort h)) as [->|Hne]; [congruence|lia].
Qed.

(** The sample file, the preferred port 9222 and the next one taken. *)
Lemma port_fallback_witness :
  let h := Host 9222 (Some sample_argv) true
                (fun p => (p =? 9222) || (p =? 9223)) in
  returned (ensureDebugPort_v31 h) = None /\
  exists content p,
    file (ensureDebugPort_v31 h) = Some content /\
    contains content (key_line p) /\
    cdpPort h < p /\ p <= cdpPort h + 6 /\ inUse h p = false /\
    forall q, cdpPort h <= q -> q < p -> inUse h q = true.
Proof.
  intros h. apply (port_fallback h 2).
  - eexists. split; [by vm_compute|]. split; [by vm_compute|by vm_compute].
  - reflexivity.
  - reflexivity.
  - lia.
  - reflexivity.
  - by vm_compute.
Defined.

End Argv.

(** ** Launch configurations with line comments and trailing commas *)

Module Jsonc.

Import Strip Json Argv.

Local Open Scope N_scope.

#[local] Set Warnings "-register-all".

(** The shape of a configuration text: a JSON value in which the last
    element of an array or object may be followed by a comma. *)
Inductive cval :=
| CNull | CTrue | CFalse
| CNum (lexeme : text)
| CStr (body : text)
| CArr (items : list cval) (trailing : bool)
| CObj (members : list (text * cval)) (trailing : bool).

(** The body of a JSON string literal: characters from the space on other
    than the quote and the backslash, two-character escapes, and [\u] with
    four hexadecimal digits. *)
Inductive json_body : text -> Prop :=
| jb_nil : json_body []
| jb_char c b :
    32 <= c -> c <> QUOTE -> c <> BACKSLASH -> json_body b -> json_body (c :: b)
| jb_escape e b :
    simple_escape e = true -> json_body b -> json_body (BACKSLASH :: e :: b)
| jb_unicode h1 h2 h3 h4 b :
    is_hex h1 && is_hex h2 && is_hex h3 && is_hex h4 = true -> json_body b ->
    json_body (BACKSLASH :: 117 :: h1 :: h2 :: h3 :: h4 :: b).

Definition all_digit (ds : text) : Prop := Forall (fun c => is_digit c = true) ds.

(** A JSON number literal: an optional minus, an integer part that is 0 or
    starts with 1 to 9, an optional fraction, an optional exponent. *)
Definition number_lexeme (l : text) : Prop :=
  exists sign int frac ex : text,
    l = sign ++ int ++ frac ++ ex /\
    (sign = [] \/ sign = [45]) /\
    (int = [48] \/
     exists d ds, int = d :: ds /\ 49 <= d /\ d <= 57 /\ all_digit ds) /\
    (frac = [] \/
     exists d ds, frac = 46 :: d :: ds /\ all_digit (d :: ds)) /\
    (ex = [] \/
     exists e sg d ds, ex = e :: sg ++ d :: ds /\ (e = 101 \/ e = 69) /\
                       (sg = [] \/ sg = [43] \/ sg = [45]) /\ all_digit (d :: ds)).

(** Every literal of the value is one of JSON. *)
Fixpoint valid (v : cval) : Prop :=
  match v with
  | CNum l => number_lexeme l
  | CStr b => json_body b
  | CArr items _ =>
      (fix all (l : list cval) : Prop :=
         match l with [] => True | x :: l' => valid x /\ all l' end) items
  | CObj members _ =>
      (fix all (l : list (text * cval)) : Prop :=
         match l with
         | [] => True
         | (k, x) :: l' => json_body k /\ valid x /\ all l'
         end) members
  | _ => True
  end.

(** The items of an array or an object with commas between them, and one
    after the last where [trailing] says so. *)
Section Separated.
Context {A : Type} (tok : A -> list token).

Fixpoint sep_by (trailing : bool) (l : list A) : list token :=
  match l with
  | [] => []
  | x :: l' =>
      match l' with
      | [] => tok x ++ (if trailing then [TComma] else [])
      | _ => tok x ++ TComma :: sep_by trailing l'
      end
  end.
End Separated.

(** The tokens of a value, trailing commas included. *)
Fixpoint tokens (v : cval) : list token :=
  match v with
  | CNull => [TNull]
  | CTrue => [TTrue]
  | CFalse => [TFalse]
  | CNum l => [TNumber l]
  | CStr b => [TString b]
  | CArr items trailing =>
      TLBracket :: sep_by tokens trailing items ++ [TRBracket]
  | CObj members trailing =>
      TLBrace ::
      sep_by (fun m => TString m.1 :: TColon :: tokens m.2) trailing members ++
      [TRBrace]
  end.

(** The value as the comma replacement of v3.1.0 leaves it: no trailing
    commas, and the replacement applied inside the string literals too. *)
Fixpoint plain (v : cval) : cval :=
  match v with
  | CStr b => CStr (stripTrailingCommas b)
  | CArr items _ => CArr (plain <$> items) false
  | CObj members _ =>
      CObj ((fun m => (stripTrailingCommas m.1, plain m.2)) <$> members) false
  | _ => v
  end.

(** The value [JSON.parse] builds from the tokens of a value without
    trailing commas. *)
Fixpoint cvalue (v : cval) : value :=
  match v with
  | CNull => VNull
  | CTrue => VBool true
  | CFalse => VBool false
  | CNum l => number_value l
  | CStr b => VString (decode b)
  | CArr items _ => VArray (cvalue <$> items)
  | CObj members _ =>
      VObject (foldl (fun acc m => obj_set (decode m.1) (cvalue m.2) acc) []
                     members)
  end.

Definition token_text (tk : token) : text :=
  match tk with
  | TLBrace => [123] | TRBrace => [125]
  | TLBracket => [91] | TRBracket => [93]
  | TColon => [58] | TComma => [44]
  | TString b => QUOTE :: b ++ [QUOTE]
  | TNumber l => l
  | TTrue => [116; 114; 117; 101]
  | TFalse => [102; 97; 108; 115; 101]
  | TNull => [110; 117; 108; 108]
  end.

(** What may stand between two tokens: white space and line comments. *)
Inductive gap_item :=
| GSpace (c : char)
| GComment (body : text).

Definition gap_item_ok (g : gap_item) : Prop :=
  match g with
  | GSpace c => json_ws c = true
  | GComment body => LF ∉ body
  end.

Definition gap_item_text (g : gap_item) : text :=
  match g with
  | GSpace c => [c]
  | GComment body => SLASH :: SLASH :: body ++ [LF]
  end.

Fixpoint gap_text (g : list gap_item) : text :=
  match g with
  | [] => []
  | i :: g' => gap_item_text i ++ gap_text g'
  end.

(** The tokens laid out with the gaps, in order: one gap before each token
    and one after the last; gaps that are not given are empty. *)
Fixpoint layout (gaps : list (list gap_item)) (ts : list token) : text :=
  match ts with
  | [] => gap_text (hd [] gaps)
  | tk :: ts' => gap_text (hd [] gaps) ++ token_text tk ++ layout (tl gaps) ts'
  end.

(** A configuration text: a value, the gaps around its tokens, and possibly
    a last comment that the end of the file cuts off. *)
Record doc := Doc {
  d_value : cval;
  d_gaps : list (list gap_item);
  d_tail : option text
}.

Definition doc_ok (d : doc) : Prop :=
  match d_value d with CObj _ _ => True | _ => False end /\
  valid (d_value d) /\ Forall (Forall gap_item_ok) (d_gaps d) /\
  match d_tail d with Some body => LF ∉ body | None => True end.

Definition doc_text (d : doc) : text :=
  layout (d_gaps d) (tokens (d_value d)) ++
  match d_tail d with Some body => SLASH :: SLASH :: body | None => [] end.

(** [t] is the tokens [ts] with JSON white space around them. *)
Inductive spaced : list token -> text -> Prop :=
| sp_nil ws : Forall (fun c => json_ws c = true) ws -> spaced [] ws
| sp_cons ws tk ts t :
    Forall (fun c => json_ws c = true) ws -> spaced ts t ->
    spaced (tk :: ts) (ws ++ token_text tk ++ t).

(** What the comma replacement of v3.1.0 does in terms of tokens. *)
Fixpoint clean (ts : list token) : list token :=
  match ts with
  | [] => []
  | TComma :: ts' =>
      match ts' with
      | TRBrace :: _ | TRBracket :: _ => clean ts'
      | _ => TComma :: clean ts'
      end
  | TString b :: ts' => TString (stripTrailingCommas b) :: clean ts'
  | tk :: ts' => tk :: clean ts'
  end.

(** A token a JSON text can hold. *)
Definition token_ok (tk : token) : Prop :=
  match tk with
  | TString b => json_body b
  | TNumber l => number_lexeme l
  | _ => True
  end.

(** A number is followed by a comma, a closing bracket or nothing. *)
Fixpoint separated (ts : list token) : Prop :=
  match ts with
  | TNumber _ :: ts' =>
      match ts' with
      | [] | TComma :: _ | TRBrace :: _ | TRBracket :: _ => True
      | _ => False
      end /\ separated ts'
  | _ :: ts' => separated ts'
  | [] => True
  end.

(** The characters of a number literal. *)
Definition number_char (c : char) : bool :=
  is_digit c || (c =? 45) || (c =? 43) || (c =? 46) || (c =? 101) || (c =? 69).

(** A gap after scanning: its white space, and a line feed per comment. *)
Definition blank (g : list gap_item) : text :=
  (fun i => match i with GSpace c => c | GComment _ => LF end) <$> g.

(** The text does not go on with a character of a number. *)
Definition delimited (r : text) : Prop :=
  match r with [] => True | c :: _ => number_char c = false end.

(** What may follow a number. *)
Definition closing (ts : list token) : Prop :=
  match ts with
  | [] | TComma :: _ | TRBrace :: _ | TRBracket :: _ => True
  | _ => False
  end.

(** A value starts with a literal or an opening bracket. *)
Definition opening (tk : token) : Prop :=
  match tk with
  | TRBrace | TRBracket | TComma | TColon => False
  | _ => True
  end.

(** The sample file of the bootstrap as a configuration text. *)
Definition sample_doc : doc :=
  Doc (CObj [(txt "disable-renderer-backgrounding", CTrue);
             (txt "crash-reporter-id", CStr (txt "a//b"))] true)
      [[GComment (txt " launch flags")];
       [GSpace LF; GSpace 32; GSpace 32]; []; [GSpace 32]; [];
       [GSpace 32; GComment (txt " keep polling"); GSpace 32; GSpace 32];
       []; [GSpace 32]; []; [GSpace LF]; [GSpace LF]]
      None.

(** *** Facts on the comma replacement *)

Lemma json_ws_space c : json_ws c = true -> is_space c = true.
Proof.
  unfold json_ws, is_space. intros H.
  repeat (apply orb_true_iff in H as [H|H]); apply N.eqb_eq in H; by subst.
Qed.

Lemma json_ws_not_comma c : json_ws c = true -> c <> COMMA.
Proof. intros H ->. done. Qed.

Lemma strip_nocomma a b :
  Forall (fun c => c <> COMMA) a ->
  stripTrailingCommas (a ++ b) = a ++ stripTrailingCommas b.
Proof.
  induction 1 as [|c a Hc Ha IH]; [done|]. cbn [app stripTrailingCommas].
  destruct (c =? COMMA) eqn:E; [by apply N.eqb_eq in E|]. cbn [andb].
  by rewrite IH.
Qed.

Lemma closes_ws ws t :
  Forall (fun c => json_ws c = true) ws -> closes (ws ++ t) = closes t.
Proof.
  induction 1 as [|c ws Hc Hws IH]; [done|]. simpl.
  by rewrite (json_ws_space c Hc).
Qed.

Lemma closes_only_ws ws :
  Forall (fun c => json_ws c = true) ws -> closes ws = false.
Proof.
  intros H. rewrite <- (app_nil_r ws). by rewrite closes_ws.
Qed.

Lemma closes_stop a c0 r :
  is_space c0 = false -> is_closer c0 = false ->
  closes (a ++ c0 :: r) = closes a.
Proof.
  intros Hs Hc. induction a as [|c a IH]; simpl.
  - by rewrite Hs.
  - by destruct (is_space c).
Qed.

Lemma strip_stop b c0 r :
  is_space c0 = false -> is_closer c0 = false -> c0 <> COMMA ->
  stripTrailingCommas (b ++ c0 :: r) =
  stripTrailingCommas b ++ c0 :: stripTrailingCommas r.
Proof.
  intros Hs Hc Hn. induction b as [|c b IH].
  - cbn [app stripTrailingCommas].
    destruct (c0 =? COMMA) eqn:E; [by apply N.eqb_eq in E|]. done.
  - cbn [app stripTrailingCommas]. rewrite closes_stop by done.
    destruct (_ && _); by rewrite IH.
Qed.

Lemma hex_not_comma h : is_hex h = true -> h <> COMMA.
Proof. intros H ->. done. Qed.

Lemma json_body_strip b : json_body b -> json_body (stripTrailingCommas b).
Proof.
  induction 1 as [|c b H32 Hq Hb Hbody IH|e b He Hbody IH
                  |h1 h2 h3 h4 b Hh Hbody IH].
  - constructor.
  - cbn [stripTrailingCommas]. destruct (_ && _); [done|by constructor].
  - assert (e <> COMMA) as Hne by (intros ->; done).
    change (BACKSLASH :: e :: b) with ([BACKSLASH; e] ++ b).
    rewrite strip_nocomma; [by constructor|].
    repeat constructor; [done|done].
  - apply andb_true_iff in Hh as [Hh H4]. apply andb_true_iff in Hh as [Hh H3].
    apply andb_true_iff in Hh as [H1 H2].
    change (BACKSLASH :: 117 :: h1 :: h2 :: h3 :: h4 :: b)
      with ([BACKSLASH; 117; h1; h2; h3; h4] ++ b).
    rewrite strip_nocomma.
    + constructor; [|done]. by rewrite H1, H2, H3, H4.
    + repeat constructor; try done; by apply hex_not_comma.
Qed.


Lemma all_digit_number_char ds :
  all_digit ds -> Forall (fun c => number_char c = true) ds.
Proof.
  intros Hd. eapply Forall_impl; [exact Hd|].
  intros c H. unfold number_char. by rewrite H.
Qed.

Lemma number_chars l :
  number_lexeme l -> Forall (fun c => number_char c = true) l.
Proof.
  intros (sign & int & frac & ex & -> & Hs & Hi & Hf & He).
  repeat apply Forall_app_2.
  - destruct Hs as [->| ->]; by repeat constructor.
  - destruct Hi as [->|(d & ds & -> & H1 & H2 & Hd)]; [by repeat constructor|].
    constructor; [|by apply all_digit_number_char].
    unfold number_char, is_digit.
    assert ((48 <=? d) = true) as -> by (apply N.leb_le; lia).
    assert ((d <=? 57) = true) as -> by (by apply N.leb_le). done.
  - destruct Hf as [->|(d & ds & -> & Hd)]; [constructor|].
    constructor; [done|by apply all_digit_number_char].
  - destruct He as [->|(e & sg & d & ds & -> & He & Hsg & Hd)]; [constructor|].
    constructor.
    + by destruct He as [-> | ->].
    + apply Forall_app_2; [|by apply all_digit_number_char].
      destruct Hsg as [->|[->| ->]]; by repeat constructor.
Qed.

Lemma number_head l :
  number_lexeme l ->
  exists c r, l = c :: r /\ (c = 45 \/ is_digit c = true).
Proof.
  intros (sign & int & frac & ex & -> & Hs & Hi & Hf & He).
  destruct Hs as [->| ->]; [|by eexists _, _; split; [done|left]].
  destruct Hi as [->|(d & ds & -> & H1 & H2 & Hd)].
  - eexists _, _. split; [done|by right].
  - eexists _, _. split; [done|]. right. unfold is_digit.
    assert ((48 <=? d) = true) as -> by (apply N.leb_le; lia).
    by apply N.leb_le.
Qed.

Lemma digit_cases c :
  is_digit c = true ->
  c = 48 \/ c = 49 \/ c = 50 \/ c = 51 \/ c = 52 \/ c = 53 \/ c = 54 \/
  c = 55 \/ c = 56 \/ c = 57.
Proof.
  unfold is_digit. intros [H1%N.leb_le H2%N.leb_le]%andb_true_iff. lia.
Qed.

(** The first character of a token is no white space, and closes only when
    the token is a closing bracket. *)
Lemma token_head tk :
  token_ok tk ->
  exists c r, token_text tk = c :: r /\ is_space c = false /\
              is_closer c = match tk with
                            | TRBrace | TRBracket => true
                            | _ => false
                            end.
Proof.
  destruct tk; simpl; intros Hok; try (by eexists _, _).
  destruct (number_head _ Hok) as (c & r & -> & Hc). exists c, r.
  split; [done|]. destruct Hc as [->|Hd]; [done|].
  apply digit_cases in Hd.
  repeat (destruct Hd as [->|Hd]; [done|]). by subst.
Qed.

Lemma closes_spaced ts t :
  spaced ts t -> Forall token_ok ts ->
  closes t = match ts with
             | TRBrace :: _ | TRBracket :: _ => true
             | _ => false
             end.
Proof.
  intros Hsp Hok. destruct Hsp as [ws Hws|ws tk ts t Hws Hsp].
  - by apply closes_only_ws.
  - rewrite closes_ws by done. apply Forall_cons in Hok as [Hok _].
    destruct (token_head tk Hok) as (c & r & -> & Hs & Hc).
    simpl. rewrite Hs, Hc. by destruct tk.
Qed.

Lemma spaced_prepend ws ts t :
  Forall (fun c => json_ws c = true) ws -> spaced ts t -> spaced ts (ws ++ t).
Proof.
  intros Hws Hsp. destruct Hsp as [ws' Hws'|ws' tk ts t Hws' Hsp].
  - constructor. by apply Forall_app_2.
  - rewrite app_assoc. constructor; [by apply Forall_app_2|done].
Qed.

Lemma token_text_nocomma tk :
  token_ok tk -> tk <> TComma -> (forall b, tk <> TString b) ->
  Forall (fun c => c <> COMMA) (token_text tk).
Proof.
  intros Hok Hc Hs. destruct tk; simpl; try (by repeat constructor);
    try done.
  - by destruct (Hs body).
  - eapply Forall_impl; [by apply number_chars|].
    intros c Hn ->. done.
Qed.

(** The replacement acts on a spaced text as [clean] acts on its tokens. *)
Lemma strip_spaced ts t :
  spaced ts t -> Forall token_ok ts ->
  spaced (clean ts) (stripTrailingCommas t) /\ Forall token_ok (clean ts).
Proof.
  induction 1 as [ws Hws|ws tk ts t Hws Hsp IH]; intros Hok.
  - split; [|constructor]. rewrite <- (app_nil_r ws), strip_nocomma.
    + rewrite app_nil_r. by constructor.
    + eapply Forall_impl; [done|]. apply json_ws_not_comma.
  - apply Forall_cons in Hok as [Hok Hoks]. destruct (IH Hoks) as [IHs IHo].
    rewrite strip_nocomma
      by (eapply Forall_impl; [done|]; apply json_ws_not_comma).
    destruct (decide (tk = TComma)) as [->|Hnc].
    + cbn [token_text app stripTrailingCommas].
      assert ((44 =? COMMA) = true) as -> by done. cbn [andb].
      rewrite (closes_spaced ts t Hsp Hoks). cbn [clean].
      destruct ts as [|[] ts'];
        try (split; [by apply (sp_cons ws TComma)|by constructor]);
        (split; [by apply spaced_prepend|done]).
    + destruct tk as [| | | | | |b|l| | |]; try done;
        try (cbn [clean]; split; [|by constructor];
             rewrite strip_nocomma by (by apply token_text_nocomma);
             by constructor).
      cbn [clean token_text]. split; [|constructor; [by apply json_body_strip|done]].
      cbn [app stripTrailingCommas].
      assert ((QUOTE =? COMMA) = false) as -> by done. cbn [andb].
      rewrite <- app_assoc. cbn [app]. rewrite strip_stop by done.
      assert (QUOTE :: stripTrailingCommas b ++ QUOTE :: stripTrailingCommas t
              = token_text (TString (stripTrailingCommas b)) ++
                stripTrailingCommas t) as ->
        by (simpl; by rewrite <- app_assoc).
      by constructor.
Qed.

(** *** Facts on the scanner *)

Lemma scan_plain_run l rest :
  Forall (fun c => c <> QUOTE /\ c <> SLASH) l ->
  scan false false (l ++ rest) = l ++ scan false false rest.
Proof.
  induction 1 as [|c l [Hq Hs] Hl IH]; [done|]. cbn [app].
  rewrite scan_plain; [by rewrite IH|done|].
  destruct (c =? SLASH) eqn:E; [by apply N.eqb_eq in E|done].
Qed.

Lemma json_body_from b : json_body b -> body_from false true b.
Proof.
  induction 1 as [|c b H32 Hq Hb Hbody IH|e b He Hbody IH
                  |h1 h2 h3 h4 b Hh Hbody IH]; [done| | |].
  - cbn [body_from]. destruct (c =? BACKSLASH) eqn:E;
      [by apply N.eqb_eq in E|done].
  - done.
  - apply andb_true_iff in Hh as [Hh H4]. apply andb_true_iff in Hh as [Hh H3].
    apply andb_true_iff in Hh as [H1 H2].
    assert (forall h, is_hex h = true ->
              (h =? BACKSLASH) = false /\ h <> QUOTE) as Hhex.
    { intros h Hx. split; [|by intros ->].
      destruct (h =? BACKSLASH) eqn:E; [|done].
      apply N.eqb_eq in E. by subst. }
    cbn [body_from]. assert ((BACKSLASH =? BACKSLASH) = true) as -> by done.
    destruct (Hhex _ H1) as [-> ?], (Hhex _ H2) as [-> ?],
             (Hhex _ H3) as [-> ?], (Hhex _ H4) as [-> ?].
    done.
Qed.

Lemma scan_token tk rest :
  token_ok tk ->
  scan false false (token_text tk ++ rest) =
  token_text tk ++ scan false false rest.
Proof.
  intros Hok.
  destruct tk as [| | | | | |b|l| | |];
    try (apply scan_plain_run; by repeat constructor).
  - cbn [token_text app scan].
    assert ((QUOTE =? BACKSLASH) && false = false) as -> by done.
    assert ((QUOTE =? QUOTE) = true) as -> by done. cbn [negb].
    rewrite <- !app_assoc. cbn [app].
    by rewrite (scan_body false true b rest (json_body_from b Hok)).
  - apply scan_plain_run. eapply Forall_impl; [by apply number_chars|].
    intros c Hn. split; intros ->; done.
Qed.


Lemma blank_ws g :
  Forall gap_item_ok g -> Forall (fun c => json_ws c = true) (blank g).
Proof.
  induction 1 as [|[c|body] g Hi Hg IH]; [constructor|..];
    by constructor.
Qed.

Lemma scan_gap g rest :
  Forall gap_item_ok g ->
  scan false false (gap_text g ++ rest) = blank g ++ scan false false rest.
Proof.
  induction 1 as [|[c|body] g Hi Hg IH]; [done|..];
    cbn [gap_text gap_item_text blank fmap list_fmap app].
  - rewrite scan_plain.
    + f_equal. exact IH.
    + intros ->. done.
    + destruct (c =? SLASH) eqn:E; [|done]. apply N.eqb_eq in E. by subst.
  - rewrite scan_open_comment. f_equal. cbn [skip_line].
    assert ((SLASH =? LF) = false) as -> by done.
    rewrite <- !app_assoc. cbn [app].
    rewrite skip_line_body by done. exact IH.
Qed.

Lemma hd_ok (gaps : list (list gap_item)) :
  Forall (Forall gap_item_ok) gaps ->
  Forall gap_item_ok (hd [] gaps) /\ Forall (Forall gap_item_ok) (tl gaps).
Proof. destruct 1; by split. Qed.

(** The scanner turns a laid-out text into its tokens spaced by white
    space. *)
Lemma scan_layout ts gaps (tail : option text) :
  Forall token_ok ts -> Forall (Forall gap_item_ok) gaps ->
  match tail with Some body => LF ∉ body | None => True end ->
  spaced ts (scan false false
               (layout gaps ts ++
                match tail with Some body => SLASH :: SLASH :: body | None => [] end)).
Proof.
  intros Hok. revert gaps. induction Hok as [|tk ts Htk Hts IH]; intros gaps Hg Ht.
  - destruct (hd_ok gaps Hg) as [Hh _]. cbn [layout].
    rewrite scan_gap by done. constructor.
    apply Forall_app_2; [by apply blank_ws|].
    destruct tail as [body|]; [|constructor].
    rewrite scan_open_comment. cbn [skip_line].
    assert ((SLASH =? LF) = false) as -> by done.
    rewrite skip_line_cut by done. by repeat constructor.
  - destruct (hd_ok gaps Hg) as [Hh Htl]. cbn [layout].
    rewrite <- !app_assoc, scan_gap by done.
    rewrite scan_token by done.
    constructor; [by apply blank_ws|]. by apply IH.
Qed.

(** *** Facts on the lexer *)

Lemma lex_string_ok b r :
  json_body b -> lex_string (b ++ QUOTE :: r) = Some (b, r).
Proof.
  induction 1 as [|c b H32 Hq Hb Hbody IH|e b He Hbody IH
                  |h1 h2 h3 h4 b Hh Hbody IH].
  - done.
  - cbn [app lex_string].
    destruct (c =? QUOTE) eqn:E1; [by apply N.eqb_eq in E1|].
    destruct (c =? BACKSLASH) eqn:E2; [by apply N.eqb_eq in E2|].
    destruct (c <? 32) eqn:E3; [apply N.ltb_lt in E3; lia|].
    by rewrite IH.
  - cbn [app lex_string].
    assert ((BACKSLASH =? QUOTE) = false) as -> by done.
    assert ((BACKSLASH =? BACKSLASH) = true) as -> by done.
    by rewrite He, IH.
  - cbn [app lex_string].
    assert ((BACKSLASH =? QUOTE) = false) as -> by done.
    assert ((BACKSLASH =? BACKSLASH) = true) as -> by done.
    assert (simple_escape 117 = false) as -> by done.
    assert ((117 =? 117) = true) as -> by done.
    by rewrite Hh, IH.
Qed.


Lemma digits_ok ds r :
  all_digit ds ->
  match r with [] => True | c :: _ => is_digit c = false end ->
  digits (ds ++ r) = (ds, r).
Proof.
  intros Hd Hr. induction Hd as [|d ds Hd Hds IH]; cbn [app].
  - destruct r as [|c r]; [done|]. simpl. by rewrite Hr.
  - cbn [digits]. by rewrite Hd, IH.
Qed.

Lemma number_char_false c :
  number_char c = false ->
  is_digit c = false /\ (c =? 45) = false /\ (c =? 43) = false /\
  (c =? 46) = false /\ (c =? 101) = false /\ (c =? 69) = false.
Proof.
  unfold number_char. rewrite !orb_false_iff. tauto.
Qed.

Lemma delimited_digit r :
  delimited r -> match r with [] => True | c :: _ => is_digit c = false end.
Proof.
  destruct r as [|c r]; [done|]. intros Hr.
  by apply number_char_false in Hr as (Hd & _).
Qed.

Lemma lex_exp_ok ex r :
  (ex = [] \/
   exists e sg d ds, ex = e :: sg ++ d :: ds /\ (e = 101 \/ e = 69) /\
                     (sg = [] \/ sg = [43] \/ sg = [45]) /\ all_digit (d :: ds)) ->
  delimited r -> lex_exp (ex ++ r) = Some (ex, r).
Proof.
  intros [->|(e & sg & d & ds & -> & He & Hsg & Hd)] Hr.
  - destruct r as [|c r]; [done|].
    apply number_char_false in Hr as (_ & _ & _ & _ & E1 & E2).
    simpl. by rewrite E1, E2.
  - pose proof (digits_ok (d :: ds) r Hd (delimited_digit r Hr)) as Hdig.
    assert ((e =? 101) || (e =? 69) = true) as He'
      by (by destruct He as [-> | ->]).
    unfold lex_exp. cbn [app]. rewrite He'.
    destruct Hsg as [->|[->| ->]]; cbn [app].
    + apply Forall_cons in Hd as [Hd0 _].
      assert ((d =? 43) || (d =? 45) = false) as ->.
      { apply digit_cases in Hd0.
        repeat (destruct Hd0 as [->|Hd0]; [done|]). by subst. }
      change (d :: ds ++ r) with ((d :: ds) ++ r). by rewrite Hdig.
    + assert ((43 =? 43) || (43 =? 45) = true) as -> by done.
      change (d :: ds ++ r) with ((d :: ds) ++ r). by rewrite Hdig.
    + assert ((45 =? 43) || (45 =? 45) = true) as -> by done.
      change (d :: ds ++ r) with ((d :: ds) ++ r). by rewrite Hdig.
Qed.

Lemma lex_frac_ok frac r :
  (frac = [] \/ exists d ds, frac = 46 :: d :: ds /\ all_digit (d :: ds)) ->
  match r with
  | [] => True
  | c :: _ => is_digit c = false /\ c <> 46
  end ->
  lex_frac (frac ++ r) = Some (frac, r).
Proof.
  intros [->|(d & ds & -> & Hd)] Hr.
  - destruct r as [|c r]; [done|]. simpl. destruct Hr as [_ Hr].
    destruct (c =? 46) eqn:E; [by apply N.eqb_eq in E|done].
  - unfold lex_frac. cbn [app]. assert ((46 =? 46) = true) as -> by done.
    change (d :: ds ++ r) with ((d :: ds) ++ r).
    rewrite digits_ok; [done|done|]. by destruct r as [|c r]; [|destruct Hr].
Qed.

Lemma lex_int_ok int r :
  (int = [48] \/
   exists d ds, int = d :: ds /\ 49 <= d /\ d <= 57 /\ all_digit ds) ->
  match r with [] => True | c :: _ => is_digit c = false end ->
  lex_int (int ++ r) = Some (int, r).
Proof.
  intros [->|(d & ds & -> & H1 & H2 & Hd)] Hr; [done|].
  unfold lex_int. cbn [app].
  assert (is_digit d = true) as ->.
  { unfold is_digit. apply andb_true_iff. split; apply N.leb_le; lia. }
  cbn [negb]. destruct (d =? 48) eqn:E; [apply N.eqb_eq in E; lia|].
  by rewrite digits_ok.
Qed.

Lemma lex_number_ok l r :
  number_lexeme l -> delimited r -> lex_number (l ++ r) = Some (l, r).
Proof.
  intros (sign & int & frac & ex & -> & Hs & Hi & Hf & He) Hr.
  assert (match ex ++ r with
          | [] => True
          | c :: _ => is_digit c = false /\ c <> 46
          end) as Hex.
  { destruct He as [->|(e & sg & d & ds & -> & He & _)].
    - destruct r as [|c r]; [done|].
      apply number_char_false in Hr as (Hd & _ & _ & E & _).
      simpl. split; [done|]. by apply N.eqb_neq.
    - by destruct He as [-> | ->]. }
  assert (match frac ++ ex ++ r with
          | [] => True
          | c :: _ => is_digit c = false
          end) as Hfr.
  { destruct Hf as [->|(d & ds & -> & _)]; [|done].
    cbn [app]. by destruct (ex ++ r) as [|c r']; [|destruct Hex]. }
  assert (exists c0 r0, int ++ frac ++ ex ++ r = c0 :: r0 /\ is_digit c0 = true)
    as (c0 & r0 & Hint & Hc0).
  { destruct Hi as [->|(d & ds & -> & H1 & H2 & _)]; eexists _, _;
      (split; [done|]); [done|].
    unfold is_digit. apply andb_true_iff. split; apply N.leb_le; lia. }
  unfold lex_number.
  assert (lex_sign ((sign ++ int ++ frac ++ ex) ++ r) =
          (sign, int ++ frac ++ ex ++ r)) as ->.
  { rewrite <- !app_assoc. destruct Hs as [->| ->]; [|done].
    cbn [app]. rewrite Hint. unfold lex_sign.
    destruct (c0 =? 45) eqn:E; [|done]. apply N.eqb_eq in E. by subst. }
  rewrite (lex_int_ok int _ Hi Hfr), (lex_frac_ok frac _ Hf Hex).
  by rewrite (lex_exp_ok ex r He Hr).
Qed.

Lemma lex_ws ws t f :
  Forall (fun c => json_ws c = true) ws ->
  lex (length ws + f) (ws ++ t) = lex f t.
Proof.
  induction 1 as [|c ws Hc Hws IH]; [done|].
  cbn [length app Nat.add lex]. by rewrite Hc.
Qed.

Lemma json_ws_number_char c : json_ws c = true -> number_char c = false.
Proof.
  unfold json_ws. intros H.
  repeat (apply orb_true_iff in H as [H|H]); apply N.eqb_eq in H; by subst.
Qed.


Lemma spaced_delimited ts t : spaced ts t -> closing ts -> delimited t.
Proof.
  intros Hsp Hcl. destruct Hsp as [ws Hws|ws tk ts t Hws Hsp].
  - destruct Hws as [|c ws Hc _]; [done|]. by apply json_ws_number_char.
  - destruct Hws as [|c ws Hc _]; [|by apply json_ws_number_char].
    by destruct tk.
Qed.

Lemma token_length tk : token_ok tk -> (1 <= length (token_text tk))%nat.
Proof.
  intros Hok. destruct tk; simpl; try lia.
  destruct (number_head _ Hok) as (c & r & -> & _). simpl. lia.
Qed.

Lemma lex_ok ts t :
  spaced ts t -> Forall token_ok ts -> separated ts ->
  forall f, (length t <= f)%nat -> lex f t = Some ts.
Proof.
  induction 1 as [ws Hws|ws tk ts t Hws Hsp IH]; intros Hok Hsep f Hf.
  - replace f with (length ws + (f - length ws))%nat by lia.
    pose proof (lex_ws ws [] (f - length ws) Hws) as H.
    rewrite app_nil_r in H. rewrite H. by destruct (f - length ws)%nat.
  - apply Forall_cons in Hok as [Htk Hok].
    rewrite !length_app in Hf. pose proof (token_length tk Htk) as Hlen.
    replace f with (length ws + S (f - length ws - 1))%nat by lia.
    rewrite lex_ws by done.
    set (g := (f - length ws - 1)%nat).
    assert (forall k, (k + length t <= length (token_text tk) + length t)%nat ->
                      (k <= length (token_text tk))%nat) as _ by (intros; lia).
    destruct tk; cbn [token_text app length] in *;
      try (assert (separated ts) as Hs by exact Hsep;
           cbn [lex]; cbn; rewrite (IH Hok Hs g) by (subst g; lia); done).
    + (* a string *)
      cbn [lex]. cbn. rewrite <- app_assoc. cbn [app].
      rewrite (lex_string_ok _ _ Htk).
      rewrite (IH Hok Hsep g); [done|].
      subst g. rewrite length_app in Hf. simpl in Hf. lia.
    + (* a number *)
      destruct Hsep as [Hcl Hsep].
      assert (closing ts) as Hcl' by (by destruct ts as [|[] ?]).
      pose proof (lex_number_ok _ _ Htk (spaced_delimited _ _ Hsp Hcl')) as Hn.
      destruct (number_head _ Htk) as (c & r & El & Hc).
      rewrite El in *. cbn [app lex].
      assert (json_ws c = false) as ->.
      { destruct Hc as [->|Hc]; [done|].
        apply digit_cases in Hc.
        repeat (destruct Hc as [->|Hc]; [done|]). by subst. }
      assert ((c =? 123) = false /\ (c =? 125) = false /\ (c =? 91) = false /\
              (c =? 93) = false /\ (c =? 58) = false /\ (c =? 44) = false /\
              (c =? QUOTE) = false) as (-> & -> & -> & -> & -> & -> & ->).
      { destruct Hc as [->|Hc]; [done|].
        apply digit_cases in Hc.
        repeat (destruct Hc as [->|Hc]; [done|]). by subst. }
      assert ((c =? 45) || is_digit c = true) as ->.
      { destruct Hc as [->|Hc]; [done|]. rewrite Hc. apply orb_true_r. }
      cbn [app] in Hn. rewrite Hn.
      rewrite (IH Hok Hsep g); [done|]. subst g. simpl in Hf. lia.
Qed.

(** *** Facts on the tokens of a value *)

Lemma cval_induction (P : cval -> Prop) :
  P CNull -> P CTrue -> P CFalse ->
  (forall l, P (CNum l)) -> (forall b, P (CStr b)) ->
  (forall items trailing, Forall P items -> P (CArr items trailing)) ->
  (forall members trailing,
      Forall (fun m => P m.2) members -> P (CObj members trailing)) ->
  forall v, P v.
Proof.
  intros Hnull Htrue Hfalse Hnum Hstr Harr Hobj.
  fix IH 1. intros [| | |l|b|items trailing|members trailing];
    [done..| |].
  - apply Harr. induction items as [|x items IHi]; constructor; [apply IH|done].
  - apply Hobj. induction members as [|[k x] members IHm]; constructor;
      [apply IH|done].
Qed.

Lemma valid_arr items trailing :
  valid (CArr items trailing) <-> Forall valid items.
Proof.
  cbn [valid]. induction items as [|x items IH].
  - split; [constructor|done].
  - rewrite Forall_cons. by rewrite <- IH.
Qed.

Lemma valid_obj members trailing :
  valid (CObj members trailing) <->
  Forall (fun m => json_body m.1 /\ valid m.2) members.
Proof.
  cbn [valid]. induction members as [|[k x] members IH].
  - split; [constructor|done].
  - rewrite Forall_cons. rewrite <- IH. cbn [fst snd]. tauto.
Qed.


Lemma tokens_head v : exists tk r, tokens v = tk :: r /\ opening tk.
Proof. destruct v; cbn [tokens]; by eexists _, _. Qed.

Lemma sep_by_cons {A} (tok : A -> list token) trailing x y l :
  sep_by tok trailing (x :: y :: l) =
  tok x ++ TComma :: sep_by tok trailing (y :: l).
Proof. done. Qed.

Lemma sep_by_one {A} (tok : A -> list token) trailing x :
  sep_by tok trailing [x] = tok x ++ (if trailing then [TComma] else []).
Proof. done. Qed.

#[local] Opaque sep_by.

Lemma sep_by_opening {A} (tok : A -> list token) trailing y l rest :
  (exists tk r, tok y = tk :: r /\ opening tk) ->
  exists tk r, sep_by tok trailing (y :: l) ++ rest = tk :: r /\ opening tk.
Proof.
  intros (tk & r & E & Htk). destruct l as [|z l].
  - rewrite sep_by_one, E. by eexists _, _.
  - rewrite sep_by_cons, E. by eexists _, _.
Qed.

Lemma clean_comma_opening tk r :
  opening tk -> clean (TComma :: tk :: r) = TComma :: clean (tk :: r).
Proof. by destruct tk. Qed.

(** The comma replacement on the tokens of a value. *)
Lemma clean_tokens v rest :
  clean (tokens v ++ rest) = tokens (plain v) ++ clean rest.
Proof.
  revert rest. induction v as [| | |l|b|items trailing IH|members trailing IH]
    using cval_induction; intros rest; try done.
  - cbn [tokens plain app]. rewrite <- !app_assoc. cbn [app clean]. f_equal.
    induction IH as [|x items Hx _ IHi]; [done|].
    destruct items as [|y items].
    + cbn [fmap list_fmap].
      rewrite !sep_by_one, app_nil_r, <- app_assoc, Hx. f_equal.
      by destruct trailing.
    + cbn [fmap list_fmap] in *.
      rewrite !sep_by_cons, <- !app_assoc, Hx. f_equal.
      cbn [app]. rewrite <- IHi.
      destruct (sep_by_opening tokens trailing y items (TRBracket :: rest)
                  (tokens_head y)) as (tk & r & -> & Htk).
      by apply clean_comma_opening.
  - cbn [tokens plain app]. rewrite <- !app_assoc. cbn [app clean]. f_equal.
    induction IH as [|[k x] members Hx _ IHm]; [done|]. cbn [snd] in Hx.
    destruct members as [|[k' y] members].
    + cbn [fmap list_fmap].
      rewrite !sep_by_one, app_nil_r. cbn [fst snd app clean].
      rewrite <- !app_assoc, Hx. do 3 f_equal. by destruct trailing.
    + cbn [fmap list_fmap] in *.
      rewrite !sep_by_cons. cbn [fst snd app clean].
      rewrite <- !app_assoc, Hx. do 3 f_equal.
      cbn [app fst snd] in *. rewrite <- IHm.
      edestruct (sep_by_opening (fun m : text * cval =>
                                   TString m.1 :: TColon :: tokens m.2)
                   trailing (k', y) members (TRBrace :: rest))
        as (tk & r & -> & Htk); [by eexists _, _|].
      by apply clean_comma_opening.
Qed.

(** Every token of a valid value can stand in a JSON text. *)
Lemma tokens_ok v : valid v -> Forall token_ok (tokens v).
Proof.
  induction v as [| | |l|b|items trailing IH|members trailing IH]
    using cval_induction; intros Hv; try (by repeat constructor).
  - apply valid_arr in Hv. cbn [tokens]. constructor; [done|].
    apply Forall_app_2; [|by repeat constructor].
    induction IH as [|x items Hx _ IHi]; [constructor|].
    apply Forall_cons in Hv as [Hvx Hv].
    destruct items as [|y items].
    + rewrite sep_by_one. apply Forall_app_2; [by apply Hx|].
      destruct trailing; by repeat constructor.
    + rewrite sep_by_cons. apply Forall_app_2; [by apply Hx|].
      constructor; [done|]. by apply IHi.
  - apply valid_obj in Hv. cbn [tokens]. constructor; [done|].
    apply Forall_app_2; [|by repeat constructor].
    induction IH as [|[k x] members Hx _ IHm]; [constructor|].
    apply Forall_cons in Hv as [[Hk Hvx] Hv]. cbn [fst snd] in *.
    destruct members as [|[k' y] members].
    + rewrite sep_by_one. cbn [fst snd app]. do 2 (constructor; [done|]).
      apply Forall_app_2; [by apply Hx|].
      destruct trailing; by repeat constructor.
    + rewrite sep_by_cons. cbn [fst snd app]. do 2 (constructor; [done|]).
      apply Forall_app_2; [by apply Hx|].
      constructor; [done|]. by apply IHm.
Qed.

(** In the tokens of a value a number is followed by a comma or a closing
    bracket. *)
Lemma tokens_separated v rest :
  closing rest -> separated rest -> separated (tokens v ++ rest).
Proof.
  revert rest. induction v as [| | |l|b|items trailing IH|members trailing IH]
    using cval_induction; intros rest Hcl Hsep; try done.
  - cbn [tokens app separated]. rewrite <- app_assoc. cbn [app].
    induction IH as [|x items Hx _ IHi]; [done|].
    destruct items as [|y items].
    + rewrite sep_by_one, <- app_assoc. apply Hx; by destruct trailing.
    + rewrite sep_by_cons, <- app_assoc. by apply Hx.
  - cbn [tokens app separated]. rewrite <- app_assoc. cbn [app].
    induction IH as [|[k x] members Hx _ IHm]; [done|]. cbn [snd] in Hx.
    destruct members as [|[k' y] members].
    + rewrite sep_by_one. cbn [fst snd app separated].
      rewrite <- app_assoc. apply Hx; by destruct trailing.
    + rewrite sep_by_cons. cbn [fst snd app separated].
      rewrite <- app_assoc. by apply Hx.
Qed.

(** *** Facts on the parser *)

Lemma parse_elements_S f ts acc :
  parse_elements (S f) ts acc =
  match parse_value f ts with
  | Some (v, TComma :: r) => parse_elements f r (acc ++ [v])
  | Some (v, TRBracket :: r) => Some (VArray (acc ++ [v]), r)
  | _ => None
  end.
Proof. done. Qed.

Lemma parse_members_S f k r acc :
  parse_members (S f) (TString k :: TColon :: r) acc =
  match parse_value f r with
  | Some (v, TComma :: r') => parse_members f r' (obj_set (decode k) v acc)
  | Some (v, TRBrace :: r') => Some (VObject (obj_set (decode k) v acc), r')
  | _ => None
  end.
Proof. done. Qed.

Lemma parse_value_array f tk r :
  opening tk -> parse_value (S f) (TLBracket :: tk :: r) =
                parse_elements f (tk :: r) [].
Proof. by destruct tk. Qed.

Lemma parse_value_object f tk r :
  opening tk -> parse_value (S f) (TLBrace :: tk :: r) =
                parse_members f (tk :: r) [].
Proof. by destruct tk. Qed.

Lemma tokens_length v : (1 <= length (tokens v))%nat.
Proof. destruct (tokens_head v) as (tk & r & -> & _). simpl. lia. Qed.

Lemma parse_value_empty_array f rest :
  parse_value (S f) (TLBracket :: TRBracket :: rest) = Some (VArray [], rest).
Proof. done. Qed.

Lemma parse_value_empty_object f rest :
  parse_value (S f) (TLBrace :: TRBrace :: rest) = Some (VObject [], rest).
Proof. done. Qed.

Lemma parse_value_literal f tk rest v :
  match tk with
  | TNull => v = VNull
  | TTrue => v = VBool true
  | TFalse => v = VBool false
  | TNumber l => v = number_value l
  | TString b => v = VString (decode b)
  | _ => False
  end ->
  parse_value (S f) (tk :: rest) = Some (v, rest).
Proof. by destruct tk; intros H; try done; subst. Qed.

#[local] Opaque parse_value parse_elements parse_members.

Section Elements.
Variable P : cval -> Prop.
Hypothesis P_parse : forall x, P x -> forall rest f,
  (length (tokens (plain x)) <= f)%nat ->
  parse_value f (tokens (plain x) ++ rest) = Some (cvalue (plain x), rest).

Lemma parse_elements_ok items :
  Forall P items -> items <> [] -> forall acc rest f,
  (length (sep_by tokens false (plain <$> items)) + 1 <= f)%nat ->
  parse_elements f (sep_by tokens false (plain <$> items) ++ TRBracket :: rest)
                 acc =
  Some (VArray (acc ++ (cvalue <$> (plain <$> items))), rest).
Proof.
  induction 1 as [|x items Hx _ IH]; [done|]. intros _ acc rest f Hf.
  destruct f as [|f]; [lia|]. rewrite parse_elements_S.
  destruct items as [|y items]; cbn [fmap list_fmap] in *.
  - rewrite sep_by_one, app_nil_r in *.
    rewrite (P_parse x Hx) by lia. done.
  - rewrite sep_by_cons in *. rewrite length_app in Hf. cbn [length] in Hf.
    rewrite <- app_assoc. rewrite (P_parse x Hx) by lia. cbn [app].
    rewrite IH; [|done|]. 
    + by rewrite <- app_assoc.
    + pose proof (tokens_length (plain x)). lia.
Qed.

Lemma parse_members_ok (members : list (text * cval)) :
  Forall (fun m => P m.2) members -> members <> [] -> forall acc rest f,
  (length (sep_by (fun m : text * cval => TString m.1 :: TColon :: tokens m.2)
             false
             ((fun m => (stripTrailingCommas m.1, plain m.2)) <$> members))
   + 1 <= f)%nat ->
  parse_members f
    (sep_by (fun m : text * cval => TString m.1 :: TColon :: tokens m.2) false
       ((fun m => (stripTrailingCommas m.1, plain m.2)) <$> members) ++
     TRBrace :: rest) acc =
  Some (VObject (foldl (fun acc m => obj_set (decode m.1) (cvalue m.2) acc) acc
                   ((fun m => (stripTrailingCommas m.1, plain m.2)) <$> members)),
        rest).
Proof.
  induction 1 as [|[k x] members Hx _ IH]; [done|]. intros _ acc rest f Hf.
  destruct f as [|f]; [simpl in Hf; lia|].
  destruct members as [|[k' y] members]; cbn [fmap list_fmap fst snd] in *.
  - rewrite sep_by_one, app_nil_r in *. cbn [fst snd app length] in *.
    rewrite parse_members_S. rewrite (P_parse x Hx) by lia. done.
  - rewrite sep_by_cons in *. cbn [fst snd app length] in *.
    rewrite length_app in Hf. cbn [length] in Hf.
    rewrite parse_members_S.
    rewrite <- app_assoc. rewrite (P_parse x Hx) by lia. cbn [app].
    rewrite IH; [done|done|]. lia.
Qed.
End Elements.

(** The parser accepts the tokens of a value without trailing commas and
    builds its value. *)
Lemma parse_value_ok v rest f :
  (length (tokens (plain v)) <= f)%nat ->
  parse_value f (tokens (plain v) ++ rest) = Some (cvalue (plain v), rest).
Proof.
  revert rest f. induction v as [| | |l|b|items trailing IH|members trailing IH]
    using cval_induction; intros rest f Hf;
    try (destruct f as [|f]; [simpl in Hf; lia|];
         by apply parse_value_literal).
  - destruct f as [|f]; [simpl in Hf; lia|].
    cbn [plain tokens app] in *. rewrite <- app_assoc. cbn [app].
    destruct items as [|x items].
    + apply parse_value_empty_array.
    + destruct (sep_by_opening tokens false (plain x) (plain <$> items)
                  (TRBracket :: rest) (tokens_head (plain x)))
        as (tk & r & E & Htk).
      cbn [fmap list_fmap] in *. rewrite E, parse_value_array, <- E by done.
      rewrite (parse_elements_ok (fun x => forall rest f,
        (length (tokens (plain x)) <= f)%nat ->
        parse_value f (tokens (plain x) ++ rest) = Some (cvalue (plain x), rest)))
        with (items := x :: items); [done|done|done|done|].
      cbn [fmap list_fmap]. cbn [length] in Hf. rewrite length_app in Hf.
      simpl in Hf. lia.
  - destruct f as [|f]; [simpl in Hf; lia|].
    cbn [plain tokens app] in *. rewrite <- app_assoc. cbn [app].
    destruct members as [|[k x] members].
    + apply parse_value_empty_object.
    + edestruct (sep_by_opening
                  (fun m : text * cval => TString m.1 :: TColon :: tokens m.2)
                  false (stripTrailingCommas k, plain x)
                  ((fun m => (stripTrailingCommas m.1, plain m.2)) <$> members)
                  (TRBrace :: rest))
        as (tk & r & E & Htk); [by eexists _, _|].
      cbn [fmap list_fmap fst snd] in *.
      rewrite E, parse_value_object, <- E by done.
      rewrite (parse_members_ok (fun x => forall rest f,
        (length (tokens (plain x)) <= f)%nat ->
        parse_value f (tokens (plain x) ++ rest) = Some (cvalue (plain x), rest)))
        with (members := (k, x) :: members); [done|done|done|done|].
      cbn [fmap list_fmap fst snd]. cbn [length] in Hf.
      rewrite length_app in Hf. simpl in Hf. lia.
Qed.

(** *** The rewrite of the file *)

(** [JSON.parse] accepts what v3.1.0 strips a configuration text to. *)
Lemma parse_doc d :
  doc_ok d ->
  JSON_parse (stripJsonComments_v31 (doc_text d)) =
  Some (cvalue (plain (d_value d))).
Proof.
  intros (_ & Hv & Hg & Ht).
  pose proof (tokens_ok _ Hv) as Hok.
  pose proof (scan_layout _ _ (d_tail d) Hok Hg Ht) as Hsp.
  apply strip_spaced in Hsp as [Hsp Hok']; [|done].
  pose proof (clean_tokens (d_value d) []) as Hc.
  cbn [clean] in Hc. rewrite !app_nil_r in Hc.
  rewrite Hc in Hsp, Hok'.
  pose proof (tokens_separated (plain (d_value d)) [] I I) as Hs.
  rewrite app_nil_r in Hs.
  unfold JSON_parse, stripJsonComments_v31, doc_text.
  rewrite (lex_ok _ _ Hsp Hok' Hs) by done.
  pose proof (parse_value_ok (d_value d) []
                (S (length (tokens (plain (d_value d))))) ltac:(lia)) as Hp.
  rewrite app_nil_r in Hp. by rewrite Hp.
Qed.

Lemma split_last_brace_spec t b a :
  split_last_brace t = Some (b, a) ->
  t = b ++ a /\ exists a', a = RBRACE :: a' /\ split_last_brace a' = None.
Proof.
  revert b a. induction t as [|c t IH]; intros b a; [done|].
  cbn [split_last_brace].
  destruct (split_last_brace t) as [[b' a0]|] eqn:E.
  - intros [= <- <-]. destruct (IH _ _ eq_refl) as (-> & a' & -> & Ha').
    split; [done|]. by exists a'.
  - destruct (c =? RBRACE) eqn:Ec; [|done]. intros [= <- <-].
    apply N.eqb_eq in Ec as ->. split; [done|]. by exists t.
Qed.

Lemma split_last_brace_none t : split_last_brace t = None <-> RBRACE ∉ t.
Proof.
  induction t as [|c t IH]; cbn [split_last_brace].
  - split; [intros _; apply not_elem_of_nil|done].
  - rewrite not_elem_of_cons, <- IH.
    destruct (split_last_brace t) as [[b a]|].
    + split; [done|]. by intros [_ ?].
    + destruct (c =? RBRACE) eqn:Ec.
      * apply N.eqb_eq in Ec as ->. split; [done|]. by intros [? _].
      * apply N.eqb_neq in Ec. split; [done|done].
Qed.

Lemma trimEnd_spec b :
  exists ws, b = trimEnd b ++ ws /\ Forall (fun c => is_space c = true) ws /\
             match last (trimEnd b) with
             | Some c => is_space c = false
             | None => True
             end.
Proof.
  induction b as [|c b (ws & E & Hws & Hl)]; [by exists []|].
  cbn [trimEnd]. destruct (trimEnd b) as [|c' r'] eqn:Et.
  - cbn [app] in E. subst ws. destruct (is_space c) eqn:Ec.
    + exists (c :: b). split; [done|]. split; [by constructor|done].
    + exists b. split; [done|]. split; [done|]. by cbn.
  - exists ws. split; [cbn [app] in *; congruence|]. split; [done|].
    exact Hl.
Qed.

Lemma layout_token tk ts gaps :
  tk ∈ ts -> exists a b, layout gaps ts = a ++ token_text tk ++ b.
Proof.
  intros Hin. revert gaps. induction Hin as [tk ts|tk tk' ts _ IH]; intros gaps.
  - by eexists _, _.
  - destruct (IH (tl gaps)) as (a & b & E). cbn [layout]. rewrite E.
    exists (gap_text (hd [] gaps) ++ token_text tk' ++ a), b.
    by rewrite <- !app_assoc.
Qed.

(** The text of an object has a closing brace. *)
Lemma doc_text_brace d :
  match d_value d with CObj _ _ => True | _ => False end ->
  RBRACE ∈ doc_text d.
Proof.
  destruct d as [v gaps tail]. cbn [d_value]. destruct v; try done. intros _.
  unfold doc_text. cbn [d_value d_gaps d_tail].
  edestruct (layout_token TRBrace) as (a & b & ->).
  { cbn [tokens]. apply elem_of_cons. right. apply elem_of_app. right.
    apply list_elem_of_singleton. reflexivity. }
  cbn [token_text]. rewrite !elem_of_app. left. right. left. by left.
Qed.


Example sample_doc_text : doc_text sample_doc = sample_argv.
Proof. vm_compute. reflexivity. Qed.

(** v3.0.x takes the error branch on a trailing comma and leaves the file
    as it is; where the file parses, the rewrite loses the comment and
    the layout. *)
Lemma v30_rejects_and_reformats :
  JSON_parse (stripJsonComments_v30 (txt "{|  'a': 1,|}")) = None /\
  ensureDebugPort_v30
    (Host 9222 (Some (txt "{|  'a': 1,|}")) true (fun _ => false)) =
  Some (Outcome None (Some (txt "{|  'a': 1,|}"))) /\
  ensureDebugPort_v30
    (Host 9222 (Some (txt "{ 'a': 1 } // keep")) true (fun _ => false)) =
  Some (Outcome None
          (Some (txt "{|  'a': 1,|  'remote-debugging-port': 9222|}"))).
Proof. vm_compute. done. Qed.

(** In v3.1.0 the comma for the new entry lands inside a line comment that
    follows the last entry, and the file written no longer parses. *)
Example comma_lands_in_comment :
  ensureDebugPort_v31
    (Host 9222 (Some (txt "{|  'a': 1 // last|}")) true (fun _ => false)) =
  Outcome None
    (Some (txt "{|  'a': 1 // last,|    'remote-debugging-port': 9222|}")) /\
  JSON_parse (stripJsonComments_v31
                (txt "{|  'a': 1 // last,|    'remote-debugging-port': 9222|}"))
  = None.
Proof. vm_compute. done. Qed.

End Jsonc.

(** ** More on the acceptance scripts *)

Module ScriptFacts.

Import Stdlib.Strings.Ascii.
Import Script.

(** The calls of [click()] the buttons of a document have received. *)
Definition total_clicks (dom : list button) : nat :=
  foldr (fun b n => (clicks b + n)%nat) 0%nat dom.

(** The prefixes that decide the test of v3.1.0; the other three
    alternatives of the regular expression start with one of them. *)
Definition SHORT_PREFIXES : list string := ["run"; "accept"; "allow"; "yes"]%string.

Definition starts_with_any (ps : list string) (text : list N) : bool :=
  existsb (fun p => starts_with (units p) text) ps.

Lemma run_script_clicks (visit : button -> bool * button) dom :
  (forall b, clicks (visit b).2 =
             if (visit b).1 then S (clicks b) else clicks b) ->
  total_clicks (run_script visit dom).2 =
  (total_clicks dom + (run_script visit dom).1)%nat.
Proof.
  intros Hv. induction dom as [|b dom IH]; [done|].
  simpl. specialize (Hv b). destruct (visit b) as [hit b'].
  destruct (run_script visit dom) as [n dom']. simpl in *.
  rewrite Hv, IH. destruct hit; lia.
Qed.

Lemma visit_v31_clicks now b :
  clicks (visit_v31 now b).2 =
  if (visit_v31 now b).1 then S (clicks b) else clicks b.
Proof.
  unfold visit_v31. destruct (matches_v31 _); [|done].
  destruct (rendered b); [|done]. destruct (disabled b); [done|].
  by destruct (cooling now b).
Qed.

Lemma visit_v30_clicks b :
  clicks (visit_v30 b).2 = if (visit_v30 b).1 then S (clicks b) else clicks b.
Proof.
  unfold visit_v30. destruct (matches_v30 _); [|done].
  by destruct (rendered b).
Qed.

Lemma starts_with_app p1 p2 t :
  starts_with (p1 ++ p2) t = true -> starts_with p1 t = true.
Proof.
  revert t. induction p1 as [|c p1 IH]; intros t; [done|].
  destruct t as [|c' t]; [done|]. simpl.
  intros [-> H]%andb_true_iff. by rewrite (IH _ H).
Qed.

(** X1.  The number a script returns is the number of [click()] calls it made:
    under both scripts the calls the buttons have received grow by exactly
    the count returned. *)
Theorem script_count (now : Z) (dom : list button) :
  total_clicks (CDP_ACCEPT_SCRIPT now dom).2 =
  (total_clicks dom + (CDP_ACCEPT_SCRIPT now dom).1)%nat /\
  total_clicks (inline_script_v30 dom).2 =
  (total_clicks dom + (inline_script_v30 dom).1)%nat.
Proof.
  split.
  - apply run_script_clicks, visit_v31_clicks.
  - apply run_script_clicks, visit_v30_clicks.
Qed.

(** A label between a no-break space and a line separator is trimmed like
    one between spaces: the button is activated. *)
Example label_between_other_spaces :
  (CDP_ACCEPT_SCRIPT 0 [Button ([160] ++ units "Run" ++ [8232])%N true false
                                None 0]).1 = 1%nat.
Proof. reflexivity. Qed.

(** X2.  The script of v3.1.0 leaves a button exactly as it was when its label
    does not match, when it is not rendered, when it is disabled or while
    it is cooling; the inline script of v3.0.x does so for a label that
    does not match and for a button that is not rendered, and both keep
    the number and the order of the buttons. *)
Theorem script_leaves_others (now : Z) (dom : list button) (i : nat) (b : button) :
  dom !! i = Some b ->
  (actionable b = false \/ cooling now b = true ->
   (CDP_ACCEPT_SCRIPT now dom).2 !! i = Some b) /\
  (matches_v30 (toLowerCase (trim (textContent b))) = false \/
   rendered b = false ->
   (inline_script_v30 dom).2 !! i = Some b) /\
  length (CDP_ACCEPT_SCRIPT now dom).2 = length dom /\
  length (inline_script_v30 dom).2 = length dom.
Proof.
  intros Hl. unfold CDP_ACCEPT_SCRIPT, inline_script_v30.
  rewrite !(run_script_lookup _ _ _ _ Hl).
  assert (forall visit, length (run_script visit dom).2 = length dom) as Hlen.
  { intros visit. clear Hl. induction dom as [|b0 dom IH]; [done|].
    simpl. destruct (visit b0), (run_script visit dom). simpl in *.
    by rewrite IH. }
  split; [|split; [|by rewrite !Hlen]].
  - unfold actionable, visit_v31. intros [Ha|Hc].
    + destruct (matches_v31 _); [|done]. destruct (rendered b); [|done].
      by destruct (disabled b).
    + destruct (matches_v31 _); [|done]. destruct (rendered b); [|done].
      destruct (disabled b); [done|]. by rewrite Hc.
  - unfold visit_v30. intros [-> | ->]; [done|].
    by destruct (matches_v30 _).
Qed.

Lemma script_leaves_others_witness :
  let dom := [Button (units "Cancel") true false None 0;
              Button (units "Run") false false None 0;
              Button (units "Accept") true false (Some 1000) 1] in
  (CDP_ACCEPT_SCRIPT 2000 dom).2 !! 2%nat =
  Some (Button (units "Accept") true false (Some 1000) 1) /\
  (inline_script_v30 dom).2 !! 1%nat =
  Some (Button (units "Run") false false None 0).
Proof.
  intros dom. split.
  - apply (proj1 (script_leaves_others 2000 dom 2 _ eq_refl)).
    right. reflexivity.
  - apply (proj1 (proj2 (script_leaves_others 2000 dom 1 _ eq_refl))).
    right. reflexivity.
Defined.

(** X3.  The label test of v3.1.0 accepts exactly the texts that start, in any
    case, with run, accept, allow or yes: so it accepts longer words such
    as Running or Yesterday, and the alternatives Accept All, Allow Once
    and Allow This Conversation add nothing. *)
Theorem label_prefixes (text : list N) :
  matches_v31 text = starts_with_any SHORT_PREFIXES (toLowerCase text).
Proof.
  unfold matches_v31, starts_with_any, ACCEPT_PREFIXES, SHORT_PREFIXES.
  cbn [existsb]. set (t := toLowerCase text).
  change (toLowerCase (units "Run")) with (units "run").
  change (toLowerCase (units "Accept")) with (units "accept").
  change (toLowerCase (units "Accept All"))
    with (units "accept" ++ units " all").
  change (toLowerCase (units "Allow")) with (units "allow").
  change (toLowerCase (units "Allow Once"))
    with (units "allow" ++ units " once").
  change (toLowerCase (units "Allow This Conversation"))
    with (units "allow" ++ units " this conversation").
  change (toLowerCase (units "Yes")) with (units "yes").
  pose proof (starts_with_app (units "accept") (units " all") t) as H1.
  pose proof (starts_with_app (units "allow") (units " once") t) as H2.
  pose proof (starts_with_app (units "allow") (units " this conversation") t)
    as H3.
  destruct (starts_with (units "run") t); [done|].
  destruct (starts_with (units "accept") t); [done|].
  destruct (starts_with (units "accept" ++ units " all") t);
    [by discriminate H1|].
  destruct (starts_with (units "allow") t); [done|].
  destruct (starts_with (units "allow" ++ units " once") t);
    [by discriminate H2|].
  destruct (starts_with (units "allow" ++ units " this conversation") t);
    [by discriminate H3|].
  by rewrite !orb_false_r.
Qed.

End ScriptFacts.

(** ** More on [stripJsonComments] *)

Module StripFacts.

Import Strip.

Local Open Scope N_scope.

(** The line feeds of a text. *)
Definition line_feeds (t : text) : nat := length (filter (fun c => c = LF) t).

Lemma skip_line_length t : (length (skip_line t) <= length t)%nat.
Proof.
  induction t as [|c t IH]; [done|]. simpl. destruct (c =? LF); lia.
Qed.

Lemma scan_comment_start rest :
  scan false false (SLASH :: SLASH :: rest) =
  LF :: scan false false (skip_line rest).
Proof.
  rewrite scan_open_comment. cbn [skip_line].
  by assert ((SLASH =? LF) = false) as -> by done.
Qed.

(** The cases of one round of the loop. *)
Lemma scan_cases inString escape ch rest :
  (scan inString escape (ch :: rest) =
     ch :: scan (if escape then inString
                 else if (ch =? BACKSLASH) && inString then inString
                 else if ch =? QUOTE then negb inString else inString)
                (negb escape && (ch =? BACKSLASH) && inString) rest /\
   (escape = true \/ inString = true \/ ch <> SLASH \/
    match rest with c :: _ => c =? SLASH | [] => false end = false)) \/
  (escape = false /\ inString = false /\ ch = SLASH /\
   exists rest', rest = SLASH :: rest' /\
     scan inString escape (ch :: rest) =
     LF :: scan false false (skip_line rest')).
Proof.
  destruct escape; [left; split; [reflexivity|by left]|].
  destruct inString.
  - left. split; [|by right; left]. cbn [scan negb andb].
    rewrite andb_true_r. destruct (ch =? BACKSLASH) eqn:Eb; [done|].
    cbn [andb]. by destruct (ch =? QUOTE).
  - destruct (ch =? SLASH) eqn:Es.
    + apply N.eqb_eq in Es as ->.
      destruct rest as [|c rest']; [left; split; [done|by do 3 right]|].
      destruct (c =? SLASH) eqn:Ec.
      * apply N.eqb_eq in Ec as ->. right. repeat split; try done.
        exists rest'. split; [done|]. apply scan_comment_start.
      * left. split; [|by do 3 right]. cbn [scan negb andb].
        rewrite Ec. done.
    + left. split; [|do 2 right; left; by apply N.eqb_neq].
      cbn [scan negb andb]. rewrite Es, andb_false_r. cbn [andb].
      by destruct (ch =? QUOTE).
Qed.

Lemma scan_head inString escape t :
  match t with c :: _ => c =? SLASH | [] => false end = false ->
  match scan inString escape t with c :: _ => c =? SLASH | [] => false end
  = false.
Proof.
  destruct t as [|c t]; [done|]. intros Hc.
  destruct (scan_cases inString escape c t) as [[-> _]|(_ & _ & -> & _)];
    [done|by rewrite N.eqb_refl in Hc].
Qed.

Lemma scan_twice n : forall t inString escape,
  (length t <= n)%nat ->
  scan inString escape (scan inString escape t) = scan inString escape t.
Proof.
  induction n as [|n IH]; intros t inString escape Hn;
    (destruct t as [|ch rest]; [done|]); simpl in Hn; [lia|].
  destruct (scan_cases inString escape ch rest)
    as [[E Hplain]|(-> & -> & -> & rest' & -> & E)]; rewrite E.
  - set (s' := if escape then inString else _) in *.
    set (e' := negb escape && (ch =? BACKSLASH) && inString) in *.
    destruct (scan_cases inString escape ch (scan s' e' rest))
      as [[E2 _]|(-> & -> & -> & r2 & Er & _)].
    + rewrite E2. fold s' e'. f_equal. apply IH. lia.
    + exfalso. destruct Hplain as [?|[?|[?|Hh]]]; try done.
      apply (scan_head s' e') in Hh. rewrite Er in Hh.
      by rewrite N.eqb_refl in Hh.
  - assert (scan false false (LF :: scan false false (skip_line rest')) =
            LF :: scan false false (scan false false (skip_line rest'))) as ->
      by done.
    f_equal. apply IH. pose proof (skip_line_length rest'). simpl in Hn. lia.
Qed.

Lemma line_feeds_cons c t :
  line_feeds (c :: t) = ((if (c =? LF)%N then 1 else 0) + line_feeds t)%nat.
Proof.
  unfold line_feeds. rewrite filter_cons.
  destruct (decide (c = LF)) as [->|Hne]; [done|].
  by apply N.eqb_neq in Hne as ->.
Qed.

Lemma line_feeds_skip t :
  line_feeds t = (if bool_decide (LF ∈ t) then
                    S (line_feeds (skip_line t)) else 0)%nat.
Proof.
  induction t as [|c t IH]; [done|]. rewrite line_feeds_cons. cbn [skip_line].
  destruct (c =? LF) eqn:E.
  - apply N.eqb_eq in E as ->. rewrite bool_decide_eq_true_2; [done|by left].
  - apply N.eqb_neq in E. rewrite IH. cbn [Nat.add].
    destruct (bool_decide (LF ∈ t)) eqn:Hin.
    + apply bool_decide_eq_true in Hin.
      rewrite bool_decide_eq_true_2; [done|by right].
    + apply bool_decide_eq_false in Hin. rewrite bool_decide_eq_false_2; [done|].
      by intros [?|?]%elem_of_cons.
Qed.

Lemma skip_line_last t :
  last t = Some LF -> LF ∈ t /\ (skip_line t = [] \/ last (skip_line t) = Some LF).
Proof.
  induction t as [|c t IH]; [done|]. intros Hl. cbn [skip_line].
  destruct t as [|c' t'].
  - injection Hl as ->. split; [by left|]. by left.
  - destruct (c =? LF) eqn:E.
    + apply N.eqb_eq in E as ->. split; [by left|]. by right.
    + destruct (IH Hl) as [Hin H]. split; [by right|done].
Qed.

Lemma scan_line_feeds n : forall t inString escape,
  (length t <= n)%nat ->
  (line_feeds t <= line_feeds (scan inString escape t) <= line_feeds t + 1)%nat /\
  (last t = Some LF -> line_feeds (scan inString escape t) = line_feeds t).
Proof.
  induction n as [|n IH]; intros t inString escape Hn;
    (destruct t as [|ch rest]; [by split; [cbn; lia|]|]); simpl in Hn; [lia|].
  destruct (scan_cases inString escape ch rest)
    as [[E _]|(-> & -> & -> & rest' & -> & E)]; rewrite E.
  - set (s' := if escape then inString else _).
    set (e' := negb escape && (ch =? BACKSLASH) && inString).
    destruct (IH rest s' e' ltac:(lia)) as [Hb Hl].
    rewrite !line_feeds_cons. split; [lia|].
    intros Hlast. destruct rest as [|c' r'].
    + done.
    + rewrite Hl; [done|]. exact Hlast.
  - destruct (IH (skip_line rest') false false) as [Hb Hl].
    { pose proof (skip_line_length rest'). simpl in Hn. lia. }
    rewrite !line_feeds_cons. assert ((SLASH =? LF) = false) as -> by done.
    assert ((LF =? LF) = true) as -> by done.
    rewrite (line_feeds_skip rest'). cbn [Nat.add].
    destruct (bool_decide (LF ∈ rest')) eqn:Hin.
    + split; [lia|]. intros Hlast.
      assert (last rest' = Some LF) as Hlast'.
      { destruct rest' as [|c r]; [done|exact Hlast]. }
      destruct (skip_line_last _ Hlast') as [_ [Hnil|Hl']].
      * by rewrite Hnil.
      * by rewrite Hl.
    + apply bool_decide_eq_false in Hin. split.
      * rewrite (skip_line_cut _ Hin). cbn. lia.
      * intros Hlast. exfalso. apply Hin.
        assert (last rest' = Some LF) as Hlast'.
        { destruct rest' as [|c r]; [done|exact Hlast]. }
        by destruct (skip_line_last _ Hlast') as [? _].
Qed.

Lemma stripTrailingCommas_line_feeds t :
  line_feeds (stripTrailingCommas t) = line_feeds t.
Proof.
  induction t as [|c t IH]; [done|]. cbn [stripTrailingCommas].
  destruct (c =? COMMA) eqn:E.
  - apply N.eqb_eq in E as ->. cbn [andb]. destruct (closes t).
    + by rewrite line_feeds_cons, IH.
    + by rewrite !line_feeds_cons, IH.
  - cbn [andb]. by rewrite !line_feeds_cons, IH.
Qed.

(** X4.  Stripping a stripped text changes nothing more (v3.0.x). *)
Theorem strip_idempotent (t : text) :
  stripJsonComments_v30 (stripJsonComments_v30 t) = stripJsonComments_v30 t.
Proof. unfold stripJsonComments_v30. by apply (scan_twice (length t)). Qed.

(** X5.  Both versions keep the lines of a text: the result has as many line
    feeds as the text, or one more, which can only be the one that stands
    for a comment the end of the text cuts off; a text that ends with a
    line feed keeps its count. *)
Theorem strip_keeps_lines (t : text) :
  (line_feeds t <= line_feeds (stripJsonComments_v30 t) <= line_feeds t + 1)%nat /\
  line_feeds (stripJsonComments_v31 t) = line_feeds (stripJsonComments_v30 t) /\
  (last t = Some LF -> line_feeds (stripJsonComments_v30 t) = line_feeds t).
Proof.
  unfold stripJsonComments_v31, stripJsonComments_v30.
  destruct (scan_line_feeds (length t) t false false (le_n _)) as [Hb Hl].
  split; [done|]. split; [apply stripTrailingCommas_line_feeds|done].
Qed.

Lemma strip_keeps_lines_witness :
  line_feeds (stripJsonComments_v30 (txt "{ // a|  'k': 1 // b|}|")) = 3%nat.
Proof.
  apply (proj2 (proj2 (strip_keeps_lines (txt "{ // a|  'k': 1 // b|}|")))).
  reflexivity.
Defined.

End StripFacts.

(** ** The capped log ([log]) *)

Module Log.

(** A line of the output channel: a message handed to [log], or the line
    [log] writes after clearing the channel (its time stamp left out). *)
Inductive line := Msg (msg : string) | Cleared.

Definition MAX_LOG_LINES : nat := 1000.

(** [logLineCount] and the lines the output channel shows. *)
Record logger := Logger { logLineCount : nat; channel : list line }.

(** The state after [outputChannel = createOutputChannel(...)] at load. *)
Definition fresh : logger := Logger 0 [].

(** [function log(msg)] *)
Definition log (msg : string) (s : logger) : logger :=
  let s1 := if (MAX_LOG_LINES <=? logLineCount s)%nat
            then Logger 1 [Cleared]
            else s in
  Logger (S (logLineCount s1)) (channel s1 ++ [Msg msg]).

Definition log_all (msgs : list string) (s : logger) : logger :=
  foldl (fun acc m => log m acc) s msgs.

(** How many of the first messages are gone from the channel after [n]
    messages: none up to the cap; the channel is cleared for the first
    time when message 1001 comes, and then every 999 messages, the
    clearing line taking one of the 1000 places. *)
Definition dropped (n : nat) : nat :=
  if (n <=? MAX_LOG_LINES)%nat then 0%nat
  else (MAX_LOG_LINES +
        (MAX_LOG_LINES - 1) * ((n - S MAX_LOG_LINES) / (MAX_LOG_LINES - 1)))%nat.

(** The lines the channel is to show after the messages [msgs]: all of
    them, or the clearing line and the messages logged since the last
    clearing. *)
Definition shown (msgs : list string) : list line :=
  (if (length msgs <=? MAX_LOG_LINES)%nat then [] else [Cleared]) ++
  (Msg <$> drop (dropped (length msgs)) msgs).

Local Ltac norm :=
  change (S 1000) with 1001%nat in *; change (1000 - 1)%nat with 999%nat in *.

Lemma log_all_snoc msgs m s : log_all (msgs ++ [m]) s = log m (log_all msgs s).
Proof. unfold log_all. by rewrite foldl_app. Qed.

Lemma dropped_le n : (dropped n <= n)%nat.
Proof.
  unfold dropped, MAX_LOG_LINES. norm. destruct (n <=? 1000)%nat eqn:E; [lia|].
  apply Nat.leb_gt in E.
  pose proof (Nat.div_mod_eq (n - 1001) 999). lia.
Qed.

(** The number of lines shown after [n] messages. *)
Lemma length_shown msgs :
  length (shown msgs) =
  (if (length msgs <=? MAX_LOG_LINES)%nat then length msgs
   else 2 + (length msgs - S MAX_LOG_LINES) mod (MAX_LOG_LINES - 1))%nat.
Proof.
  unfold shown. rewrite length_app, length_fmap, length_drop.
  unfold dropped, MAX_LOG_LINES. norm.
  destruct (length msgs <=? 1000)%nat eqn:E.
  - cbn [length]. lia.
  - apply Nat.leb_gt in E. cbn [length].
    pose proof (Nat.div_mod_eq (length msgs - 1001) 999).
    pose proof (Nat.mod_upper_bound (length msgs - 1001) 999). lia.
Qed.

Lemma shown_log msgs m s :
  channel s = shown msgs -> logLineCount s = length (channel s) ->
  channel (log m s) = shown (msgs ++ [m]) /\
  logLineCount (log m s) = length (channel (log m s)).
Proof.
  intros Hch Hcnt. pose proof (length_shown msgs) as Hlen.
  rewrite <- Hch, <- Hcnt in Hlen.
  assert (logLineCount (log m s) = length (channel (log m s))) as Hcnt'.
  { unfold log. destruct (MAX_LOG_LINES <=? logLineCount s)%nat;
      cbn [logLineCount channel]; rewrite length_app; cbn [length]; lia. }
  split; [|done]. clear Hcnt'.
  unfold log, shown, dropped. rewrite length_app. cbn [length].
  unfold MAX_LOG_LINES in *. norm.
  pose proof (Nat.div_mod_eq (length msgs - 1001) 999) as Hdm.
  pose proof (Nat.mod_upper_bound (length msgs - 1001) 999 ltac:(lia)) as Hr.
  destruct (length msgs <=? 1000)%nat eqn:E.
  - apply Nat.leb_le in E. rewrite Hlen.
    destruct (1000 <=? length msgs)%nat eqn:E1.
    + apply Nat.leb_le in E1. assert (length msgs = 1000%nat) as En by lia.
      assert ((length msgs + 1 <=? 1000)%nat = false) as ->
        by (apply Nat.leb_gt; lia).
      cbn [logLineCount channel app]. f_equal.
      replace (length msgs + 1 - 1001)%nat with 0%nat by lia.
      rewrite Nat.Div0.div_0_l, Nat.mul_0_r, Nat.add_0_r.
      rewrite <- En, drop_app_length. done.
    + apply Nat.leb_gt in E1.
      assert ((length msgs + 1 <=? 1000)%nat = true) as ->
        by (apply Nat.leb_le; lia).
      cbn [app]. rewrite Hch. unfold shown, dropped, MAX_LOG_LINES. norm.
      assert ((length msgs <=? 1000)%nat = true) as ->
        by (apply Nat.leb_le; lia).
      cbn [app]. rewrite !drop_0. by rewrite fmap_app.
  - apply Nat.leb_gt in E. rewrite Hlen.
    assert ((length msgs + 1 <=? 1000)%nat = false) as ->
      by (apply Nat.leb_gt; lia).
    set (q := ((length msgs - 1001) / 999)%nat) in *.
    set (r := ((length msgs - 1001) mod 999)%nat) in *.
    destruct (1000 <=? 2 + r)%nat eqn:E1.
    + apply Nat.leb_le in E1. cbn [logLineCount channel app]. f_equal.
      assert ((length msgs + 1 - 1001) / 999 = S q)%nat as ->.
      { symmetry. apply (Nat.div_unique _ 999 (S q) 0); lia. }
      replace (1000 + 999 * S q)%nat with (length msgs) by lia.
      by rewrite drop_app_length.
    + apply Nat.leb_gt in E1.
      assert ((length msgs + 1 - 1001) / 999 = q)%nat as ->.
      { symmetry. apply (Nat.div_unique _ 999 q (S r)); lia. }
      rewrite Hch. unfold shown, dropped, MAX_LOG_LINES. norm.
      assert ((length msgs <=? 1000)%nat = false) as ->
        by (apply Nat.leb_gt; lia).
      fold q. cbn [app]. f_equal.
      rewrite drop_app_le by lia. by rewrite fmap_app.
Qed.

(** X6.  After any number of messages from load on, the channel shows
    exactly the most recent messages, in order and without a gap: all of
    them while they are at most [MAX_LOG_LINES]; after that the clearing
    line followed by every message since the last clearing, the first
    clearing coming with message 1001 and each later one 999 messages
    after the one before.  [logLineCount] equals the number of lines
    shown, which never exceeds [MAX_LOG_LINES], and the message just
    logged is the last line. *)
Theorem log_capped (msgs : list string) :
  let s := log_all msgs fresh in
  channel s = shown msgs /\
  logLineCount s = length (channel s) /\
  (logLineCount s <= MAX_LOG_LINES)%nat /\
  forall m, last (channel (log m s)) = Some (Msg m).
Proof.
  intros s.
  assert (channel s = shown msgs /\ logLineCount s = length (channel s))
    as [Hch Hcnt].
  { subst s. induction msgs as [|m msgs IH] using rev_ind; [done|].
    rewrite log_all_snoc. destruct IH as [H1 H2]. by apply shown_log. }
  split; [done|]. split; [done|]. split.
  - rewrite Hcnt, Hch, length_shown. unfold MAX_LOG_LINES. norm.
    destruct (length msgs <=? 1000)%nat eqn:E; [by apply Nat.leb_le|].
    pose proof (Nat.mod_upper_bound (length msgs - 1001) 999). lia.
  - intros m. unfold log. cbn [channel]. by rewrite last_snoc.
Qed.

End Log.

(** ** More on the bootstrap of the debug port *)

Module ArgvFacts.

Import Strip Json Argv Jsonc.

Local Open Scope N_scope.

(** A text of white space and line comments only, the last comment
    possibly cut off by the end of the text. *)
Definition blank_text (g : list gap_item) (tail : option text) : text :=
  gap_text g ++
  match tail with Some body => SLASH :: SLASH :: body | None => [] end.

(** The host with the file replaced by [content]. *)
Definition with_argv (content : option text) (h : host) : host :=
  Host (cdpPort h) content (writable h) (inUse h).

(** The gap at position [i] of a layout; gaps that are not given are
    empty. *)
Definition gap_at (gaps : list (list gap_item)) (i : nat) : list gap_item :=
  default [] (gaps !! i).

(** The end of a configuration text is tidy: only white space stands
    between the last entry and the closing brace of the object, and no
    closing brace follows that one, inside a comment. *)
Definition tidy_end (d : doc) : Prop :=
  let n := length (tokens (d_value d)) in
  Forall (fun g => match g with GSpace _ => True | GComment _ => False end)
         (gap_at (d_gaps d) (n - 1)) /\
  (RBRACE ∉ gap_text (gap_at (d_gaps d) n)) /\
  match d_tail d with Some body => RBRACE ∉ body | None => True end.

(** The tokens up to [ts] laid out with their gaps, the gap after the
    last one left out. *)
Fixpoint lay (gaps : list (list gap_item)) (ts : list token) : text :=
  match ts with
  | [] => []
  | tk :: ts' => gap_text (hd [] gaps) ++ token_text tk ++ lay (tl gaps) ts'
  end.

(** The first [n] gaps, empty ones where none is given. *)
Fixpoint first_gaps (n : nat) (gaps : list (list gap_item))
  : list (list gap_item) :=
  match n with
  | O => []
  | S n' => hd [] gaps :: first_gaps n' (tl gaps)
  end.

(** The entry [insertPortIntoArgv] adds, as a member of an object. *)
Definition port_member (port : N) : text * cval :=
  (PORT_KEY, CNum (decimal port)).

(** The gaps of the text [insertPortIntoArgv] builds. *)
Definition new_gaps (comma : bool) (ga : list gap_item)
  : list (list gap_item) :=
  (if comma then [[]] else []) ++
  [[GSpace LF; GSpace 32; GSpace 32; GSpace 32; GSpace 32]; []; [GSpace 32];
   [GSpace LF]; ga].

Definition fresh_doc (port : N) : doc :=
  Doc (CObj [port_member port] false)
      ([] :: new_gaps false [GSpace LF]) None.

(** A token a value can end with. *)
Definition ends_value (tk : token) : Prop :=
  match tk with
  | TNull | TTrue | TFalse | TNumber _ | TString _ | TRBracket | TRBrace => True
  | _ => False
  end.

(** Whether the new entry needs a comma before it: the object has an
    entry and no comma after the last one. *)
Definition wants_comma {A} (l : list A) (trailing : bool) : bool :=
  match l with [] => false | _ => negb trailing end.

Definition member_tokens (m : text * cval) : list token :=
  TString m.1 :: TColon :: tokens m.2.

(** The configuration text [insertPortIntoArgv] builds from a tidy one. *)
Definition with_port (d : doc) (port : N) : doc :=
  match d_value d with
  | CObj members trailing =>
      Doc (CObj (members ++ [port_member port]) false)
          (first_gaps (S (length (sep_by member_tokens trailing members)))
                      (d_gaps d) ++
           new_gaps (wants_comma members trailing)
                    (gap_at (d_gaps d) (length (tokens (d_value d)))))
          (d_tail d)
  | _ => d
  end.

Definition commented_doc : doc :=
  Doc (CObj [(txt "enable-crash-reporter", CTrue)] false)
      [[GComment (txt " launch flags")]; [GSpace 32]; []; [GSpace 32];
       [GSpace 32; GComment (txt " on"); GSpace LF]; []]
      (Some (txt " end")).

(** The text [JSON.stringify] gives for an object with the port alone. *)
Definition v30_fresh (port : N) : text :=
  txt "{|  'remote-debugging-port': " ++ decimal port ++ [LF; RBRACE].

Definition v30_fresh_doc (port : N) : doc :=
  Doc (CObj [port_member port] false)
      [[]; [GSpace LF; GSpace 32; GSpace 32]; []; [GSpace 32]; [GSpace LF]; []]
      None.

(** X7.  [findAvailablePort] returns a port from the preferred one to
    six after it, none above 65535; every port before the returned one is
    taken; the returned port is free, unless all seven are valid and
    taken, in which case it is the preferred port, taken as it is.  The
    call throws exactly when every valid port from the preferred one on is
    taken and the probing reaches a port above 65535. *)
Theorem findAvailablePort_spec (inUse : N -> bool) (startPort : N) :
  match findAvailablePort inUse startPort with
  | Some p =>
      startPort <= p <= startPort + 6 /\ p <= 65535 /\
      (forall q, startPort <= q -> q < p -> inUse q = true) /\
      (inUse p = true ->
       p = startPort /\
       forall q, startPort <= q -> q <= startPort + 6 ->
                 q <= 65535 /\ inUse q = true)
  | None =>
      65535 < startPort + 6 /\
      forall q, startPort <= q -> q <= 65535 -> inUse q = true
  end.
Proof.
  unfold findAvailablePort.
  pose proof (probe_spec inUse 7 startPort) as Hs.
  change (N.of_nat 7) with 7 in Hs.
  destruct (probe inUse 7 startPort) as [p| |].
  - destruct Hs as (H1 & H2 & H3 & H4 & H5).
    split; [lia|]. split; [done|]. split; [done|]. congruence.
  - destruct (Hs startPort) as [Hr Hb]; [lia|lia|].
    split; [lia|]. split; [done|]. split; [intros q; lia|]. intros _.
    split; [done|]. intros q Hq1 Hq2. apply Hs; lia.
  - destruct Hs as [H1 H2]. split; [lia|done].
Qed.

(** *** A file without a value *)

Lemma blank_spaced g tail :
  Forall gap_item_ok g ->
  match tail with Some body => LF ∉ body | None => True end ->
  spaced [] (scan false false (blank_text g tail)).
Proof.
  intros Hg Ht.
  apply (scan_layout [] [g] tail); [constructor|by repeat constructor|done].
Qed.

Lemma spaced_nil_parse t :
  spaced [] t -> JSON_parse t = None.
Proof.
  intros Hsp. unfold JSON_parse.
  by rewrite (lex_ok [] t Hsp (Forall_nil_2 _) I (length t) (le_n _)).
Qed.

(** X8.  An existing file that holds only white space and line comments, the
    empty file among them, is never configured: both versions take the
    error branch, return null and write nothing. *)
Theorem blank_file_stays (h : host) (g : list gap_item) (tail : option text) :
  Forall gap_item_ok g ->
  match tail with Some body => LF ∉ body | None => True end ->
  argv h = Some (blank_text g tail) ->
  ensureDebugPort_v31 h = Outcome None (argv h) /\
  ensureDebugPort_v30 h = Some (Outcome None (argv h)).
Proof.
  intros Hg Ht Ha. pose proof (blank_spaced g tail Hg Ht) as Hsp. split.
  - unfold ensureDebugPort_v31. rewrite Ha.
    destruct (strip_spaced _ _ Hsp (Forall_nil_2 _)) as [Hsp' _].
    unfold stripJsonComments_v31. by rewrite (spaced_nil_parse _ Hsp').
  - unfold ensureDebugPort_v30. rewrite Ha.
    unfold stripJsonComments_v30. by rewrite (spaced_nil_parse _ Hsp).
Qed.

Lemma blank_file_stays_witness :
  let h := Host 9222 (Some (txt "  // nothing yet|")) true (fun _ => false) in
  ensureDebugPort_v31 h = Outcome None (argv h) /\
  ensureDebugPort_v30 h = Some (Outcome None (argv h)).
Proof.
  intros h.
  apply (blank_file_stays h
           [GSpace 32; GSpace 32; GComment (txt " nothing yet")] None).
  - repeat constructor. cbn. intros Hin.
    repeat (apply elem_of_cons in Hin as [Hin|Hin]; [discriminate|]).
    by apply elem_of_nil in Hin.
  - done.
  - reflexivity.
Defined.

(** *** The decimal text of a port *)

Lemma uint_text_digits u : all_digit (uint_text u).
Proof. induction u; by constructor. Qed.

Lemma digits_value_acc u acc :
  foldl (fun a d => 10 * a + (d - 48)) (N.pos acc) (uint_text u) =
  N.pos (Pos.of_uint_acc u acc).
Proof.
  revert acc. induction u as [|u IH|u IH|u IH|u IH|u IH|u IH|u IH|u IH|u IH|u IH];
    intros acc; [done|..]; cbn [uint_text foldl Pos.of_uint_acc];
    rewrite <- IH; f_equal; lia.
Qed.

Lemma digits_value_uint u : digits_value (uint_text u) = Pos.of_uint u.
Proof.
  unfold digits_value.
  induction u as [|u IH|u IH|u IH|u IH|u IH|u IH|u IH|u IH|u IH|u IH];
    [done|exact IH|..]; cbn [uint_text foldl Pos.of_uint];
    rewrite <- digits_value_acc; f_equal.
Qed.

Lemma digits_value_decimal n : digits_value (decimal n) = n.
Proof.
  unfold decimal. rewrite digits_value_uint.
  apply DecimalN.Unsigned.of_to.
Qed.

Lemma nzhead_no_zero u :
  match Decimal.nzhead u with Decimal.D0 _ => False | _ => True end.
Proof. induction u; try done. Qed.

Lemma decimal_shape n :
  decimal n = [48] \/
  exists d ds, decimal n = d :: ds /\ 49 <= d /\ d <= 57 /\ all_digit ds.
Proof.
  unfold decimal.
  assert (Decimal.unorm (N.to_uint n) = N.to_uint n) as Hn.
  { rewrite <- DecimalN.Unsigned.to_of. f_equal. apply DecimalN.Unsigned.of_to. }
  pose proof (uint_text_digits (N.to_uint n)) as Hd.
  pose proof (nzhead_no_zero (N.to_uint n)) as Hz.
  unfold Decimal.unorm in Hn.
  destruct (N.to_uint n) as [|u|u|u|u|u|u|u|u|u|u] eqn:E;
    try (right; cbn [uint_text] in *; apply Forall_cons in Hd as [_ Hd];
         eexists _, _; split; [done|]; split; [lia|]; split; [lia|done]).
  - by destruct (Decimal.nzhead Decimal.Nil).
  - left. cbn [Decimal.nzhead] in *.
    destruct (Decimal.nzhead u) eqn:Eu; try done; try discriminate Hn.
    by injection Hn as <-.
Qed.

Lemma decimal_lexeme n : number_lexeme (decimal n).
Proof.
  exists [], (decimal n), [], []. rewrite !app_nil_r.
  split; [done|]. split; [by left|]. split; [apply decimal_shape|].
  split; by left.
Qed.

Lemma decimal_value n : number_value (decimal n) = VNumber false n 0.
Proof.
  pose proof (digits_value_decimal n) as Hv.
  pose proof (uint_text_digits (N.to_uint n)) as Hd. fold (decimal n) in Hd.
  pose proof (digits_ok (decimal n) [] Hd I) as Hdig. rewrite app_nil_r in Hdig.
  destruct (decimal n) as [|d ds] eqn:E.
  { by destruct (decimal_shape n) as [H|(? & ? & H & _)]; rewrite E in H. }
  apply Forall_cons in Hd as [Hd0 _]. unfold number_value.
  apply digit_cases in Hd0.
  repeat (destruct Hd0 as [->|Hd0];
          [rewrite Hdig; cbn [app length]; by rewrite app_nil_r, Hv|]).
  subst d. rewrite Hdig. cbn [app length]. by rewrite app_nil_r, Hv.
Qed.

(** *** The file written from scratch *)

Lemma port_key_body : json_body PORT_KEY.
Proof.
  unfold PORT_KEY. vm_compute.
  repeat (first [apply jb_nil | apply jb_char; [done|done|done|]]).
Qed.

Lemma fresh_doc_text port : doc_text (fresh_doc port) = fresh_argv port.
Proof.
  unfold doc_text, fresh_doc, fresh_argv, key_line.
  cbn [d_value d_gaps d_tail]. rewrite app_nil_r.
  cbn -[decimal txt]. rewrite <- !app_assoc. reflexivity.
Qed.

Lemma fresh_doc_ok port : doc_ok (fresh_doc port).
Proof.
  split; [done|]. split; [|split; [|done]].
  - cbn. split; [apply port_key_body|]. split; [apply decimal_lexeme|done].
  - by repeat constructor.
Qed.

Lemma obj_get_set k v props : obj_get k (obj_set k v props) = Some v.
Proof.
  induction props as [|[k' v'] props IH]; simpl.
  - by rewrite decide_True.
  - destruct (decide (k' = k)) as [->|Hne]; simpl.
    + by rewrite decide_True.
    + by rewrite decide_False.
Qed.

Lemma port_truthy port :
  port <> 0 -> truthy (Found (VNumber false port 0)) = true.
Proof.
  intros Hp. cbn. unfold is_zero.
  apply N.eqb_neq in Hp as ->. done.
Qed.

(** A file whose stripped text parses to an object with a non-zero
    number under the key is left alone, and its port returned. *)
Lemma configured_returns h content props port :
  argv h = Some content ->
  JSON_parse (stripJsonComments_v31 content) = Some (VObject props) ->
  obj_get PORT_KEY props = Some (VNumber false port 0) -> port <> 0 ->
  ensureDebugPort_v31 h = Outcome (Some (VNumber false port 0)) (Some content).
Proof.
  intros Ha Hp Hg Hport. unfold ensureDebugPort_v31. rewrite Ha, Hp.
  cbn [get]. rewrite Hg. by rewrite (port_truthy port Hport).
Qed.

(** X9.  When no file exists and the directory can be written,
    [ensureDebugPort] of v3.1.0 writes the template with the port
    [findAvailablePort] returns, and the file written is one it reads
    back: called again on it, it returns that port and writes nothing,
    provided the port is not 0.  When [findAvailablePort] throws, nothing
    is written. *)
Theorem fresh_file_reads_back (h : host) :
  argv h = None -> writable h = true ->
  match findAvailablePort (inUse h) (cdpPort h) with
  | Some port =>
      ensureDebugPort_v31 h = Outcome None (Some (fresh_argv port)) /\
      (port <> 0 ->
       ensureDebugPort_v31 (with_argv (Some (fresh_argv port)) h) =
       Outcome (Some (VNumber false port 0)) (Some (fresh_argv port)))
  | None => ensureDebugPort_v31 h = Outcome None None
  end.
Proof.
  intros Ha Hw.
  destruct (findAvailablePort (inUse h) (cdpPort h)) as [port|] eqn:Hport.
  - split.
    + unfold ensureDebugPort_v31. rewrite Ha, Hport. cbn. unfold write.
      by rewrite Hw.
    + intros Hne.
      eapply configured_returns; [done| |apply obj_get_set|done].
      rewrite <- fresh_doc_text, (parse_doc _ (fresh_doc_ok port)).
      cbn [fresh_doc d_value plain cvalue fmap list_fmap foldl port_member fst snd].
      rewrite decimal_value.
      by assert (decode (stripTrailingCommas PORT_KEY) = PORT_KEY) as ->
        by (by vm_compute).
  - unfold ensureDebugPort_v31. by rewrite Ha, Hport.
Qed.

Lemma fresh_file_reads_back_witness :
  let h := Host 9222 None true (fun p => p =? 9222) in
  ensureDebugPort_v31 h = Outcome None (Some (fresh_argv 9223)) /\
  ensureDebugPort_v31 (with_argv (Some (fresh_argv 9223)) h) =
  Outcome (Some (VNumber false 9223 0)) (Some (fresh_argv 9223)).
Proof.
  intros h.
  pose proof (fresh_file_reads_back h eq_refl eq_refl) as H.
  change (findAvailablePort (inUse h) (cdpPort h)) with (Some 9223) in H.
  destruct H as [H1 H2]. split; [exact H1|]. by apply H2.
Defined.

(** *** The file rewritten in place *)

Lemma layout_app gaps ts1 ts2 :
  layout gaps (ts1 ++ ts2) = lay gaps ts1 ++ layout (drop (length ts1) gaps) ts2.
Proof.
  revert gaps. induction ts1 as [|tk ts1 IH]; intros gaps; [done|].
  cbn [app layout lay length]. rewrite IH, <- !app_assoc.
  destruct gaps; [|done]. cbn [tl]. by rewrite !drop_nil.
Qed.

Lemma layout_build gaps gaps2 ts1 ts2 :
  layout (first_gaps (length ts1) gaps ++ gaps2) (ts1 ++ ts2) =
  lay gaps ts1 ++ layout gaps2 ts2.
Proof.
  revert gaps. induction ts1 as [|tk ts1 IH]; intros gaps; [done|].
  cbn [app layout lay length first_gaps hd tl]. by rewrite IH, <- !app_assoc.
Qed.

Lemma lay_snoc gaps ts tk :
  lay gaps (ts ++ [tk]) =
  lay gaps ts ++ gap_text (gap_at gaps (length ts)) ++ token_text tk.
Proof.
  revert gaps. induction ts as [|tk0 ts IH]; intros gaps.
  - cbn [app lay length]. rewrite app_nil_r. by destruct gaps.
  - cbn [app lay length]. rewrite IH, <- !app_assoc. by destruct gaps.
Qed.

Lemma hd_drop gaps n : hd [] (drop n gaps) = gap_at gaps n.
Proof.
  revert gaps. induction n as [|n IH]; intros [|g gaps]; try done.
  apply IH.
Qed.

Lemma tl_drop (gaps : list (list gap_item)) n : tl (drop n gaps) = drop (S n) gaps.
Proof.
  revert gaps. induction n as [|n IH]; intros [|g gaps]; try done.
  apply IH.
Qed.

Lemma gaps_ok_at gaps n :
  Forall (Forall gap_item_ok) gaps -> Forall gap_item_ok (gap_at gaps n).
Proof.
  intros Hg. unfold gap_at. destruct (gaps !! n) as [g|] eqn:E; [|constructor].
  by apply (Forall_lookup_1 _ _ _ _ Hg E).
Qed.

Lemma first_gaps_ok n gaps :
  Forall (Forall gap_item_ok) gaps ->
  Forall (Forall gap_item_ok) (first_gaps n gaps).
Proof.
  revert gaps. induction n as [|n IH]; intros gaps Hg; [constructor|].
  destruct (hd_ok gaps Hg) as [Hh Ht]. constructor; [done|by apply IH].
Qed.

(** The text of a configuration around its last token. *)
Lemma doc_text_split d ts1 tk :
  tokens (d_value d) = ts1 ++ [tk] ->
  doc_text d =
  (lay (d_gaps d) ts1 ++ gap_text (gap_at (d_gaps d) (length ts1))) ++
  token_text tk ++
  (gap_text (gap_at (d_gaps d) (S (length ts1))) ++
   match d_tail d with Some body => SLASH :: SLASH :: body | None => [] end).
Proof.
  intros E. unfold doc_text. rewrite E, layout_app. cbn [layout].
  rewrite hd_drop, tl_drop, hd_drop. by rewrite <- !app_assoc.
Qed.

Lemma split_last_brace_app b a :
  RBRACE ∉ a -> split_last_brace (b ++ RBRACE :: a) = Some (b, RBRACE :: a).
Proof.
  intros Ha. induction b as [|c b IH].
  - cbn [app split_last_brace].
    apply split_last_brace_none in Ha as ->. done.
  - cbn [app split_last_brace]. by rewrite IH.
Qed.

Lemma trimEnd_spaces b ws c :
  last b = Some c -> is_space c = false ->
  Forall (fun x => is_space x = true) ws -> trimEnd (b ++ ws) = b.
Proof.
  intros Hl Hc Hws. induction b as [|x b IH]; [done|].
  cbn [app trimEnd]. destruct b as [|y b].
  - injection Hl as ->. cbn [app].
    assert (trimEnd ws = []) as ->.
    { clear -Hws. induction Hws as [|w ws Hw _ IH]; [done|].
      cbn [trimEnd]. by rewrite IH, Hw. }
    by rewrite Hc.
  - rewrite IH by done. done.
Qed.

Lemma sep_by_last {A} (tok : A -> list token) trailing (l : list A) :
  l <> [] ->
  (forall x, x ∈ l -> exists ts tk, tok x = ts ++ [tk] /\ ends_value tk) ->
  exists ts tk, sep_by tok trailing l = ts ++ [tk] /\
                if trailing then tk = TComma else ends_value tk.
Proof.
  intros Hne Hall. induction l as [|x l IH]; [done|].
  destruct l as [|y l].
  - rewrite sep_by_one. destruct (Hall x) as (ts & tk & E & Htk); [by left|].
    destruct trailing.
    + exists (tok x), TComma. done.
    + exists ts, tk. by rewrite app_nil_r.
  - rewrite sep_by_cons. destruct IH as (ts & tk & E & Htk); [done| |].
    { intros z Hz. apply Hall. by right. }
    rewrite E. exists (tok x ++ TComma :: ts), tk.
    by rewrite <- app_assoc.
Qed.

Lemma tokens_last v : exists ts tk, tokens v = ts ++ [tk] /\ ends_value tk.
Proof.
  destruct v as [| | |l|b|items trailing|members trailing]; cbn [tokens];
    try (by eexists [], _; split; [reflexivity|]).
  - exists (TLBracket :: sep_by tokens trailing items), TRBracket. done.
  - eexists (TLBrace :: _), TRBrace. done.
Qed.

Lemma number_last l :
  number_lexeme l -> exists c, last l = Some c /\ is_digit c = true.
Proof.
  intros (sign & int & frac & ex & -> & Hs & Hi & Hf & He).
  assert (forall (a : text) d ds, all_digit (d :: ds) ->
            exists c, last (a ++ d :: ds) = Some c /\ is_digit c = true) as Hlast.
  { intros a d ds Hd. rewrite last_app.
    destruct (last (d :: ds)) as [c|] eqn:E.
    - exists c. split; [done|].
      apply last_Some_elem_of in E. by apply (proj1 (Forall_forall _ _) Hd).
    - by apply last_None in E. }
  destruct He as [->|(e & sg & d & ds & -> & _ & _ & Hd)].
  - rewrite app_nil_r.
    destruct Hf as [->|(d & ds & -> & Hd)].
    + rewrite app_nil_r.
      destruct Hi as [->|(d & ds & -> & H1 & H2 & Hd)].
      * exists 48. by rewrite last_snoc.
      * apply Hlast. constructor; [|done].
        unfold is_digit. apply andb_true_iff. split; apply N.leb_le; lia.
    + rewrite app_assoc.
      change (46 :: d :: ds) with ([46] ++ d :: ds). rewrite app_assoc.
      by apply Hlast.
  - assert (sign ++ int ++ frac ++ e :: sg ++ d :: ds =
            (sign ++ int ++ frac ++ e :: sg) ++ d :: ds) as ->.
    { by rewrite <- !app_assoc. }
    by apply Hlast.
Qed.

Lemma ends_value_char tk :
  token_ok tk -> ends_value tk ->
  exists c, last (token_text tk) = Some c /\ value_end c = true /\
            is_space c = false.
Proof.
  destruct tk; intros Hok He; try done; cbn [token_text];
    try (by eexists; split; [reflexivity|]).
  - exists QUOTE. by rewrite app_comm_cons, last_snoc.
  - destruct (number_last _ Hok) as (c & Hl & Hd). exists c.
    split; [done|]. apply digit_cases in Hd.
    repeat (destruct Hd as [->|Hd]; [done|]). by subst.
Qed.

Lemma lay_last gaps ts tk c :
  last (token_text tk) = Some c -> last (lay gaps (ts ++ [tk])) = Some c.
Proof.
  intros Hl. rewrite lay_snoc, !last_app. by rewrite Hl.
Qed.

Lemma gap_spaces g :
  Forall gap_item_ok g ->
  Forall (fun i => match i with GSpace _ => True | GComment _ => False end) g ->
  Forall (fun c => is_space c = true) (gap_text g).
Proof.
  intros Hok Hsp. induction Hok as [|[c|body] g Hi Hg IH]; [constructor|..].
  - apply Forall_cons in Hsp as [_ Hsp]. cbn [gap_text gap_item_text app].
    constructor; [by apply json_ws_space|by apply IH].
  - by apply Forall_cons in Hsp as [[] _].
Qed.

#[local] Opaque sep_by.

Lemma sep_by_snoc {A} (tok : A -> list token) trailing (l : list A) x :
  sep_by tok false (l ++ [x]) =
  sep_by tok trailing l ++
  (if wants_comma l trailing then [TComma] else []) ++ tok x.
Proof.
  induction l as [|y l IH].
  - cbn [app wants_comma]. by rewrite sep_by_one, app_nil_r.
  - destruct l as [|z l].
    + cbn [app wants_comma] in *. rewrite sep_by_cons, !sep_by_one, app_nil_r.
      rewrite <- !app_assoc. by destruct trailing.
    + cbn [app wants_comma] in *. rewrite !sep_by_cons, IH.
      by rewrite <- !app_assoc.
Qed.

Lemma obj_tokens members trailing :
  tokens (CObj members trailing) =
  (TLBrace :: sep_by member_tokens trailing members) ++ [TRBrace].
Proof. done. Qed.

(** The last token before the closing brace of an object, and the
    character it ends with. *)
Lemma obj_last members trailing :
  valid (CObj members trailing) ->
  exists ts0 tk c,
    TLBrace :: sep_by member_tokens trailing members = ts0 ++ [tk] /\
    last (token_text tk) = Some c /\ is_space c = false /\
    value_end c = wants_comma members trailing.
Proof.
  intros Hv. pose proof (tokens_ok _ Hv) as Hok. rewrite obj_tokens in Hok.
  apply Forall_app in Hok as [Hok _].
  destruct members as [|m members].
  - exists [], TLBrace, 123. done.
  - destruct (sep_by_last member_tokens trailing (m :: members))
      as (ts & tk & E & Htk); [done| |].
    { intros x _. destruct (tokens_last x.2) as (ts & tk & E & Htk).
      exists (TString x.1 :: TColon :: ts), tk. unfold member_tokens.
      by rewrite E. }
    rewrite E in Hok. exists (TLBrace :: ts), tk.
    destruct trailing.
    + subst tk. exists 44. by rewrite E.
    + assert (token_ok tk) as Htok.
      { apply Forall_cons in Hok as [_ Hok].
        apply Forall_app in Hok as [_ Hok]. by apply Forall_cons in Hok as [? _]. }
      destruct (ends_value_char tk Htok Htk) as (c & Hl & Hv' & Hs).
      exists c. by rewrite E.
Qed.

Lemma with_port_ok d port : doc_ok d -> doc_ok (with_port d port).
Proof.
  intros (Hobj & Hv & Hg & Ht). unfold with_port.
  destruct (d_value d) as [| | | | | |members trailing] eqn:E; try done.
  split; [done|]. split; [|split; [|done]].
  - cbn [d_value]. apply valid_obj. apply valid_obj in Hv.
    apply Forall_app_2; [done|]. constructor; [|constructor].
    split; [apply port_key_body|apply decimal_lexeme].
  - cbn [d_gaps]. apply Forall_app_2; [by apply first_gaps_ok|].
    unfold new_gaps. apply Forall_app_2.
    + destruct (wants_comma _ _); by repeat constructor.
    + repeat (constructor; [by repeat constructor|]).
      constructor; [by apply gaps_ok_at|constructor].
Qed.

Lemma with_port_value d port members trailing :
  d_value d = CObj members trailing ->
  cvalue (plain (d_value (with_port d port))) =
  match cvalue (plain (d_value d)) with
  | VObject props => VObject (obj_set PORT_KEY (VNumber false port 0) props)
  | v => v
  end.
Proof.
  intros E. unfold with_port. rewrite E. cbn [d_value plain cvalue].
  rewrite fmap_app, foldl_app.
  cbn [fmap list_fmap foldl port_member fst snd plain cvalue].
  rewrite decimal_value.
  by assert (decode (stripTrailingCommas PORT_KEY) = PORT_KEY) as ->
    by (by vm_compute).
Qed.

Lemma with_port_text d port :
  doc_ok d -> tidy_end d ->
  insertPortIntoArgv (doc_text d) port = doc_text (with_port d port).
Proof.
  intros (Hobj & Hv & Hg & Ht) Htidy. unfold tidy_end in Htidy.
  unfold with_port, doc_text at 2.
  destruct (d_value d) as [| | | | | |members trailing] eqn:E; try done.
  cbn [d_value d_gaps d_tail].
  destruct (obj_last members trailing Hv) as (ts0 & tk & c & E1 & Hl & Hs & Hc).
  assert (tokens (d_value d) =
          (TLBrace :: sep_by member_tokens trailing members) ++ [TRBrace]) as Et
    by (by rewrite E).
  rewrite (doc_text_split d _ TRBrace Et).
  rewrite obj_tokens, length_app in Htidy |- *. cbn [length] in Htidy |- *.
  replace (S (length (sep_by member_tokens trailing members)) + 1 - 1)%nat
    with (S (length (sep_by member_tokens trailing members))) in Htidy by lia.
  replace (S (length (sep_by member_tokens trailing members)) + 1)%nat
    with (S (S (length (sep_by member_tokens trailing members))))
    in Htidy |- * by lia.
  destruct Htidy as (Hgb & Hga & Htail).
  set (n1 := S (length (sep_by member_tokens trailing members))) in *.
  set (ts1 := TLBrace :: sep_by member_tokens trailing members) in *.
  set (gb := gap_at (d_gaps d) n1) in *.
  set (ga := gap_at (d_gaps d) (S n1)) in *.
  set (tail := match d_tail d with
               | Some body => SLASH :: SLASH :: body
               | None => []
               end).
  assert (RBRACE ∉ gap_text ga ++ tail) as Hno.
  { rewrite elem_of_app. intros [?|Hin]; [done|]. subst tail.
    destruct (d_tail d) as [body|]; [|by apply elem_of_nil in Hin].
    apply elem_of_cons in Hin as [?|Hin]; [done|].
    apply elem_of_cons in Hin as [?|Hin]; done. }
  unfold insertPortIntoArgv. cbn [token_text].
  change ([125] ++ gap_text ga ++ tail) with (RBRACE :: gap_text ga ++ tail).
  rewrite (split_last_brace_app _ _ Hno).
  assert (last (lay (d_gaps d) ts1) = Some c) as Hlast.
  { rewrite E1. by apply lay_last. }
  rewrite (trimEnd_spaces _ _ c Hlast Hs (gap_spaces gb (gaps_ok_at _ _ Hg) Hgb)).
  unfold needsComma. rewrite Hlast, Hc.
  assert (tokens (CObj (members ++ [port_member port]) false) =
          ts1 ++ (if wants_comma members trailing then [TComma] else []) ++
          member_tokens (port_member port) ++ [TRBrace]) as ->.
  { rewrite obj_tokens, (sep_by_snoc _ trailing). subst ts1.
    by rewrite app_comm_cons, <- !app_assoc. }
  change n1 with (length ts1). rewrite layout_build, <- app_assoc. f_equal.
  unfold key_line, new_gaps, member_tokens, port_member.
  destruct (wants_comma members trailing);
    cbn -[decimal]; rewrite <- !app_assoc; reflexivity.
Qed.

Lemma object_reads d members trailing :
  d_value d = CObj members trailing ->
  exists props, cvalue (plain (d_value d)) = VObject props.
Proof. intros ->. by eexists. Qed.

Lemma sample_doc_ok : doc_ok sample_doc.
Proof.
  split; [done|]. split.
  - vm_compute. repeat split;
      repeat (first [apply jb_nil | apply jb_char; [done|done|done|]]).
  - split; [|done].
    repeat (apply Forall_cons; split); try apply Forall_nil; try done;
      cbn; intros Hin;
      repeat (apply elem_of_cons in Hin as [Hin|Hin]; [discriminate|]);
      by apply elem_of_nil in Hin.
Qed.

Lemma sample_doc_tidy : tidy_end sample_doc.
Proof.
  split; [by repeat constructor|]. split; [|done].
  cbn. intros Hin.
  repeat (apply elem_of_cons in Hin as [Hin|Hin]; [discriminate|]).
  by apply elem_of_nil in Hin.
Qed.

(** The first call on a file that parses and gives no port. *)
Lemma rewrites h d port :
  doc_ok d -> argv h = Some (doc_text d) -> writable h = true ->
  truthy (get (cvalue (plain (d_value d))) PORT_KEY) = false ->
  findAvailablePort (inUse h) (cdpPort h) = Some port ->
  ensureDebugPort_v31 h =
  Outcome None (Some (insertPortIntoArgv (doc_text d) port)).
Proof.
  intros Hd Ha Hw Hno Hport. pose proof (parse_doc d Hd) as Hp.
  destruct Hd as (Hobj & _).
  assert (doc_text d <> []) as Hne.
  { intros Hnil. pose proof (doc_text_brace d Hobj) as Hb.
    rewrite Hnil in Hb. by apply elem_of_nil in Hb. }
  unfold ensureDebugPort_v31. rewrite Ha, Hp, Hport.
  destruct (d_value d) as [| | | | | |members trailing]; try done.
  cbn [plain cvalue get] in *.
  destruct (obj_get PORT_KEY _) as [v|];
    rewrite Hno; unfold write; rewrite Hw; by destruct (doc_text d).
Qed.

(** The text written parses to the object read, with the port assigned. *)
Lemma rewritten_parses d port :
  doc_ok d -> tidy_end d ->
  JSON_parse (stripJsonComments_v31 (insertPortIntoArgv (doc_text d) port)) =
  Some (assign_port (cvalue (plain (d_value d))) port).
Proof.
  intros Hd Htidy.
  rewrite (with_port_text d port Hd Htidy).
  rewrite (parse_doc _ (with_port_ok d port Hd)).
  destruct Hd as (Hobj & _).
  destruct (d_value d) as [| | | | | |members trailing] eqn:E; try done.
  by rewrite (with_port_value d port members trailing E), E.
Qed.

(** C9, amended to v3.1.0.  For a launch-configuration file that is a JSON
    object with white space and line comments between its tokens and
    possibly a comma after the last entry of an object or array, and that
    can be written: ensureDebugPort parses the file.  Where the file gives
    a port the function returns it and leaves the file as it is.  Where it
    gives none, only white space stands between the last entry and the
    closing brace of the object, no closing brace stands in a comment
    after it, and [findAvailablePort] returns a port, the file written is
    the text before the last closing brace without the white space at its
    end, a comma where the last entry has none, the line of the key, and
    the text from the last closing brace on; it is the same configuration
    with the same comments in the same places and the port as one more
    entry, and it parses to the object read from the file with the port
    assigned. *)
Theorem launch_config_rewrite (h : host) (d : doc) :
  doc_ok d -> argv h = Some (doc_text d) -> writable h = true ->
  let data := cvalue (plain (d_value d)) in
  JSON_parse (stripJsonComments_v31 (doc_text d)) = Some data /\
  (truthy (get data PORT_KEY) = true ->
   exists v, get data PORT_KEY = Found v /\
             ensureDebugPort_v31 h = Outcome (Some v) (Some (doc_text d))) /\
  (truthy (get data PORT_KEY) = false -> tidy_end d ->
   forall port, findAvailablePort (inUse h) (cdpPort h) = Some port ->
   exists before ws after content,
     doc_text d = before ++ ws ++ RBRACE :: after /\
     Forall (fun c => is_space c = true) ws /\ (RBRACE ∉ after) /\
     content = before ++ (if needsComma before then [COMMA] else []) ++
               key_line port ++ RBRACE :: after /\
     ensureDebugPort_v31 h = Outcome None (Some content) /\
     content = doc_text (with_port d port) /\ doc_ok (with_port d port) /\
     JSON_parse (stripJsonComments_v31 content) = Some (assign_port data port)).
Proof.
  intros Hd Ha Hw data. pose proof (parse_doc d Hd) as Hp.
  split; [done|]. split.
  - intros Ht. destruct Hd as (Hobj & _).
    unfold ensureDebugPort_v31. rewrite Ha, Hp. fold data.
    destruct (get data PORT_KEY) as [| |v] eqn:Eg; [done|done|].
    rewrite Ht. by exists v.
  - intros Hno Htidy port Hport.
    pose proof (doc_text_brace d (proj1 Hd)) as Hbrace.
    destruct (split_last_brace (doc_text d)) as [[b a]|] eqn:Es;
      [|by apply split_last_brace_none in Es].
    destruct (split_last_brace_spec _ _ _ Es)
      as (Et & a' & -> & Hn%split_last_brace_none).
    destruct (trimEnd_spec b) as (ws & Eb & Hws & _).
    exists (trimEnd b), ws, a', (insertPortIntoArgv (doc_text d) port).
    split; [by rewrite app_assoc, <- Eb|]. split; [done|]. split; [done|].
    split; [unfold insertPortIntoArgv; by rewrite Es|].
    split; [by apply rewrites|].
    split; [by apply with_port_text|].
    split; [by apply with_port_ok|]. by apply rewritten_parses.
Qed.

(** The sample file with the preferred port taken. *)
Lemma launch_config_rewrite_witness :
  let h := Host 9222 (Some (doc_text sample_doc)) true (fun p => p =? 9222) in
  JSON_parse (stripJsonComments_v31 (doc_text sample_doc)) =
  Some (VObject [(txt "disable-renderer-backgrounding", VBool true);
                 (txt "crash-reporter-id", VString (txt "a//b"))]) /\
  exists before ws after content,
    doc_text sample_doc = before ++ ws ++ RBRACE :: after /\
    Forall (fun c => is_space c = true) ws /\ (RBRACE ∉ after) /\
    content = before ++ (if needsComma before then [COMMA] else []) ++
              key_line 9223 ++ RBRACE :: after /\
    ensureDebugPort_v31 h = Outcome None (Some content) /\
    content = doc_text (with_port sample_doc 9223) /\
    doc_ok (with_port sample_doc 9223) /\
    JSON_parse (stripJsonComments_v31 content) =
    Some (VObject [(txt "disable-renderer-backgrounding", VBool true);
                   (txt "crash-reporter-id", VString (txt "a//b"));
                   (PORT_KEY, VNumber false 9223 0)]).
Proof.
  intros h.
  destruct (launch_config_rewrite h sample_doc sample_doc_ok eq_refl eq_refl)
    as (H1 & _ & H3).
  split; [exact H1|].
  exact (H3 eq_refl sample_doc_tidy 9223 eq_refl).
Defined.

(** X10.  The in-place rewrite of v3.1.0 round-trips: for a writable
    configuration object that gives no port and whose text has a tidy end
    (only white space between the last entry and the closing brace, no
    closing brace in a comment after it), the first call writes the text
    of [insertPortIntoArgv] with the port [findAvailablePort] returns, and
    a second call on the file written returns that port and writes
    nothing, provided the port is not 0.  When [findAvailablePort] throws,
    the file is left as it is. *)
Theorem rewritten_file_reads_back (h : host) (d : doc) :
  doc_ok d -> tidy_end d ->
  argv h = Some (doc_text d) -> writable h = true ->
  truthy (get (cvalue (plain (d_value d))) PORT_KEY) = false ->
  match findAvailablePort (inUse h) (cdpPort h) with
  | Some port =>
      let content := insertPortIntoArgv (doc_text d) port in
      ensureDebugPort_v31 h = Outcome None (Some content) /\
      (port <> 0 ->
       ensureDebugPort_v31 (with_argv (Some content) h) =
       Outcome (Some (VNumber false port 0)) (Some content))
  | None => ensureDebugPort_v31 h = Outcome None (Some (doc_text d))
  end.
Proof.
  intros Hd Htidy Ha Hw Hno.
  destruct (findAvailablePort (inUse h) (cdpPort h)) as [port|] eqn:Hport.
  - intros content. split; [by apply rewrites|]. intros Hne.
    pose proof (rewritten_parses d port Hd Htidy) as Hp'. fold content in Hp'.
    destruct Hd as (Hobj & _).
    destruct (d_value d) as [| | | | | |members trailing] eqn:E; try done.
    cbn [plain cvalue assign_port] in Hp'.
    eapply configured_returns; [done|exact Hp'|apply obj_get_set|done].
  - pose proof (parse_doc d Hd) as Hp. destruct Hd as (Hobj & _).
    unfold ensureDebugPort_v31. rewrite Ha, Hp, Hport.
    destruct (d_value d) as [| | | | | |members trailing]; try done.
    cbn [plain cvalue get] in *.
    destruct (obj_get PORT_KEY _) as [v|]; by rewrite Hno.
Qed.

Lemma rewritten_file_reads_back_witness :
  let h := Host 9222 (Some (doc_text sample_doc)) true (fun p => p =? 9222) in
  let content := insertPortIntoArgv (doc_text sample_doc) 9223 in
  ensureDebugPort_v31 h = Outcome None (Some content) /\
  ensureDebugPort_v31 (with_argv (Some content) h) =
  Outcome (Some (VNumber false 9223 0)) (Some content).
Proof.
  intros h.
  pose proof (rewritten_file_reads_back h sample_doc sample_doc_ok
                sample_doc_tidy eq_refl eq_refl eq_refl) as H.
  change (findAvailablePort (inUse h) (cdpPort h)) with (Some 9223) in H.
  destruct H as [H1 H2]. split; [exact H1|]. by apply H2.
Defined.

(** *** Version 3.0.x *)

Lemma parse_doc_v30 d :
  doc_ok d -> plain (d_value d) = d_value d ->
  JSON_parse (stripJsonComments_v30 (doc_text d)) = Some (cvalue (d_value d)).
Proof.
  intros (_ & Hv & Hg & Ht) Hplain.
  pose proof (tokens_ok _ Hv) as Hok.
  pose proof (scan_layout _ _ (d_tail d) Hok Hg Ht) as Hsp.
  pose proof (tokens_separated (d_value d) [] I I) as Hs.
  rewrite app_nil_r in Hs.
  unfold JSON_parse, stripJsonComments_v30, doc_text.
  rewrite (lex_ok _ _ Hsp Hok Hs) by done.
  pose proof (parse_value_ok (d_value d) []
                (S (length (tokens (d_value d))))) as Hp.
  rewrite Hplain, app_nil_r in Hp. by rewrite Hp by lia.
Qed.

(** X11.  Line comments alone do not trouble v3.0.x: a configuration text
    with white space and line comments between its tokens and no comma
    before a closing bracket is parsed by both versions, to the same
    value. *)
Theorem comments_are_tolerated (d : doc) :
  doc_ok d -> plain (d_value d) = d_value d ->
  JSON_parse (stripJsonComments_v30 (doc_text d)) = Some (cvalue (d_value d)) /\
  JSON_parse (stripJsonComments_v31 (doc_text d)) = Some (cvalue (d_value d)).
Proof.
  intros Hd Hplain. split; [by apply parse_doc_v30|].
  by rewrite (parse_doc d Hd), Hplain.
Qed.

Lemma comments_are_tolerated_witness :
  doc_text commented_doc =
    txt "// launch flags|{ 'enable-crash-reporter': true // on||}// end" /\
  JSON_parse (stripJsonComments_v30 (doc_text commented_doc)) =
    Some (VObject [(txt "enable-crash-reporter", VBool true)]).
Proof.
  split; [reflexivity|].
  assert (doc_ok commented_doc) as Hd.
  { split; [done|]. split.
    - vm_compute. repeat split;
        repeat (first [apply jb_nil | apply jb_char; [done|done|done|]]).
    - split.
      + repeat (apply Forall_cons; split); try apply Forall_nil; try done;
          cbn; intros Hin;
          repeat (apply elem_of_cons in Hin as [Hin|Hin]; [discriminate|]);
          by apply elem_of_nil in Hin.
      + cbn. intros Hin.
        repeat (apply elem_of_cons in Hin as [Hin|Hin]; [discriminate|]).
        by apply elem_of_nil in Hin. }
  exact (proj1 (comments_are_tolerated commented_doc Hd eq_refl)).
Defined.

Lemma v30_fresh_doc_text port : doc_text (v30_fresh_doc port) = v30_fresh port.
Proof.
  unfold doc_text, v30_fresh_doc, v30_fresh.
  cbn [d_value d_gaps d_tail tokens]. rewrite app_nil_r, sep_by_one.
  cbn -[decimal txt]. rewrite <- ?app_assoc. reflexivity.
Qed.

Lemma v30_fresh_doc_ok port : doc_ok (v30_fresh_doc port).
Proof.
  split; [done|]. split; [|split; [|done]].
  - cbn. split; [apply port_key_body|]. split; [apply decimal_lexeme|done].
  - by repeat constructor.
Qed.

Lemma stringify_port i port :
  port < 2 ^ 53 -> stringify i (VNumber false port 0) = Some (decimal port).
Proof.
  intros Hp. cbn [stringify]. change (10 ^ Z.to_N 0) with 1.
  rewrite N.mul_1_r. apply N.ltb_lt in Hp as ->. done.
Qed.

Lemma stringify_single k x q tx :
  all_digits k = false -> quote k = Some q -> stringify 2 x = Some tx ->
  stringify 0 (VObject [(k, x)]) =
  Some ([123; LF] ++ (spaces 2 ++ q ++ [58; 32] ++ tx ++ [LF] ++ []) ++
        spaces 0 ++ [125]).
Proof.
  intros H1 H2 H3. cbn [stringify]. rewrite H1, H2.
  change (0 + 2)%nat with 2%nat. by rewrite H3.
Qed.

Lemma v30_fresh_shape (x : text) :
  [123; LF] ++
  (spaces 2 ++ (QUOTE :: PORT_KEY ++ [QUOTE]) ++ [58; 32] ++ x ++ [LF] ++ []) ++
  spaces 0 ++ [125] =
  txt "{|  'remote-debugging-port': " ++ x ++ [LF; RBRACE].
Proof. rewrite <- !app_assoc. reflexivity. Qed.

Lemma v30_stringify port :
  port < 2 ^ 53 ->
  stringify 0 (assign_port (VObject []) port) = Some (v30_fresh port).
Proof.
  intros Hp. unfold assign_port. cbn [obj_set].
  rewrite (stringify_single PORT_KEY _ (QUOTE :: PORT_KEY ++ [QUOTE])
             (decimal port)); [|by vm_compute|by vm_compute|by apply stringify_port].
  by rewrite v30_fresh_shape.
Qed.

(** X12.  When no file exists and the directory can be written, the file that
    [ensureDebugPort] of v3.0.x writes is one it reads back: called
    again on it, it returns the configured port and writes nothing,
    provided the port is a positive integer below 2^53. *)
Theorem v30_fresh_file_reads_back (h : host) :
  argv h = None -> writable h = true -> cdpPort h <> 0 -> cdpPort h < 2 ^ 53 ->
  ensureDebugPort_v30 h = Some (Outcome None (Some (v30_fresh (cdpPort h)))) /\
  ensureDebugPort_v30 (with_argv (Some (v30_fresh (cdpPort h))) h) =
  Some (Outcome (Some (VNumber false (cdpPort h) 0))
                (Some (v30_fresh (cdpPort h)))).
Proof.
  intros Ha Hw Hport Hlt. split.
  - unfold ensureDebugPort_v30. rewrite Ha. cbn [get obj_get truthy].
    rewrite (v30_stringify _ Hlt). unfold write. by rewrite Hw.
  - unfold ensureDebugPort_v30. cbn [argv with_argv].
    rewrite <- v30_fresh_doc_text.
    rewrite (parse_doc_v30 _ (v30_fresh_doc_ok _)) by reflexivity.
    cbn [v30_fresh_doc d_value cvalue foldl port_member fst snd].
    rewrite decimal_value.
    assert (decode PORT_KEY = PORT_KEY) as -> by (by vm_compute).
    cbn [get]. rewrite obj_get_set.
    by rewrite (port_truthy _ Hport).
Qed.

Lemma v30_fresh_file_reads_back_witness :
  let h := Host 9222 None true (fun _ => true) in
  ensureDebugPort_v30 h = Some (Outcome None (Some (v30_fresh 9222))) /\
  ensureDebugPort_v30 (with_argv (Some (v30_fresh 9222)) h) =
  Some (Outcome (Some (VNumber false 9222 0)) (Some (v30_fresh 9222))).
Proof.
  intros h. apply (v30_fresh_file_reads_back h); [reflexivity|reflexivity| |].
  - by vm_compute.
  - by vm_compute.
Defined.

End ArgvFacts.

(** ** More on the timers of the scheduler *)

Module SchedulerFacts.

Import Scheduler.

(** The variables that hold a timer handle. *)
Inductive slot := SPoll | SExpiry | SHeart | SSleep | SText.

#[global] Instance slot_eq_dec : EqDecision slot.
Proof. solve_decision. Defined.

(** The variable a closure's timer is recorded in; the timer of the
    delayed start of [activate] is recorded nowhere. *)
Definition slot_of (cb : callback) : option slot :=
  match cb with
  | CbTryAcceptAll => Some SPoll
  | CbTransitionTo _ => Some SExpiry
  | CbHeartbeat => Some SHeart
  | CbSleepCheck => Some SSleep
  | CbTextChange => Some SText
  | CbDelayedStart => None
  end.

Definition var (sl : slot) (s : ctx) : option nat :=
  match sl with
  | SPoll => pollInterval s
  | SExpiry => stateTimeout s
  | SHeart => heartbeatInterval s
  | SSleep => sleepCheckInterval s
  | SText => textChangeTimer s
  end.

(** The states a closure's timer can be live in: a poll timer outside
    IDLE, the expiry to SLOW in FAST, the expiry to IDLE in SLOW. *)
Definition fits (cb : callback) (st : State) : Prop :=
  match cb with
  | CbTryAcceptAll => st <> IDLE
  | CbTransitionTo to => (st = FAST /\ to = SLOW) \/ (st = SLOW /\ to = IDLE)
  | _ => True
  end.

(** Every live timer is the one its variable records and fits the
    current state; handles are fresh. *)
Record Owned (s : ctx) : Prop := {
  own_fresh : forall h t, timers s !! h = Some t -> (h < next_handle s)%nat;
  own_var : forall h t sl, timers s !! h = Some t ->
                           slot_of (t_cb t) = Some sl -> var sl s = Some h;
  own_fits : forall h t, timers s !! h = Some t -> fits (t_cb t) (currentState s);
  own_bound : forall sl h, var sl s = Some h -> (h < next_handle s)%nat
}.

(** No live timer belongs to the variable [sl]. *)
Definition vacant (sl : slot) (s : ctx) : Prop :=
  forall h t, timers s !! h = Some t -> slot_of (t_cb t) <> Some sl.

Definition is_heartbeat (cb : callback) : bool :=
  match cb with CbHeartbeat => true | _ => false end.

Definition is_liveness (cb : callback) : bool :=
  match cb with CbSleepCheck => true | _ => false end.

Definition is_debounce (cb : callback) : bool :=
  match cb with CbTextChange => true | _ => false end.

Definition is_delayed_start (cb : callback) : bool :=
  match cb with CbDelayedStart => true | _ => false end.

(** The timers of [s'] are among those of [s]. *)
Definition sub (s' s : ctx) : Prop :=
  forall h t, timers s' !! h = Some t -> timers s !! h = Some t.

Lemma Owned_shrink s s' :
  Owned s ->
  (forall h t, timers s' !! h = Some t -> timers s !! h = Some t) ->
  next_handle s' = next_handle s -> currentState s' = currentState s ->
  (forall sl, var sl s' = var sl s \/ (var sl s' = None /\ vacant sl s')) ->
  Owned s'.
Proof.
  intros [Hf Hv Hfit Hb] Hsub Hn Hst Hvars. split.
  - intros h t Hl. rewrite Hn. eauto.
  - intros h t sl Hl Hsl. destruct (Hvars sl) as [->|[_ Hvac]]; [eauto|].
    by destruct (Hvac h t Hl).
  - intros h t Hl. rewrite Hst. eauto.
  - intros sl h Hsl. rewrite Hn.
    destruct (Hvars sl) as [E|[E _]]; rewrite E in Hsl; [eauto|done].
Qed.

Lemma Owned_same s s' :
  Owned s -> timers s' = timers s -> next_handle s' = next_handle s ->
  currentState s' = currentState s -> (forall sl, var sl s' = var sl s) ->
  Owned s'.
Proof.
  intros HO Ht Hn Hst Hvars. apply (Owned_shrink s); try done.
  - by rewrite Ht.
  - intros sl. by left.
Qed.

Lemma Owned_install s s' sl k cb d :
  Owned s -> slot_of cb = Some sl -> fits cb (currentState s) -> vacant sl s ->
  timers s' = <[next_handle s := Timer k cb d]> (timers s) ->
  next_handle s' = S (next_handle s) -> currentState s' = currentState s ->
  var sl s' = Some (next_handle s) ->
  (forall sl', sl' <> sl -> var sl' s' = var sl' s) ->
  Owned s'.
Proof.
  intros [Hf Hv Hfit Hb] Hsl Hcb Hvac Ht Hn Hst Hnew Hvars. split.
  - intros h t. rewrite Ht, Hn. intros Hl.
    destruct (decide (next_handle s = h)) as [<-|Hne]; [lia|].
    rewrite lookup_insert_ne in Hl by done. apply Hf in Hl. lia.
  - intros h t sl0. rewrite Ht. intros Hl Hsl0.
    destruct (decide (next_handle s = h)) as [<-|Hne].
    + rewrite lookup_insert_eq in Hl. injection Hl as <-. simpl in Hsl0.
      congruence.
    + rewrite lookup_insert_ne in Hl by done.
      destruct (decide (sl0 = sl)) as [->|Hd].
      * by destruct (Hvac h t Hl).
      * rewrite (Hvars _ Hd). eauto.
  - intros h t. rewrite Ht, Hst. intros Hl.
    destruct (decide (next_handle s = h)) as [<-|Hne].
    + rewrite lookup_insert_eq in Hl. by injection Hl as <-.
    + rewrite lookup_insert_ne in Hl by done. eauto.
  - intros sl0 h. rewrite Hn. destruct (decide (sl0 = sl)) as [->|Hd].
    + rewrite Hnew. intros [= <-]. lia.
    + rewrite (Hvars _ Hd). intros Hl. apply Hb in Hl. lia.
Qed.

Lemma Owned_install_free s s' k cb d :
  Owned s -> slot_of cb = None -> fits cb (currentState s) ->
  timers s' = <[next_handle s := Timer k cb d]> (timers s) ->
  next_handle s' = S (next_handle s) -> currentState s' = currentState s ->
  (forall sl, var sl s' = var sl s) ->
  Owned s'.
Proof.
  intros [Hf Hv Hfit Hb] Hsl Hcb Ht Hn Hst Hvars. split.
  - intros h t. rewrite Ht, Hn. intros Hl.
    destruct (decide (next_handle s = h)) as [<-|Hne]; [lia|].
    rewrite lookup_insert_ne in Hl by done. apply Hf in Hl. lia.
  - intros h t sl0. rewrite Ht, Hvars. intros Hl Hsl0.
    destruct (decide (next_handle s = h)) as [<-|Hne].
    + rewrite lookup_insert_eq in Hl. injection Hl as <-. simpl in Hsl0.
      congruence.
    + rewrite lookup_insert_ne in Hl by done. eauto.
  - intros h t. rewrite Ht, Hst. intros Hl.
    destruct (decide (next_handle s = h)) as [<-|Hne].
    + rewrite lookup_insert_eq in Hl. by injection Hl as <-.
    + rewrite lookup_insert_ne in Hl by done. eauto.
  - intros sl0 h. rewrite Hn, Hvars. intros Hl. apply Hb in Hl. lia.
Qed.

Lemma Owned_state s s' :
  Owned s -> vacant SPoll s -> vacant SExpiry s ->
  timers s' = timers s -> next_handle s' = next_handle s ->
  (forall sl, var sl s' = var sl s) ->
  Owned s'.
Proof.
  intros [Hf Hv Hfit Hb] Hp He Ht Hn Hvars. split.
  - intros h t. rewrite Ht, Hn. eauto.
  - intros h t sl. rewrite Ht, Hvars. eauto.
  - intros h t. rewrite Ht. intros Hl.
    pose proof (Hp h t Hl) as H1. pose proof (He h t Hl) as H2.
    by destruct (t_cb t).
  - intros sl h. rewrite Hn, Hvars. eauto.
Qed.

Lemma vacant_none sl s : Owned s -> var sl s = None -> vacant sl s.
Proof.
  intros HO Hnone h t Hl Hsl. pose proof (own_var s HO h t sl Hl Hsl). congruence.
Qed.

Lemma vacant_cleared sl h s s' :
  Owned s -> var sl s = Some h -> timers s' = delete h (timers s) ->
  vacant sl s'.
Proof.
  intros HO Hsl Ht h' t. rewrite Ht. intros Hl Hsl'.
  destruct (decide (h = h')) as [<-|Hne].
  - by rewrite lookup_delete_eq in Hl.
  - rewrite lookup_delete_ne in Hl by done.
    pose proof (own_var s HO h' t sl Hl Hsl'). congruence.
Qed.

Lemma vacant_shrink sl s s' :
  vacant sl s ->
  (forall h t, timers s' !! h = Some t -> timers s !! h = Some t) ->
  vacant sl s'.
Proof. intros Hv Hsub h t Hl. eauto. Qed.

Lemma delete_sub (h : nat) (m : gmap nat timer) h' t :
  delete h m !! h' = Some t -> m !! h' = Some t.
Proof. intros Hl. by apply lookup_delete_Some in Hl as [_ ?]. Qed.

(** Clearing the timer a variable records and resetting the variable. *)
Lemma Owned_unset sl h s s' :
  Owned s -> var sl s = Some h -> timers s' = delete h (timers s) ->
  next_handle s' = next_handle s -> currentState s' = currentState s ->
  var sl s' = None -> (forall sl', sl' <> sl -> var sl' s' = var sl' s) ->
  Owned s' /\ vacant sl s'.
Proof.
  intros HO Hsl Ht Hn Hst Hnone Hvars.
  pose proof (vacant_cleared sl h s s' HO Hsl Ht) as Hvac. split; [|done].
  apply (Owned_shrink s); try done.
  - intros h' t. rewrite Ht. apply delete_sub.
  - intros sl'. destruct (decide (sl' = sl)) as [->|Hd]; [by right|].
    left. by apply Hvars.
Qed.

Lemma Owned_clearTimer h s : Owned s -> Owned (clearTimer h s).
Proof.
  intros HO. apply (Owned_shrink s); try done.
  - intros h' t. apply delete_sub.
  - intros sl. left. by destruct sl.
Qed.

Lemma vacant_insert sl s s' h k cb d :
  vacant sl s -> slot_of cb <> Some sl ->
  timers s' = <[h := Timer k cb d]> (timers s) -> vacant sl s'.
Proof.
  intros Hv Hcb Ht h' t. rewrite Ht. intros Hl.
  destruct (decide (h = h')) as [<-|Hne].
  - rewrite lookup_insert_eq in Hl. by injection Hl as <-.
  - rewrite lookup_insert_ne in Hl by done. eauto.
Qed.

Lemma sub_refl s : sub s s.
Proof. by intros h t. Qed.

Lemma sub_trans s1 s2 s3 : sub s1 s2 -> sub s2 s3 -> sub s1 s3.
Proof. intros H1 H2 h t Hl. eauto. Qed.

Lemma Owned_clearStatefulTimers s :
  Owned s ->
  Owned (clearStatefulTimers s) /\ vacant SPoll (clearStatefulTimers s) /\
  vacant SExpiry (clearStatefulTimers s) /\ sub (clearStatefulTimers s) s /\
  currentState (clearStatefulTimers s) = currentState s.
Proof.
  intros HO. unfold clearStatefulTimers.
  set (s1 := match pollInterval s with
             | Some h => set_pollInterval None (clearTimer h s)
             | None => s
             end).
  assert (Owned s1 /\ vacant SPoll s1 /\ sub s1 s /\
          currentState s1 = currentState s) as (HO1 & Hv1 & Hs1 & Hst1).
  { subst s1. destruct (pollInterval s) as [h|] eqn:E.
    - destruct (Owned_unset SPoll h s (set_pollInterval None (clearTimer h s)) HO)
        as [H1 H2]; try done; [by intros []|].
      split_and!; try done. intros h' t. apply delete_sub.
    - split_and!; [done|by apply vacant_none|apply sub_refl|done]. }
  destruct (stateTimeout s1) as [h|] eqn:E.
  - destruct (Owned_unset SExpiry h s1 (set_stateTimeout None (clearTimer h s1)) HO1)
      as [H1 H2]; try done; [by intros []|].
    assert (sub (set_stateTimeout None (clearTimer h s1)) s1) as Hsub
      by (intros h' t; apply delete_sub).
    split_and!; try done.
    + by apply (vacant_shrink _ s1).
    + by apply (sub_trans _ s1).
  - split_and!; [done|done|by apply vacant_none|done|done].
Qed.

Lemma Owned_stopHeartbeat s :
  Owned s ->
  Owned (stopHeartbeat s) /\ vacant SHeart (stopHeartbeat s) /\
  sub (stopHeartbeat s) s /\ currentState (stopHeartbeat s) = currentState s.
Proof.
  intros HO. unfold stopHeartbeat. destruct (heartbeatInterval s) as [h|] eqn:E.
  - destruct (Owned_unset SHeart h s (set_heartbeatInterval None (clearTimer h s)) HO)
      as [H1 H2]; try done; [by intros []|].
    split_and!; try done. intros h' t. apply delete_sub.
  - split_and!; [done|by apply vacant_none|apply sub_refl|done].
Qed.

Lemma Owned_clearAllTimers s :
  Owned s ->
  Owned (clearAllTimers s) /\ (forall sl, vacant sl (clearAllTimers s)) /\
  currentState (clearAllTimers s) = currentState s.
Proof.
  intros HO. unfold clearAllTimers.
  destruct (Owned_clearStatefulTimers s HO) as (HO0 & Hp0 & He0 & _ & Hst0).
  destruct (Owned_stopHeartbeat _ HO0) as (HO1 & Hh1 & Hsub1 & Hst1).
  set (s1 := stopHeartbeat (clearStatefulTimers s)) in *.
  set (s2 := match textChangeTimer s1 with
             | Some h => set_textChangeTimer None (clearTimer h s1)
             | None => s1
             end).
  assert (Owned s2 /\ vacant SText s2 /\ sub s2 s1 /\
          currentState s2 = currentState s1) as (HO2 & Ht2 & Hsub2 & Hst2).
  { subst s2. destruct (textChangeTimer s1) as [h|] eqn:E.
    - destruct (Owned_unset SText h s1 (set_textChangeTimer None (clearTimer h s1)) HO1)
        as [H1 H2]; try done; [by intros []|].
      split_and!; try done. intros h' t. apply delete_sub.
    - split_and!; [done|by apply vacant_none|apply sub_refl|done]. }
  set (s3 := match sleepCheckInterval s2 with
             | Some h => set_sleepCheckInterval None (clearTimer h s2)
             | None => s2
             end).
  assert (Owned s3 /\ vacant SSleep s3 /\ sub s3 s2 /\
          currentState s3 = currentState s2) as (HO3 & Hs3 & Hsub3 & Hst3).
  { subst s3. destruct (sleepCheckInterval s2) as [h|] eqn:E.
    - destruct (Owned_unset SSleep h s2 (set_sleepCheckInterval None (clearTimer h s2)) HO2)
        as [H1 H2]; try done; [by intros []|].
      split_and!; try done. intros h' t. apply delete_sub.
    - split_and!; [done|by apply vacant_none|apply sub_refl|done]. }
  split; [done|]. split; [|congruence].
  assert (sub s3 s1) as Hsub31 by (by apply (sub_trans _ s2)).
  assert (sub s3 (clearStatefulTimers s)) as Hsub30
    by (by apply (sub_trans _ s1)).
  intros [].
  - by apply (vacant_shrink _ (clearStatefulTimers s)).
  - by apply (vacant_shrink _ (clearStatefulTimers s)).
  - by apply (vacant_shrink _ s1).
  - done.
  - by apply (vacant_shrink _ s2).
Qed.

Local Ltac others := intros [] ?; first [done|congruence].

Lemma Owned_transitionTo st s : Owned s -> Owned (transitionTo st s).
Proof.
  intros HO. destruct (Owned_clearStatefulTimers s HO) as (HO0 & Hp0 & He0 & _).
  unfold transitionTo.
  set (s1 := set_currentState st (clearStatefulTimers s)).
  assert (Owned s1) as HO1.
  { apply (Owned_state (clearStatefulTimers s)); try done; by intros []. }
  assert (vacant SPoll s1) as Hp1 by done.
  assert (vacant SExpiry s1) as He1 by done.
  destruct st; [done| |]; cbn [setTimer].
  - set (s3 := set_pollInterval _ _).
    assert (Owned s3) as HO3.
    { apply (Owned_install s1 s3 SPoll Interval CbTryAcceptAll
               (fastIntervalMs (cfg s1))); try done; others. }
    apply (Owned_install s3 _ SExpiry Timeout (CbTransitionTo SLOW)
             (fastDurationMs (cfg s3))); try done.
    + by left.
    + by apply (vacant_insert _ s1 _ (next_handle s1) Interval CbTryAcceptAll
                  (fastIntervalMs (cfg s1))).
    + others.
  - set (s3 := set_pollInterval _ _).
    assert (Owned s3) as HO3.
    { apply (Owned_install s1 s3 SPoll Interval CbTryAcceptAll
               (slowIntervalMs (cfg s1))); try done; others. }
    apply (Owned_install s3 _ SExpiry Timeout (CbTransitionTo IDLE)
             (cooldownDurationMs (cfg s3))); try done.
    + by right.
    + by apply (vacant_insert _ s1 _ (next_handle s1) Interval CbTryAcceptAll
                  (slowIntervalMs (cfg s1))).
    + others.
Qed.

Lemma Owned_startHeartbeat s : Owned s -> Owned (startHeartbeat s).
Proof.
  intros HO. unfold startHeartbeat.
  destruct (Owned_stopHeartbeat s HO) as (HO1 & Hv1 & _).
  destruct (0 <? _); [|done]. cbn [setTimer].
  apply (Owned_install (stopHeartbeat s) _ SHeart Interval CbHeartbeat
           (heartbeatIntervalMs (cfg (stopHeartbeat s)))); try done; others.
Qed.

Lemma Owned_startSleepDetection now s :
  Owned s -> Owned (startSleepDetection now s).
Proof.
  intros HO. unfold startSleepDetection.
  set (s1 := match sleepCheckInterval s with
             | Some h => clearTimer h s
             | None => s
             end).
  assert (Owned s1 /\ vacant SSleep s1) as [HO1 Hv1].
  { subst s1. destruct (sleepCheckInterval s) as [h|] eqn:E.
    - split; [by apply Owned_clearTimer|].
      by apply (vacant_cleared SSleep h s).
    - split; [done|by apply vacant_none]. }
  cbn [setTimer].
  apply (Owned_install (set_lastTickTime now s1) _ SSleep Interval CbSleepCheck
           5000); try done; [by apply (Owned_same s1)|others].
Qed.

#[local] Arguments transitionTo : simpl never.
#[local] Arguments toggle : simpl never.
#[local] Arguments startHeartbeat : simpl never.
#[local] Arguments startSleepDetection : simpl never.
#[local] Arguments clearAllTimers : simpl never.
#[local] Arguments activate : simpl never.
#[local] Arguments fire : simpl never.
#[local] Arguments heartbeat : simpl never.
#[local] Arguments sleepCheck : simpl never.

Lemma Owned_passes s : Owned s -> Owned (tryAcceptAll s).
Proof. intros HO. apply (Owned_same s); try done. Qed.

Lemma Owned_run_callback cb now s : Owned s -> Owned (run_callback cb now s).
Proof.
  intros HO. destruct cb; simpl.
  - by apply Owned_passes.
  - by apply Owned_transitionTo.
  - unfold heartbeat. destruct (negb _); [done|].
    case_decide; [by apply Owned_passes|done].
  - unfold sleepCheck.
    apply (Owned_same
             (if 10000 <? now - lastTickTime s
              then (if enabled s then transitionTo FAST s else s) else s));
      try done.
    destruct (10000 <? _); [|done]. destruct (enabled s); [|done].
    by apply Owned_transitionTo.
  - destruct (_ && _); [by apply Owned_transitionTo|done].
  - by apply Owned_transitionTo.
Qed.

Lemma Owned_fire h now s : Owned s -> Owned (fire h now s).
Proof.
  intros HO. unfold fire. destruct (timers s !! h) as [t|]; [|done].
  apply Owned_run_callback. destruct (t_kind t); [done|by apply Owned_clearTimer].
Qed.

Lemma Owned_toggle s : Owned s -> Owned (toggle s).
Proof.
  intros HO. unfold toggle.
  assert (Owned (set_enabled (negb (enabled s)) s)) as HO1
    by (by apply (Owned_same s)).
  destruct (enabled (set_enabled _ s)).
  - apply Owned_transitionTo, Owned_startHeartbeat. by apply (Owned_same _ _ HO1).
  - destruct (Owned_clearAllTimers _ HO1) as (HO2 & Hv & _).
    apply (Owned_state (clearAllTimers (set_enabled (negb (enabled s)) s)));
      try done.
Qed.

Lemma Owned_activate now s : Owned s -> Owned (activate now s).
Proof.
  intros HO. unfold activate.
  assert (Owned (set_enabled (cfg_enabled (cfg s)) s)) as HO1
    by (by apply (Owned_same s)).
  destruct (enabled (set_enabled _ s)); [|done].
  cbn [setTimer snd].
  apply (Owned_install_free
           (startSleepDetection now
              (startHeartbeat (set_listening true
                                 (set_enabled (cfg_enabled (cfg s)) s))))
           _ Timeout CbDelayedStart 3000); try done.
  apply Owned_startSleepDetection, Owned_startHeartbeat.
  by apply (Owned_same _ _ HO1).
Qed.

Lemma Owned_listener e s : Owned s -> Owned (listener e s).
Proof.
  intros HO. destruct e; simpl; try done.
  - destruct (enabled s); [by apply Owned_transitionTo|done].
  - case_bool_decide; [done|].
    assert (Owned (set_windowFocused focused s)) as HO1
      by (by apply (Owned_same s)).
    destruct focused; [|done].
    destruct (enabled _); [by apply Owned_transitionTo|done].
  - destruct (negb _); [done|].
    set (s1 := match textChangeTimer s with
               | Some h => clearTimer h s
               | None => s
               end).
    assert (Owned s1 /\ vacant SText s1) as [HO1 Hv1].
    { subst s1. destruct (textChangeTimer s) as [h|] eqn:E.
      - split; [by apply Owned_clearTimer|].
        by apply (vacant_cleared SText h s).
      - split; [done|by apply vacant_none]. }
    apply (Owned_install s1 _ SText Timeout CbTextChange 2000); try done;
      others.
  - assert (Owned (set_cfg c s)) as HO1 by (by apply (Owned_same s)).
    set (s2 := if bool_decide _ then _ else _).
    assert (Owned s2) as HO2.
    { subst s2. case_bool_decide; [done|by apply Owned_toggle]. }
    destruct affectsHeartbeat; [by apply Owned_startHeartbeat|done].
Qed.

Lemma Owned_deactivate s : Owned s -> Owned (deactivate s).
Proof.
  intros HO. unfold deactivate.
  destruct (Owned_clearAllTimers s HO) as (HO1 & _).
  by apply (Owned_same _ _ HO1).
Qed.

Lemma Owned_step e s : Owned s -> Owned (step e s).
Proof.
  intros HO. destruct e as [now| | |f| |c a| |h now]; simpl.
  - by apply Owned_activate.
  - by apply Owned_deactivate.
  - destruct (listening s); [|done]. by apply (Owned_listener EvTrigger).
  - destruct (listening s); [|done]. by apply (Owned_listener (EvWindowState f)).
  - destruct (listening s); [|done].
    by apply (Owned_listener EvTextDocumentChanged).
  - assert (Owned (set_cfg c s)) as HO1 by (by apply (Owned_same s)).
    destruct (listening s); [|done].
    exact (Owned_listener (EvConfigChanged c a) (set_cfg c s) HO1).
  - by apply Owned_toggle.
  - by apply Owned_fire.
Qed.

Lemma Owned_init c now : Owned (init c now).
Proof. split; simpl; intros; simplify_map_eq. by destruct sl. Qed.

Lemma Owned_run evs s : Owned s -> Owned (run evs s).
Proof.
  revert s. induction evs as [|e evs IH]; intros s HO; [done|].
  simpl. apply IH. by apply Owned_step.
Qed.

Lemma live_le_1 (p : callback -> bool) sl s :
  Owned s -> (forall cb, p cb = true -> slot_of cb = Some sl) ->
  (length (live_with p s) <= 1)%nat.
Proof.
  intros HO Hp. apply (length_le_1_of_const _ (var sl s)).
  - apply NoDup_live_with.
  - intros h (t & Hl & Ht)%elem_of_live_with.
    apply (own_var s HO h t sl Hl). by apply Hp.
Qed.

Lemma live_singleton (p : callback -> bool) s h :
  (forall h', h' ∈ live_with p s <-> h' = h) -> live_with p s = [h].
Proof.
  intros Hall. pose proof (NoDup_live_with p s) as Hnd.
  destruct (live_with p s) as [|a [|b l]].
  - exfalso. eapply not_elem_of_nil. apply Hall. done.
  - f_equal. apply Hall. by left.
  - exfalso. apply NoDup_cons in Hnd as [Hna _]. apply Hna.
    assert (a = h) as -> by (apply Hall; by left).
    assert (b = h) as -> by (apply Hall; right; by left). by left.
Qed.

(** X13.  In every context reached from load there is at most one live
    heartbeat timer, at most one live timer of the sleep detection and at
    most one live debounce timer of the text-change listener. *)
Theorem helper_timers_unique (c : config) (now : Z) (evs : list event) :
  let s := run evs (init c now) in
  (length (live_with is_heartbeat s) <= 1)%nat /\
  (length (live_with is_liveness s) <= 1)%nat /\
  (length (live_with is_debounce s) <= 1)%nat.
Proof.
  intros s. pose proof (Owned_run evs _ (Owned_init c now)) as HO. fold s in HO.
  split_and!.
  - apply (live_le_1 _ SHeart); [done|]. by intros [].
  - apply (live_le_1 _ SSleep); [done|]. by intros [].
  - apply (live_le_1 _ SText); [done|]. by intros [].
Qed.

(** X14.  In every context reached from load, the state IDLE has no live poll
    timer and no live expiry timer: only the heartbeat polls there. *)
Theorem idle_has_no_polling (c : config) (now : Z) (evs : list event) :
  let s := run evs (init c now) in
  currentState s = IDLE ->
  live_poll_timers s = [] /\ live_expiry_timers s = [].
Proof.
  intros s Hidle.
  pose proof (Owned_run evs _ (Owned_init c now)) as HO. fold s in HO.
  split; apply live_nil; intros h t Hl;
    pose proof (own_fits s HO h t Hl) as Hfit; rewrite Hidle in Hfit;
    destruct (t_cb t); try done; simpl in Hfit.
  by destruct Hfit as [[? _]|[? _]].
Qed.

Lemma idle_has_no_polling_witness :
  let s := run [EvActivate 0; EvFire 2 3000; EvFire 4 13000; EvFire 6 43000]
               (init default_config 0) in
  live_poll_timers s = [] /\ live_expiry_timers s = [].
Proof.
  apply (idle_has_no_polling default_config 0
           [EvActivate 0; EvFire 2 3000; EvFire 4 13000; EvFire 6 43000]).
  by vm_compute.
Defined.

(** X15.  In every context reached from load, a live expiry timer steps the
    polling down by one state: in FAST it leads to SLOW, in SLOW to IDLE;
    no expiry leads to FAST or from FAST to IDLE, and a live poll timer
    means the state is FAST or SLOW. *)
Theorem expiry_steps_down (c : config) (now : Z) (evs : list event)
    (h : nat) (t : timer) :
  let s := run evs (init c now) in
  timers s !! h = Some t ->
  match t_cb t with
  | CbTransitionTo to =>
      (currentState s = FAST /\ to = SLOW) \/ (currentState s = SLOW /\ to = IDLE)
  | CbTryAcceptAll => currentState s = FAST \/ currentState s = SLOW
  | _ => True
  end.
Proof.
  intros s Hl.
  pose proof (Owned_run evs _ (Owned_init c now)) as HO. fold s in HO.
  pose proof (own_fits s HO h t Hl) as Hfit.
  destruct (t_cb t); try done. simpl in Hfit.
  destruct (currentState s); [done|by left|by right].
Qed.

Lemma expiry_steps_down_witness :
  let s := run [EvActivate 0; EvFire 2 3000] (init default_config 0) in
  currentState s = FAST.
Proof.
  intros s.
  destruct (expiry_steps_down default_config 0 [EvActivate 0; EvFire 2 3000]
              4%nat (Timer Timeout (CbTransitionTo SLOW) 10000) eq_refl)
    as [[H _]|[_ H]]; [exact H|discriminate H].
Defined.

(** X16.  Switching the feature off, by the toggle command or by
    [deactivate], clears every timer of the scheduler that a variable
    records: from any context reached from load, the only timers of the
    scheduler still live afterwards are delayed starts of [activate],
    which no variable records; the toggle also leaves the state IDLE. *)
Theorem switch_off_clears (c : config) (now : Z) (evs : list event)
    (h : nat) (t : timer) :
  let s := run evs (init c now) in
  (timers (deactivate s) !! h = Some t -> t_cb t = CbDelayedStart) /\
  (enabled s = true ->
   enabled (toggle s) = false /\ currentState (toggle s) = IDLE /\
   (timers (toggle s) !! h = Some t -> t_cb t = CbDelayedStart)).
Proof.
  intros s. pose proof (Owned_run evs _ (Owned_init c now)) as HO. fold s in HO.
  assert (forall s0, (forall sl, vacant sl s0) -> timers s0 !! h = Some t ->
                     t_cb t = CbDelayedStart) as Hvac.
  { intros s0 Hv Hl. destruct (slot_of (t_cb t)) as [sl|] eqn:E.
    - by destruct (Hv sl h t Hl).
    - by destruct (t_cb t). }
  split.
  - destruct (Owned_clearAllTimers s HO) as (_ & Hv & _).
    apply Hvac. intros sl. apply (vacant_shrink sl (clearAllTimers s)); [done|].
    by intros h' t'.
  - intros Hen. unfold toggle. cbn [enabled set_enabled]. rewrite Hen. cbn [negb].
    assert (Owned (set_enabled false s)) as HO1 by (by apply (Owned_same s)).
    destruct (Owned_clearAllTimers _ HO1) as (_ & Hv & _).
    split; [|split; [done|]].
    + unfold clearAllTimers, stopHeartbeat, clearStatefulTimers.
      by repeat (case_match; simpl).
    + apply Hvac. intros sl.
      apply (vacant_shrink sl (clearAllTimers (set_enabled false s))); [done|].
      by intros h' t'.
Qed.

Lemma switch_off_clears_witness :
  let s := run [EvActivate 0; EvFire 2 3000] (init default_config 0) in
  enabled (toggle s) = false /\ currentState (toggle s) = IDLE.
Proof.
  intros s.
  destruct (proj2 (switch_off_clears default_config 0
                     [EvActivate 0; EvFire 2 3000] 0%nat
                     (Timer Interval CbHeartbeat 3000)) eq_refl)
    as (H1 & H2 & _).
  by split.
Defined.

(** The delayed start of [activate] is not among the timers switching
    off clears: switched off within the three seconds, the extension is
    moved to FAST by it and polls again, disabled as it is. *)
Example delayed_start_survives_switch_off :
  let s := run [EvActivate 0; EvToggle; EvFire 2 3000] (init default_config 0) in
  enabled s = false /\ currentState s = FAST /\ live_poll_timers s = [3%nat].
Proof. by vm_compute. Qed.

(** X17.  Restarting the heartbeat from a context reached from load leaves
    exactly one heartbeat timer, with the configured interval, and none
    when that interval is not positive. *)
Theorem heartbeat_restart (c : config) (now : Z) (evs : list event) :
  let s := run evs (init c now) in
  if 0 <? heartbeatIntervalMs (cfg s) then
    exists h, live_with is_heartbeat (startHeartbeat s) = [h] /\
              timers (startHeartbeat s) !! h =
              Some (Timer Interval CbHeartbeat (heartbeatIntervalMs (cfg s)))
  else live_with is_heartbeat (startHeartbeat s) = [].
Proof.
  intros s. pose proof (Owned_run evs _ (Owned_init c now)) as HO. fold s in HO.
  destruct (Owned_stopHeartbeat s HO) as (HO1 & Hv & _).
  assert (cfg (stopHeartbeat s) = cfg s) as Hcfg.
  { unfold stopHeartbeat. by destruct (heartbeatInterval s). }
  unfold startHeartbeat. rewrite Hcfg.
  destruct (0 <? heartbeatIntervalMs (cfg s)) eqn:E.
  - cbn [setTimer]. exists (next_handle (stopHeartbeat s)).
    split; [|by cbn; rewrite lookup_insert_eq].
    apply live_singleton. intros h'. rewrite elem_of_live_with. cbn.
    split.
    + intros (t & Hl & Ht).
      destruct (decide (next_handle (stopHeartbeat s) = h')) as [<-|Hne]; [done|].
      rewrite lookup_insert_ne in Hl by done.
      destruct (t_cb t) eqn:Et; try done. by destruct (Hv h' t Hl); rewrite Et.
    + intros ->. eexists. by rewrite lookup_insert_eq.
  - apply live_nil. intros h t Hl.
    destruct (t_cb t) eqn:Et; try done. by destruct (Hv h t Hl); rewrite Et.
Qed.

End SchedulerFacts.

(** ** More on the request layer *)

Module CdpFacts.

Import Cdp.

#[local] Set Warnings "-clear-no-such-hyp".

(** The bookkeeping of both generations: the ids handed out lie between
    1 and the next id, and a request whose callbacks are filed is
    pending. *)
Record Sound (c : conn) : Prop := {
  snd_next : (1 <= cdpMessageId c)%N;
  snd_range : forall id, is_Some (promises c !! id) ->
                         (1 <= id < cdpMessageId c)%N;
  snd_filed : forall id, id ∈ callbacks c -> promises c !! id = Some Pending
}.

Lemma settle_dom id id' v c :
  is_Some (promises (settle id' v c) !! id) <-> is_Some (promises c !! id).
Proof.
  unfold settle. destruct (promises c !! id') as [[]|] eqn:E; simpl; try done.
  destruct (decide (id' = id)) as [<-|Hne].
  - rewrite lookup_insert_eq, E. split; by eexists.
  - by rewrite lookup_insert_ne.
Qed.

Lemma settle_same id v c :
  promises c !! id = Some Pending -> promises (settle id v c) !! id = Some v.
Proof. intros Hp. unfold settle. rewrite Hp. simpl. by rewrite lookup_insert_eq. Qed.

Lemma settle_settled id id' v w c :
  promises c !! id = Some w -> w <> Pending ->
  promises (settle id' v c) !! id = Some w.
Proof.
  intros Hp Hw. destruct (decide (id = id')) as [<-|Hne].
  - unfold settle. rewrite Hp. by destruct w.
  - by rewrite settle_other.
Qed.

Lemma Sound_settle id v c :
  Sound c -> id ∉ callbacks c -> Sound (settle id v c).
Proof.
  intros [Hn Hr Hf] Hid.
  destruct (settle_frame id v c) as (Hc & _ & Hm & _). split.
  - by rewrite Hm.
  - intros id' Hs. rewrite Hm. apply Hr. by apply (settle_dom id' id v c).
  - intros id'. rewrite Hc. intros Hin.
    rewrite settle_other; [by apply Hf|]. by intros ->.
Qed.

Lemma Sound_step g e c : Sound c -> Sound (step g e c).
Proof.
  intros HS. destruct e as [| |id reply|id| |]; simpl.
  - destruct g; simpl; [by destruct HS|]. destruct (ws_closed c); by destruct HS.
  - unfold cdpSend. destruct (negb (ws_open c)); [done|].
    destruct HS as [Hn Hr Hf]. split; simpl.
    + lia.
    + intros id. destruct (decide (cdpMessageId c = id)) as [<-|Hne]; [lia|].
      rewrite lookup_insert_ne by done. intros Hs. apply Hr in Hs. lia.
    + intros id Hin. destruct (decide (cdpMessageId c = id)) as [<-|Hne].
      * by rewrite lookup_insert_eq.
      * rewrite lookup_insert_ne by done. apply Hf. set_solver.
  - unfold onMessage. destruct (_ && _); [|done].
    assert (Sound (set_callbacks (callbacks c ∖ {[id]}) c)) as HS1.
    { destruct HS as [Hn Hr Hf]. split; simpl; [done|done|].
      intros id' Hin. apply Hf. set_solver. }
    destruct reply; apply Sound_settle; try done; simpl; set_solver.
  - unfold onTimeout. case_bool_decide; [|done]. simpl.
    assert (Sound (Conn (ws_open c) (ws_closed c) (cdpReady c) (cdpMessageId c) (callbacks c)
                        (timeouts c ∖ {[id]}) (promises c))) as HS0
      by (by destruct HS).
    case_bool_decide; [|done].
    apply Sound_settle; [|simpl; set_solver].
    destruct HS as [Hn Hr Hf]. split; simpl; [done|done|].
    intros id' Hin. apply Hf. set_solver.
  - destruct HS as [Hn Hr Hf]. destruct g; split; simpl; try done;
      intros id Hin; by apply elem_of_empty in Hin.
  - destruct HS as [Hn Hr Hf]. destruct g; split; simpl; try done;
      intros id Hin; by apply elem_of_empty in Hin.
Qed.

Lemma Sound_init : Sound init.
Proof.
  split; simpl; [done| |].
  - intros id [v Hv]. by rewrite lookup_empty in Hv.
  - intros id Hin. by apply elem_of_empty in Hin.
Qed.

Lemma Sound_run g evs c : Sound c -> Sound (run g evs c).
Proof.
  revert c. induction evs as [|e evs IH]; intros c HS; [done|].
  simpl. by apply IH, Sound_step.
Qed.

Lemma promise_kept g e c id :
  is_Some (promises c !! id) -> is_Some (promises (step g e c) !! id).
Proof.
  intros Hs. destruct e as [| |id' reply|id'| |]; simpl.
  - destruct g; simpl; [done|]. by destruct (ws_closed c).
  - unfold cdpSend. destruct (negb (ws_open c)); [done|]. simpl.
    destruct (decide (cdpMessageId c = id)) as [<-|Hne].
    + rewrite lookup_insert_eq. by eexists.
    + by rewrite lookup_insert_ne.
  - unfold onMessage. destruct (_ && _); [|done].
    destruct reply; by apply settle_dom.
  - unfold onTimeout. case_bool_decide; [|done]. simpl.
    case_bool_decide; [|done]. by apply settle_dom.
  - by destruct g.
  - by destruct g.
Qed.

Lemma promise_kept_run g evs c id :
  is_Some (promises c !! id) -> is_Some (promises (run g evs c) !! id).
Proof.
  revert c. induction evs as [|e evs IH]; intros c Hs; [done|].
  simpl. by apply IH, promise_kept.
Qed.

Lemma tracked_timeout c id :
  tracked c -> promises c !! id = Some Pending ->
  (id ∈ timeouts c) /\ promises (onTimeout id c) !! id = Some RejectedTimeout.
Proof.
  intros Htr Hp. destruct (Htr id Hp) as [Hc Ht]. split; [done|].
  unfold onTimeout. rewrite bool_decide_eq_true_2 by done. simpl.
  rewrite bool_decide_eq_true_2 by done. by apply settle_same.
Qed.

(** X18.  Request ids are never reused on a connection: on every state
    reached from load, a request that is sent takes an id of at least 1
    that no earlier request of that state has had (in v3.0.x: no earlier
    request at all; in v3.1.0: no earlier request of the same pool entry),
    so the truthiness test of the message handler on [msg.id] never drops
    its reply and the reply cannot reach the callbacks of another
    request. *)
Theorem request_ids_fresh (g : generation) (evs : list event) (id : N) :
  let c := run g evs init in
  fst (cdpSend c) = Some id ->
  (1 <= id)%N /\ promises c !! id = None /\
  promises (snd (cdpSend c)) !! id = Some Pending /\
  forall id', is_Some (promises c !! id') -> (id' < id)%N.
Proof.
  intros c. pose proof (Sound_run g evs _ Sound_init) as HS. fold c in HS.
  unfold cdpSend. destruct (negb (ws_open c)); [done|]. simpl.
  intros [= <-]. destruct HS as [Hn Hr Hf]. split; [done|]. split.
  - destruct (promises c !! cdpMessageId c) as [v|] eqn:E; [|done].
    destruct (Hr (cdpMessageId c)); [by eexists|lia].
  - split; [by rewrite lookup_insert_eq|]. intros id' Hs. apply Hr in Hs. lia.
Qed.

(** An entry of v3.1.0 on which one request was answered. *)
Lemma request_ids_fresh_witness :
  let c := run V31 [EvOpen; EvSend; EvMessage 1 (Some 0)] init in
  (1 <= 2)%N /\ promises c !! 2%N = None /\
  promises (snd (cdpSend c)) !! 2%N = Some Pending /\
  forall id', is_Some (promises c !! id') -> (id' < 2)%N.
Proof.
  apply (request_ids_fresh V31 [EvOpen; EvSend; EvMessage 1 (Some 0)] 2).
  reflexivity.
Defined.

(** X19.  In v3.1.0 no request is left unsettled: whatever happens to the
    entry after a request was sent on it (replies, other requests, the
    close of its socket, cdpDisconnect), a request that is still pending
    has its 5000 ms timer armed, and once that timer has fired the
    promise is settled, rejected by the timer if nothing settled it
    before. *)
Theorem request_settles_by_timer (evs evs' : list event) (id : N) :
  let c := run V31 evs init in
  fst (cdpSend c) = Some id ->
  let c' := run V31 evs' (snd (cdpSend c)) in
  (promises c' !! id = Some Pending ->
   (id ∈ timeouts c') /\
   promises (step V31 (EvTimeout id) c') !! id = Some RejectedTimeout) /\
  exists w, promises (step V31 (EvTimeout id) c') !! id = Some w /\
            w <> Pending.
Proof.
  intros c Hsend c'.
  assert (tracked c) as Htr by (apply tracked_run; intros i Hi; done).
  assert (tracked (snd (cdpSend c))) as Htr0
    by exact (tracked_step EvSend c Htr).
  assert (tracked c') as Htr' by (by apply tracked_run).
  assert (is_Some (promises c' !! id)) as [w Hw].
  { apply promise_kept_run. revert Hsend. unfold cdpSend.
    destruct (negb (ws_open c)); [done|]. simpl. intros [= <-].
    rewrite lookup_insert_eq. by eexists. }
  split; [intros Hp; by apply tracked_timeout|].
  destruct (decide (w = Pending)) as [->|Hne].
  - exists RejectedTimeout. split; [|done].
    by apply (tracked_timeout c' id Htr' Hw).
  - exists w. split; [|done]. simpl. unfold onTimeout.
    case_bool_decide; [|done]. simpl. case_bool_decide; [|done].
    by apply settle_settled.
Qed.

(** The run on which v3.0.x loses the request: the socket closes before
    any reply, then the timer fires. *)
Lemma request_settles_by_timer_witness :
  promises (run V31 [EvClose; EvTimeout 1] (snd (cdpSend (run V31 [EvOpen] init))))
    !! 1%N = Some RejectedTimeout.
Proof.
  destruct (request_settles_by_timer [EvOpen] [EvClose] 1 eq_refl) as [H _].
  apply H. reflexivity.
Defined.

(** X20.  A reply settles the request it names and no other: on every
    connection state reached from load, a message with the id of a filed
    request resolves that request's promise with its result, or rejects
    it when the message carries an error, removes the callbacks from the
    table and leaves every other promise as it was. *)
Theorem reply_settles (g : generation) (evs : list event) (id : N)
    (reply : option Z) :
  let c := run g evs init in
  id ∈ callbacks c ->
  promises (onMessage id reply c) !! id =
    Some (match reply with Some r => Resolved r | None => RejectedRemote end) /\
  (id ∉ callbacks (onMessage id reply c)) /\
  forall id', id' <> id ->
    promises (onMessage id reply c) !! id' = promises c !! id'.
Proof.
  intros c Hin. pose proof (Sound_run g evs _ Sound_init) as HS. fold c in HS.
  pose proof (snd_filed c HS id Hin) as Hp.
  assert (id <> 0)%N as Hid.
  { destruct (snd_range c HS id); [by eexists|lia]. }
  unfold onMessage. apply N.eqb_neq in Hid as ->.
  rewrite bool_decide_eq_true_2 by done. cbn [negb andb].
  destruct reply as [r|];
    match goal with |- context [settle ?i ?v ?c0] =>
      destruct (settle_frame i v c0) as (Hc & _) end;
    (split; [by apply settle_same|]); rewrite Hc; simpl;
    (split; [set_solver|]); intros id' Hne; by rewrite settle_other.
Qed.

Lemma reply_settles_witness :
  let c := run V30 [EvOpen; EvSend; EvSend] init in
  promises (onMessage 2 (Some 5) c) !! 2%N = Some (Resolved 5) /\
  promises (onMessage 2 (Some 5) c) !! 1%N = Some Pending.
Proof.
  intros c.
  destruct (reply_settles V30 [EvOpen; EvSend; EvSend] 2 (Some 5))
    as (H1 & _ & H3).
  - by vm_compute.
  - split; [exact H1|]. subst c. rewrite (H3 1%N); [reflexivity|discriminate].
Defined.

End CdpFacts.

(** ** More on the connection pool *)

Module PoolFacts.

Import Pool.

#[local] Set Warnings "-clear-no-such-hyp".

(** [function cdpDisconnect()] of v3.1.0, pool part: every socket of the
    pool is closed, then the pool is cleared. *)
Definition cdpDisconnect (s : state) : state :=
  with_pool []
    (foldl (fun acc kv => close_socket (ws kv.2) acc) s (cdpTargetPool s)).

Lemma close_all_spec (l : list (string * entry)) s :
  let s' := foldl (fun acc kv => close_socket (ws kv.2) acc) s l in
  cdpTargetPool s' = cdpTargetPool s /\
  next_socket s' = next_socket s /\ enabled s' = enabled s /\
  enableCDP s' = enableCDP s /\
  (forall h, closed s h -> closed s' h) /\
  (forall h, is_Some (sockets s' !! h) <-> is_Some (sockets s !! h)) /\
  (forall id e, (id, e) ∈ l -> is_Some (sockets s !! ws e) -> closed s' (ws e)) /\
  (forall h, h ∉ (fun kv : string * entry => ws kv.2) <$> l ->
             sockets s' !! h = sockets s !! h).
Proof.
  revert s. induction l as [|kv l IH]; intros s; simpl.
  - split_and!; try done. intros id e Hin. by apply elem_of_nil in Hin.
  - destruct (IH (close_socket (ws kv.2) s)) as (H1 & H2 & H3 & H4 & H5 & H6 & H7 & H8).
    split_and!; try done.
    + intros h Hc. by apply H5, closed_mono_close.
    + intros h. rewrite H6. apply is_Some_close_socket.
    + intros id e [<-|Hin]%elem_of_cons Hs.
      * apply H5. by apply closed_close_socket.
      * apply (H7 id e Hin). by apply is_Some_close_socket.
    + intros h Hh. rewrite H8 by set_solver. simpl.
      rewrite lookup_alter_ne; [done|]. set_solver.
Qed.

Section HostFacts.

Variable ws_rejects : string -> bool.

Lemma cleanup_noop live (l : list (string * entry)) s :
  (forall kv, kv ∈ l -> kv.1 ∈ live) ->
  foldl (cleanup_entry live) s l = s.
Proof.
  revert s. induction l as [|kv l IH]; intros s Hall; [done|].
  simpl. unfold cleanup_entry at 2.
  rewrite bool_decide_eq_true_2 by (apply Hall; by left).
  apply IH. intros kv' Hin. apply Hall. by right.
Qed.

Lemma connect_noop targets s :
  (forall t, t ∈ targets -> connectable ws_rejects t = true -> t_id t ∈ keys s) ->
  foldl (connect_target ws_rejects) s targets = s.
Proof.
  induction targets as [|t targets IH]; intros Hall; [done|].
  simpl.
  destruct (connect_step ws_rejects t s) as [[-> _]|(Hc & Hnot & _)].
  - apply IH. intros t' Hin. apply Hall. by right.
  - exfalso. apply Hnot, Hall; [by left|done].
Qed.

Lemma connect_keeps targets s kv :
  kv ∈ cdpTargetPool s ->
  kv ∈ cdpTargetPool (foldl (connect_target ws_rejects) s targets).
Proof.
  revert s. induction targets as [|t targets IH]; intros s Hin; [done|].
  simpl. apply IH.
  destruct (connect_step ws_rejects t s) as [[-> _]|(_ & _ & e & -> & _)];
    [done|]. apply elem_of_app. by left.
Qed.

Lemma keys_elem (s : state) id :
  id ∈ keys s <-> exists e, (id, e) ∈ cdpTargetPool s.
Proof.
  unfold keys. rewrite list_elem_of_fmap. split.
  - intros ([id' e] & -> & Hin). by exists e.
  - intros [e Hin]. by exists (id, e).
Qed.

Lemma cleanup_flags live (l : list (string * entry)) s :
  enabled (foldl (cleanup_entry live) s l) = enabled s /\
  enableCDP (foldl (cleanup_entry live) s l) = enableCDP s.
Proof.
  revert s. induction l as [|kv l IH]; intros s; [done|]. simpl.
  destruct (IH (cleanup_entry live s kv)) as [-> ->].
  unfold cleanup_entry. by case_bool_decide.
Qed.

Lemma connect_flags targets s :
  enabled (foldl (connect_target ws_rejects) s targets) = enabled s /\
  enableCDP (foldl (connect_target ws_rejects) s targets) = enableCDP s.
Proof.
  revert s. induction targets as [|t targets IH]; intros s; [done|]. simpl.
  destruct (IH (connect_target ws_rejects s t)) as [-> ->].
  destruct (connect_step ws_rejects t s) as [[-> _]|(_ & _ & e & _ & _ & _ & _)];
    [done|].
  unfold connect_target, cdpConnectTarget. by repeat (case_match; simpl).
Qed.

(** X21.  A discovery cycle repeated on the same report changes nothing: no
    entry is added or removed and no socket is opened or closed. *)
Theorem discovery_idempotent (targets : list target) (s : state) :
  wf s ->
  let s' := cdpDiscoverAndConnect ws_rejects (Some targets) s in
  cdpDiscoverAndConnect ws_rejects (Some targets) s' = s'.
Proof.
  intros Hwf s'. subst s'. unfold cdpDiscoverAndConnect.
  destruct (negb (enabled s) || negb (enableCDP s)) eqn:E.
  { by rewrite E. }
  set (live := liveIds targets).
  destruct (cleanup_fold live (cdpTargetPool s) s)
    as (Hm & _ & _ & _ & _ & _).
  pose proof (wf_cleanup live s Hwf) as Hwf1.
  set (s1 := foldl (cleanup_entry live) s (cdpTargetPool s)) in *.
  destruct (connect_fold ws_rejects targets s1 Hwf1) as (Hwf2 & Hk & _).
  assert (enabled (discover ws_rejects targets s) = enabled s /\
          enableCDP (discover ws_rejects targets s) = enableCDP s) as [E1 E2].
  { unfold discover.
    destruct (connect_flags targets
                (foldl (cleanup_entry (liveIds targets)) s (cdpTargetPool s)))
      as [-> ->].
    apply cleanup_flags. }
  rewrite E1, E2, E. unfold discover at 1. fold live.
  unfold discover. fold live. fold s1.
  set (s2 := foldl (connect_target ws_rejects) s1 targets) in *.
  rewrite cleanup_noop.
  - apply connect_noop. intros t Hin Hc. apply Hk. right. by exists t.
  - intros [id e] Hin. simpl.
    assert (id ∈ keys s2) as Hid by (apply keys_elem; by exists e).
    apply Hk in Hid as [Hid|(t & Ht & <- & _)].
    + apply keys_elem in Hid as [e' He']. apply Hm in He' as [He' [Hl|Hn]];
        [done|]. exfalso. apply Hn. simpl.
      apply list_elem_of_fmap. by exists (id, e').
    + subst live. unfold liveIds. apply list_elem_of_fmap. by exists t.
Qed.

(** X22.  Connections persist across discovery cycles: an entry whose target
    id is still reported stays in the pool with the socket it had; no
    second socket replaces it. *)
Theorem discovery_keeps_connections (targets : list target) (s : state)
    (id : string) (e : entry) :
  (id, e) ∈ cdpTargetPool s -> id ∈ liveIds targets ->
  (id, e) ∈ cdpTargetPool (cdpDiscoverAndConnect ws_rejects (Some targets) s).
Proof.
  intros Hin Hlive. unfold cdpDiscoverAndConnect.
  destruct (negb (enabled s) || negb (enableCDP s)); [done|].
  unfold discover. apply connect_keeps.
  destruct (cleanup_fold (liveIds targets) (cdpTargetPool s) s) as (Hm & _).
  apply Hm. split; [done|]. by left.
Qed.

End HostFacts.

Lemma discovery_idempotent_witness :
  let never := fun _ : string => false in
  let p := Target "P" "page" "Agent" "" (Some "ws://127.0.0.1:9222/P"%string) in
  let s' := cdpDiscoverAndConnect never (Some [p]) init in
  cdpDiscoverAndConnect never (Some [p]) s' = s'.
Proof.
  intros never p. apply (discovery_idempotent never [p] init). apply wf_init.
Defined.

Lemma discovery_keeps_connections_witness :
  let never := fun _ : string => false in
  let p := Target "P" "page" "Agent" "" (Some "ws://127.0.0.1:9222/P"%string) in
  let q := Target "Q" "page" "Panel" "" (Some "ws://127.0.0.1:9222/Q"%string) in
  let s := cdpDiscoverAndConnect never (Some [p]) init in
  ("P"%string, Entry 0 "Agent" "page" 1) ∈
    cdpTargetPool (cdpDiscoverAndConnect never (Some [q; p]) s).
Proof.
  intros never p q s.
  apply (discovery_keeps_connections never [q; p] s).
  - apply list_elem_of_singleton. reflexivity.
  - right. left.
Defined.

(** X23.  [cdpDisconnect] empties the pool and closes every socket the pool
    held; no socket is opened, and a socket outside the pool is left as
    it was. *)
Theorem disconnect_closes_all (s : state) :
  wf s ->
  cdpTargetPool (cdpDisconnect s) = [] /\
  next_socket (cdpDisconnect s) = next_socket s /\
  (forall id e, (id, e) ∈ cdpTargetPool s -> closed (cdpDisconnect s) (ws e)) /\
  (forall h, (forall id e, (id, e) ∈ cdpTargetPool s -> ws e <> h) ->
             sockets (cdpDisconnect s) !! h = sockets s !! h).
Proof.
  intros [_ Hso _]. unfold cdpDisconnect.
  destruct (close_all_spec (cdpTargetPool s) s)
    as (_ & H2 & _ & _ & _ & _ & H7 & H8).
  split; [done|]. split; [done|]. split.
  - intros id e Hin. destruct (H7 id e Hin (Hso id e Hin)) as (k & Hk & Hc).
    by exists k.
  - intros h Hh. simpl. apply H8. intros ([id e] & -> & Hin)%list_elem_of_fmap.
    by apply (Hh id e).
Qed.

Lemma disconnect_closes_all_witness :
  let never := fun _ : string => false in
  let p := Target "P" "page" "Agent" "" (Some "ws://127.0.0.1:9222/P"%string) in
  let s := cdpDiscoverAndConnect never (Some [p]) init in
  cdpTargetPool (cdpDisconnect s) = [] /\ closed (cdpDisconnect s) 0.
Proof.
  intros never p s.
  assert (wf s) as Hwf.
  { split.
    - apply NoDup_singleton.
    - intros id e [= -> ->]%list_elem_of_singleton. by eexists.
    - intros h k. simpl. intros Hk.
      destruct (decide (h = 0%nat)) as [->|Hne]; [lia|].
      by rewrite lookup_insert_ne, lookup_empty in Hk. }
  destruct (disconnect_closes_all s Hwf) as (H1 & _ & H3 & _).
  split; [exact H1|].
  apply (H3 "P"%string (Entry 0 "Agent" "page" 1)).
  apply list_elem_of_singleton. reflexivity.
Defined.

End PoolFacts.

(** ** The reconnect timer (v3.0.x) and the discovery timer (v3.1.0) *)

Module Reconnect.

(** The live timers of the remote-debugging layer, the variable that
    records one ([cdpReconnectTimer] in v3.0.x, [cdpDiscoveryTimer] in
    v3.1.0), [cdpPort] of v3.1.0, the two switches, and the calls made of
    [cdpConnect] (v3.0.x) or [cdpDiscoverAndConnect] (v3.1.0). *)
Record state := State {
  timers : gset nat;
  next_handle : nat;
  timer : option nat;
  cdpPort : option N;
  enabled : bool;
  enableCDP : bool;
  calls : nat
}.

Definition init : state := State ∅ 0 None None true true 0.

(** [function scheduleCdpReconnect(port)] (v3.0.x): nothing when a timer
    is recorded, else a 10 s timeout is armed and recorded. *)
Definition scheduleCdpReconnect (s : state) : state :=
  match timer s with
  | Some _ => s
  | None =>
      State ({[next_handle s]} ∪ timers s) (S (next_handle s))
            (Some (next_handle s)) (cdpPort s) (enabled s) (enableCDP s)
            (calls s)
  end.

(** The closure of that timeout, for the handle [h]: the variable is
    reset, and [cdpConnect] is called when both switches are on. *)
Definition onReconnect (h : nat) (s : state) : state :=
  if bool_decide (h ∈ timers s) then
    State (timers s ∖ {[h]}) (next_handle s) None (cdpPort s) (enabled s)
          (enableCDP s)
          (if enabled s && enableCDP s then S (calls s) else calls s)
  else s.

(** The timer part of [function cdpDisconnect()], the same in both
    generations: the recorded timer is cleared and the variable reset;
    [cdpPort] is kept. *)
Definition cdpDisconnect (s : state) : state :=
  match timer s with
  | Some h =>
      State (timers s ∖ {[h]}) (next_handle s) None (cdpPort s) (enabled s)
            (enableCDP s) (calls s)
  | None => s
  end.

(** [function startCdpDiscovery(port)] (v3.1.0): the port is kept, a
    discovery runs at once, a recorded interval is cleared and a new 10 s
    interval is armed and recorded. *)
Definition startCdpDiscovery (port : N) (s : state) : state :=
  let live := match timer s with
              | Some h => timers s ∖ {[h]}
              | None => timers s
              end in
  State ({[next_handle s]} ∪ live) (S (next_handle s)) (Some (next_handle s))
        (Some port) (enabled s) (enableCDP s) (S (calls s)).

(** The closure of the discovery interval. *)
Definition onDiscovery (h : nat) (s : state) : state :=
  if bool_decide (h ∈ timers s) then
    State (timers s) (next_handle s) (timer s) (cdpPort s) (enabled s)
          (enableCDP s) (S (calls s))
  else s.

(** The remote-debugging part of switching the feature on in v3.1.0:
    [if (cfg('enableCDP') && cdpPort) startCdpDiscovery(cdpPort)]. *)
Definition toggle_on (s : state) : state :=
  match cdpPort s with
  | Some port =>
      if enableCDP s && negb (port =? 0)%N then startCdpDiscovery port s else s
  | None => s
  end.

Inductive event :=
| EvSchedule               (* v3.0.x: a close event or a failed connection *)
| EvReconnect (h : nat)    (* v3.0.x: the timeout fires *)
| EvStart (port : N)       (* v3.1.0: activate found the port *)
| EvDiscovery (h : nat)    (* v3.1.0: the interval fires *)
| EvToggleOn               (* v3.1.0 *)
| EvDisconnect
| EvSetEnabled (b : bool)
| EvSetEnableCDP (b : bool).

Inductive generation := V30 | V31.

(** The events that occur under a generation. *)
Definition occurs (g : generation) (e : event) : bool :=
  match g, e with
  | V30, (EvStart _ | EvDiscovery _ | EvToggleOn) => false
  | V31, (EvSchedule | EvReconnect _) => false
  | _, _ => true
  end.

Definition step (g : generation) (e : event) (s : state) : state :=
  if negb (occurs g e) then s
  else match e with
       | EvSchedule => scheduleCdpReconnect s
       | EvReconnect h => onReconnect h s
       | EvStart port => startCdpDiscovery port s
       | EvDiscovery h => onDiscovery h s
       | EvToggleOn => toggle_on s
       | EvDisconnect => cdpDisconnect s
       | EvSetEnabled b =>
           State (timers s) (next_handle s) (timer s) (cdpPort s) b
                 (enableCDP s) (calls s)
       | EvSetEnableCDP b =>
           State (timers s) (next_handle s) (timer s) (cdpPort s) (enabled s)
                 b (calls s)
       end.

Definition run (g : generation) (evs : list event) (s : state) : state :=
  foldl (fun acc e => step g e acc) s evs.

(** The live timers are exactly the recorded one. *)
Definition recorded (s : state) : Prop :=
  timers s = match timer s with Some h => {[h]} | None => ∅ end /\
  forall h, timer s = Some h -> (h < next_handle s)%nat.

#[local] Set Warnings "-clear-no-such-hyp".

Lemma option_set_drop (X : gset nat) (o : option nat) :
  X = match o with Some h => {[h]} | None => ∅ end ->
  match o with Some h => X ∖ {[h]} | None => X end = ∅.
Proof. intros ->. destruct o; set_solver. Qed.

Lemma option_set_fire (X : gset nat) (o : option nat) h :
  X = match o with Some h => {[h]} | None => ∅ end -> h ∈ X -> X ∖ {[h]} = ∅.
Proof. intros ->. destruct o; set_solver. Qed.

Lemma recorded_step g e s : recorded s -> recorded (step g e s).
Proof.
  intros Hrec. pose proof Hrec as [Ht Hb].
  unfold step. destruct (negb (occurs g e)); [done|].
  destruct e as [|h|port|h| | |b|b]; try done.
  - unfold scheduleCdpReconnect. destruct (timer s) as [h|] eqn:E; [done|].
    split; simpl; [rewrite Ht; set_solver|]. intros h [= <-]. lia.
  - unfold onReconnect. case_bool_decide as Hin; [|done].
    split; simpl; [|done]. by apply (option_set_fire _ (timer s)).
  - unfold startCdpDiscovery. split; simpl; [|intros h [= <-]; lia].
    rewrite (option_set_drop _ _ Ht). set_solver.
  - unfold onDiscovery. by case_bool_decide.
  - unfold toggle_on. destruct (cdpPort s) as [port|]; [|done].
    destruct (_ && _); [|done].
    unfold startCdpDiscovery. split; simpl; [|intros h [= <-]; lia].
    rewrite (option_set_drop _ _ Ht). set_solver.
  - unfold cdpDisconnect. pose proof (option_set_drop _ _ Ht) as Hd.
    destruct (timer s) as [h|] eqn:E; [|done].
    split; simpl; [done|done].
Qed.

Lemma recorded_run g evs s : recorded s -> recorded (run g evs s).
Proof.
  revert s. induction evs as [|e evs IH]; intros s Hr; [done|].
  simpl. by apply IH, recorded_step.
Qed.

(** X24.  At most one reconnect timer (v3.0.x) or discovery timer (v3.1.0) is
    live at any time, it is the one the variable records, and after
    [cdpDisconnect] none is live. *)
Theorem remote_timer_recorded (g : generation) (evs : list event) :
  let s := run g evs init in
  (forall h, h ∈ timers s <-> timer s = Some h) /\
  (size (timers s) <= 1)%nat /\
  timers (cdpDisconnect s) = ∅ /\ timer (cdpDisconnect s) = None.
Proof.
  intros s. assert (recorded s) as [Ht Hb].
  { apply recorded_run. split; [done|]. by intros h. }
  split_and!.
  - intros h. rewrite Ht. destruct (timer s) as [h'|]; [|set_solver].
    rewrite elem_of_singleton. split; [by intros ->|by intros [= ->]].
  - rewrite Ht. destruct (timer s); [by rewrite size_singleton|].
    rewrite size_empty. lia.
  - unfold cdpDisconnect. pose proof (option_set_drop _ _ Ht) as Hd.
    by destruct (timer s) as [h|].
  - unfold cdpDisconnect. by destruct (timer s) as [h|] eqn:E.
Qed.

(** X25.  In v3.1.0 the port found at activation survives [cdpDisconnect], so
    switching the feature on again restarts the discovery on that port:
    once a port other than 0 has been found and while the remote path is
    enabled, switching off and on leaves exactly one discovery timer
    live and has run a discovery at once. *)
Theorem discovery_restarts (evs : list event) (port : N) :
  let s := run V31 evs init in
  cdpPort s = Some port -> port <> 0%N -> enableCDP s = true ->
  let s' := toggle_on (cdpDisconnect s) in
  cdpPort s' = Some port /\ calls s' = S (calls s) /\
  exists h, timers s' = {[h]} /\ timer s' = Some h.
Proof.
  intros s Hp Hport Hen s'. subst s'.
  assert (recorded s) as [Ht Hb].
  { apply recorded_run. split; [done|]. by intros h. }
  assert (cdpPort (cdpDisconnect s) = Some port /\
          enableCDP (cdpDisconnect s) = true /\
          calls (cdpDisconnect s) = calls s /\
          timers (cdpDisconnect s) = ∅ /\ timer (cdpDisconnect s) = None)
    as (E1 & E2 & E3 & E4 & E5).
  { unfold cdpDisconnect. pose proof (option_set_drop _ _ Ht) as Hd.
    destruct (timer s) as [h|] eqn:E; simpl; split_and!; done. }
  unfold toggle_on. rewrite E1, E2. apply N.eqb_neq in Hport as ->.
  cbn [andb negb]. unfold startCdpDiscovery. rewrite E5, E4, E3. cbn.
  split; [done|]. split; [done|]. eexists. split; [|done]. set_solver.
Qed.

Lemma discovery_restarts_witness :
  let s := run V31 [EvStart 9222; EvDiscovery 0] init in
  let s' := toggle_on (cdpDisconnect s) in
  cdpPort s' = Some 9222%N /\ calls s' = 3%nat /\
  exists h, timers s' = {[h]} /\ timer s' = Some h.
Proof.
  apply (discovery_restarts [EvStart 9222; EvDiscovery 0] 9222);
    [reflexivity|discriminate|reflexivity].
Defined.

End Reconnect.
